(** * bbfetch: the DWR response decoder of [blackboard/dwr.py]

    A shallow embedding of [JsObjectParser], [js_object_parse] and [parse_js],
    together with the parts of the Python runtime they lean on: string
    methods, [OrderedDict], list item assignment, the [re] matcher on the
    statement pattern and [ast.parse] on a fragment of the expression
    grammar. *)

From Stdlib Require Import ZArith List Ascii String Bool Lia.
From stdpp Require Import base option list gmap strings.

Local Open Scope Z_scope.

(** Python [str] is a list of characters; [py "abc"] writes a literal. *)
Abbreviation str := (list ascii).
Definition py (s : string) : str := list_ascii_of_string s.

(** The double quote and the single quote. *)
Definition dq : ascii := "034"%char.
Definition sq : ascii := "'"%char.

(** ** Python values *)

(** A [float] is written by a decimal: [VFloat m s] is the float Python
    reads from the decimal [m / 10^s], kept with no trailing zero in the
    fraction. Rounding to binary64 is outside the model. Decimals of at most
    15 digits, none of them more than 300 places after the point, are
    different floats when they are different decimals, and compare with each
    other and with integers as the decimals do: within these limits (see
    [moderate] below) the model does not tell a float from its decimal, and
    the statements about the values of floats keep within them. *)
#[warnings="-register-all"]
Inductive value :=
| VNone
| VBool (b : bool)
| VInt (n : Z)
| VFloat (m : Z) (s : nat)
| VStr (s : str)
| VList (l : list value)
| VDict (d : list (value * value)).

Global Instance value_inhabited : Inhabited value := populate VNone.

(** ** The node classes of [ast] *)

Inductive num := NInt (n : Z) | NFloat (m : Z) (s : nat).
Inductive unaryop := UAdd | USub | Invert.

#[warnings="-register-all"]
Inductive node :=
| Expression (body : node)
| Name (id : str)
| Num (n : num)
| Str (s : str)
| List (elts : list node)
| Dict (keys values : list node)
| UnaryOp (op : unaryop) (operand : node).

(** ** Exceptions *)

Definition exception_record : Type := Z * Z * value * value.

Inductive valueerror :=
| UnhandledNodeType (n : node)
| InvalidIntLiteral (s : str)
| UnpackMismatch (got : nat)
| DidNotParse (fragment : str)
| DWRReturnedExceptions (l : list exception_record).

Inductive exn :=
| SyntaxError
| ValueError (m : valueerror)
| KeyError (k : str)
| TypeError
| IndexError
| OverflowError
| MemoryError.

Definition is_LookupError (e : exn) : bool :=
  match e with KeyError _ | IndexError => true | _ => false end.

Inductive result (A : Type) :=
| Ok (a : A)
| Raise (e : exn).
Arguments Ok {A} a.
Arguments Raise {A} e.

Global Instance result_ret : MRet result := @Ok.
Global Instance result_bind : MBind result := λ A B f m,
  match m with Ok a => f a | Raise e => Raise e end.
Global Instance result_fmap : FMap result := λ A B f m,
  match m with Ok a => Ok (f a) | Raise e => Raise e end.

(** [[f(x) for x in l]], stopping at the first exception. *)
Definition comprehension {A B} (f : A → result B) : list A → result (list B) :=
  fix go l :=
    match l with
    | [] => Ok []
    | x :: l' => y ← f x; ys ← go l'; Ok (y :: ys)
    end.

(** ** Numbers, equality and hashing of dictionary keys *)

Definition number_of (v : value) : option (Z * nat) :=
  match v with
  | VBool b => Some (if b then 1 else 0, 0%nat)
  | VInt n => Some (n, 0%nat)
  | VFloat m s => Some (m, s)
  | _ => None
  end.

(** [a == b] on the values that can be dictionary keys: numbers compare by
    value across [bool], [int] and [float]. *)
Definition key_eqb (a b : value) : bool :=
  match number_of a, number_of b with
  | Some (m1, s1), Some (m2, s2) =>
      (m1 * 10 ^ Z.of_nat s2 =? m2 * 10 ^ Z.of_nat s1)
  | None, None =>
      match a, b with
      | VNone, VNone => true
      | VStr x, VStr y => bool_decide (x = y)
      | _, _ => false
      end
  | _, _ => false
  end.

Definition hashable (v : value) : bool :=
  match v with VList _ | VDict _ => false | _ => true end.

(** [d[k] = v] on an [OrderedDict]: an equal key keeps its place and its
    first spelling, a new key goes last. *)
Fixpoint dict_store (d : list (value * value)) (k v : value) : list (value * value) :=
  match d with
  | [] => [(k, v)]
  | (k', v') :: d' =>
      if key_eqb k' k then (k', v) :: d' else (k', v') :: dict_store d' k v
  end.

Definition dict_setitem (d : list (value * value)) (k v : value)
  : result (list (value * value)) :=
  if hashable k then Ok (dict_store d k v) else Raise TypeError.

(** [collections.OrderedDict(pairs)]. *)
Fixpoint OrderedDict_from (d : list (value * value)) (pairs : list (value * value))
  : result (list (value * value)) :=
  match pairs with
  | [] => Ok d
  | (k, v) :: ps => d' ← dict_setitem d k v; OrderedDict_from d' ps
  end.

Definition OrderedDict (pairs : list (value * value)) : result value :=
  VDict <$> OrderedDict_from [] pairs.

(** ** [JsObjectParser] *)

Definition js_constants (id : str) : result value :=
  if bool_decide (id = py "null") then Ok VNone
  else if bool_decide (id = py "false") then Ok (VBool false)
  else if bool_decide (id = py "true") then Ok (VBool true)
  else Raise (KeyError id).

Definition visit_Num (n : num) : value :=
  match n with NInt z => VInt z | NFloat m s => VFloat m s end.

(** [visit] dispatches on the node class; a class without a [visit_*]
    method reaches [generic_visit]. The backtrace printed to [stderr] before
    the exception is re-raised is not part of the result. *)
Fixpoint visit (n : node) : result value :=
  match n with
  | Expression body => visit body
  | Name id => js_constants id
  | Num n => Ok (visit_Num n)
  | Str s => Ok (VStr s)
  | List elts => VList <$> comprehension visit elts
  | Dict keys values =>
      pairs ← comprehension (λ kv, k ← kv.1; v ← kv.2; Ok (k, v))
                (zip (map visit keys) (map visit values));
      OrderedDict pairs
  | UnaryOp _ _ => Raise (ValueError (UnhandledNodeType n))
  end.

(** ** String methods *)

Definition code_of (c : ascii) : N := N_of_ascii c.

Definition in_range (lo hi c : ascii) : bool :=
  ((code_of lo <=? code_of c) && (code_of c <=? code_of hi))%N.

Definition is_digit (c : ascii) : bool := in_range "0" "9" c.
Definition is_alpha_ (c : ascii) : bool :=
  in_range "a" "z" c || in_range "A" "Z" c || bool_decide (c = "_"%char).
Definition is_alnum_ (c : ascii) : bool := is_alpha_ c || is_digit c.

(** [str.isspace] on the characters below 256. *)
Definition isspace (c : ascii) : bool :=
  let n := code_of c in
  ((9 <=? n) && (n <=? 13) || (28 <=? n) && (n <=? 32)
   || (n =? 133) || (n =? 160))%N.

Fixpoint lstrip (s : str) : str :=
  match s with
  | c :: s' => if isspace c then lstrip s' else s
  | [] => []
  end.

Definition strip (s : str) : str := rev (lstrip (rev (lstrip s))).

(** [s.split(sep)] for a one-character separator. *)
Fixpoint split (sep : ascii) (s : str) : list str :=
  match s with
  | [] => [[]]
  | c :: s' =>
      if bool_decide (c = sep) then [] :: split sep s'
      else match split sep s' with
           | p :: ps => (c :: p) :: ps
           | [] => [[c]]
           end
  end.

Definition digit_value (c : ascii) : Z := Z.of_N (code_of c) - 48.

Definition digits_value (ds : str) : Z :=
  fold_left (λ acc d, 10 * acc + digit_value d) ds 0.

(** [int(s)], applied in [parse_js] to [\d+] captures only. *)
Definition int (s : str) : result Z :=
  match s with
  | [] => Raise (ValueError (InvalidIntLiteral s))
  | _ => if forallb is_digit s then Ok (digits_value s)
         else Raise (ValueError (InvalidIntLiteral s))
  end.

(** ** The [re] matcher

    A backtracking matcher in continuation-passing style: alternatives are
    tried left to right, repetition is greedy, and the first way to reach the
    end of the pattern wins. A capturing group stores the text it matched
    under its number. *)

Inductive regex :=
| Lit (s : str)
| Any (p : ascii → bool)
| Cat (r1 r2 : regex)
| Alt (r1 r2 : regex)
| Star (r : regex)
| Group (i : nat) (r : regex).

Definition Eps : regex := Lit [].
Definition Plus (r : regex) : regex := Cat r (Star r).
Definition Opt (r : regex) : regex := Alt r Eps.

Fixpoint strip_prefix (p s : str) : option str :=
  match p, s with
  | [], _ => Some s
  | a :: p', b :: s' => if bool_decide (a = b) then strip_prefix p' s' else None
  | _ :: _, [] => None
  end.

Section matcher.
Context {R : Type}.

Fixpoint rmatch (r : regex) (s : str) (caps : gmap nat str)
    (k : str → gmap nat str → option R) {struct r} : option R :=
  match r with
  | Lit p => match strip_prefix p s with Some s' => k s' caps | None => None end
  | Any p => match s with
             | c :: s' => if p c then k s' caps else None
             | [] => None
             end
  | Cat r1 r2 => rmatch r1 s caps (λ s' caps', rmatch r2 s' caps' k)
  | Alt r1 r2 => match rmatch r1 s caps k with
                 | Some x => Some x
                 | None => rmatch r2 s caps k
                 end
  | Star r' =>
      (fix loop (n : nat) (s : str) (caps : gmap nat str) : option R :=
         match n with
         | O => k s caps
         | S n' =>
             match rmatch r' s caps (λ s' caps',
                     if (length s' <? length s)%nat then loop n' s' caps'
                     else None) with
             | Some x => Some x
             | None => k s caps
             end
         end) (length s) s caps
  | Group i r' =>
      rmatch r' s caps (λ s' caps',
        k s' (<[i := take (length s - length s') s]> caps'))
  end.
End matcher.

(** [re.match]: the remaining text and the groups of the first match at the
    head of [s]. *)
Definition match_here (r : regex) (s : str) : option (str * gmap nat str) :=
  rmatch r s ∅ (λ s' caps, Some (s', caps)).

(** ** [ast.parse(s, mode='eval')]

    The parser belongs to Python, not to this repository. It is modelled on
    the fragment of the expression grammar that can produce the node classes
    [JsObjectParser] handles, plus the unary operators: names, decimal
    integers and point floats, single- and double-quoted strings (adjacent
    ones are concatenated), list and dict displays with an optional trailing
    comma, parentheses, blanks between tokens. Texts outside the fragment
    (exponents, hexadecimal and complex numbers, string prefixes, triple
    quotes, octal and named escapes, line breaks, comments, keywords, any
    other use of an operator) are answered with [SyntaxError], whatever
    Python makes of them: some it rejects with this or another exception,
    some it accepts. What the model accepts, Python accepts with the same
    tree, within the limits of the interpreter, which the model does not
    have: brackets nested deeper than the parser allows (200 in CPython 3.8
    and later, fewer before) and integer literals of more than 4300 digits
    (CPython 3.11 and later) are refused, and a decimal is rounded to
    binary64 (to infinity from about 1.8e308 on). The statements about what
    a literal evaluates to keep within these limits: see [moderate] and
    [in_fragment] below. *)

Inductive token :=
| NAME (s : str)
| NUMBER (n : num)
| STRING (s : str)
| OP (c : ascii).

Fixpoint span (p : ascii → bool) (s : str) : str * str :=
  match s with
  | c :: s' => if p c then let '(a, b) := span p s' in (c :: a, b) else ([], s)
  | [] => ([], [])
  end.

Definition is_blank (c : ascii) : bool :=
  bool_decide (c = " "%char) || bool_decide (c = "009"%char)
  || bool_decide (c = "012"%char).

(** A blank at the head of the text is an unexpected indent. *)
Definition is_indent (c : ascii) : bool :=
  bool_decide (c = " "%char) || bool_decide (c = "009"%char).

(** A line feed, a carriage return or a null character ends a string
    literal before its closing quote. *)
Definition breaks_string (c : ascii) : bool :=
  bool_decide (c = "010"%char) || bool_decide (c = "013"%char)
  || bool_decide (c = "000"%char).

Definition is_op (c : ascii) : bool :=
  bool_decide (c ∈ py "[]{}(),:-+~").

Definition keywords : list str :=
  map py ["False"; "None"; "True"; "and"; "as"; "assert"; "async"; "await";
          "break"; "class"; "continue"; "def"; "del"; "elif"; "else";
          "except"; "finally"; "for"; "from"; "global"; "if"; "import"; "in";
          "is"; "lambda"; "nonlocal"; "not"; "or"; "pass"; "raise"; "return";
          "try"; "while"; "with"; "yield"]%string.

Definition starts_with (p : ascii → bool) (s : str) : bool :=
  match s with c :: _ => p c | [] => false end.

(** [decinteger]: a nonzero digit then digits, or zeros only. *)
Definition decinteger (ds : str) : bool :=
  match ds with
  | [] => false
  | d :: _ => negb (bool_decide (d = "0"%char))
              || forallb (λ c, bool_decide (c = "0"%char)) ds
  end.

Definition strip_zeros (fp : str) : str :=
  rev (snd (span (λ c, bool_decide (c = "0"%char)) (rev fp))).

Definition pointfloat (ip fp : str) : num :=
  let fp' := strip_zeros fp in
  NFloat (digits_value (ip ++ fp')) (length fp').

Definition is_dot (c : ascii) : bool := bool_decide (c = "."%char).

Definition lex_number (s : str) : result (num * str) :=
  let '(ip, r) := span is_digit s in
  if starts_with is_dot r then
    let '(fp, r') := span is_digit (tail r) in
    if bool_decide (ip = []) && bool_decide (fp = []) then Raise SyntaxError
    else if starts_with is_alnum_ r' then Raise SyntaxError
    else Ok (pointfloat ip fp, r')
  else
    if starts_with is_alnum_ r then Raise SyntaxError
    else if decinteger ip then Ok (NInt (digits_value ip), r)
    else Raise SyntaxError.

Definition hex_value (c : ascii) : option N :=
  if is_digit c then Some (code_of c - 48)%N
  else if in_range "a" "f" c then Some (code_of c - 87)%N
  else if in_range "A" "F" c then Some (code_of c - 55)%N
  else None.

Definition hex2 (h1 h2 : ascii) : option ascii :=
  a ← hex_value h1; b ← hex_value h2; Some (ascii_of_N (16 * a + b)).

(** The characters a backslash escape stands for; [None] where the escape
    is outside the fragment. An unknown escape keeps its backslash. *)
Definition simple_escape (e : ascii) : option str :=
  if bool_decide (e = "\"%char) then Some ["\"%char]
  else if bool_decide (e = "'"%char) then Some ["'"%char]
  else if bool_decide (e = dq) then Some [dq]
  else if bool_decide (e = "n"%char) then Some ["010"%char]
  else if bool_decide (e = "r"%char) then Some ["013"%char]
  else if bool_decide (e = "t"%char) then Some ["009"%char]
  else if bool_decide (e = "b"%char) then Some ["008"%char]
  else if bool_decide (e = "f"%char) then Some ["012"%char]
  else if bool_decide (e = "a"%char) then Some ["007"%char]
  else if bool_decide (e = "v"%char) then Some ["011"%char]
  else if bool_decide (e = "010"%char) then Some []
  else if in_range "0" "7" e || bool_decide (e ∈ py "xuUN") then None
  else if breaks_string e then None
  else Some ["\"%char; e].

(** The body of a string literal after its opening quote [q]: the decoded
    text and what follows the closing quote. *)
Fixpoint lex_string (q : ascii) (s : str) : result (str * str) :=
  match s with
  | [] => Raise SyntaxError
  | c :: s' =>
      if bool_decide (c = q) then Ok ([], s')
      else if breaks_string c then Raise SyntaxError
      else if bool_decide (c = "\"%char) then
        match s' with
        | [] => Raise SyntaxError
        | e :: s'' =>
            if bool_decide (e = "x"%char) then
              match s'' with
              | h1 :: h2 :: s3 =>
                  match hex2 h1 h2 with
                  | Some d => '(b, r) ← lex_string q s3; Ok (d :: b, r)
                  | None => Raise SyntaxError
                  end
              | _ => Raise SyntaxError
              end
            else
              match simple_escape e with
              | Some ds => '(b, r) ← lex_string q s''; Ok (ds ++ b, r)
              | None => Raise SyntaxError
              end
        end
      else '(b, r) ← lex_string q s'; Ok (c :: b, r)
  end.

Definition is_quote (c : ascii) : bool :=
  bool_decide (c = sq) || bool_decide (c = dq).

Fixpoint lex (fuel : nat) (s : str) : result (list token) :=
  match fuel with
  | O => Raise SyntaxError
  | S fuel =>
      match s with
      | [] => Ok []
      | c :: s' =>
          if is_blank c then lex fuel s'
          else if is_digit c || bool_decide (c = "."%char) then
            '(n, r) ← lex_number s; ts ← lex fuel r; Ok (NUMBER n :: ts)
          else if is_alpha_ c then
            let '(id, r) := span is_alnum_ s in
            if bool_decide (id ∈ keywords) || starts_with is_quote r
            then Raise SyntaxError
            else ts ← lex fuel r; Ok (NAME id :: ts)
          else if is_quote c then
            match s' with
            | c1 :: c2 :: _ =>
                if bool_decide (c1 = c) && bool_decide (c2 = c)
                then Raise SyntaxError
                else '(b, r) ← lex_string c s'; ts ← lex fuel r; Ok (STRING b :: ts)
            | _ => '(b, r) ← lex_string c s'; ts ← lex fuel r; Ok (STRING b :: ts)
            end
          else if is_op c then ts ← lex fuel s'; Ok (OP c :: ts)
          else Raise SyntaxError
      end
  end.

(** Adjacent string literals. *)
Fixpoint more_strings (ts : list token) : str * list token :=
  match ts with
  | STRING s :: ts' => let '(ss, r) := more_strings ts' in (s ++ ss, r)
  | _ => ([], ts)
  end.

Definition unary_of (c : ascii) : option unaryop :=
  if bool_decide (c = "-"%char) then Some USub
  else if bool_decide (c = "+"%char) then Some UAdd
  else if bool_decide (c = "~"%char) then Some Invert
  else None.

Definition is_OP (c : ascii) (t : token) : bool :=
  match t with OP c' => bool_decide (c' = c) | _ => false end.

Fixpoint parse_expr (fuel : nat) (ts : list token) : result (node * list token) :=
  match fuel with
  | O => Raise SyntaxError
  | S fuel =>
      match ts with
      | NAME id :: r => Ok (Name id, r)
      | NUMBER n :: r => Ok (Num n, r)
      | STRING s :: r => let '(ss, r') := more_strings r in Ok (Str (s ++ ss), r')
      | OP c :: r =>
          if bool_decide (c = "["%char) then
            '(es, r') ← parse_elts fuel r; Ok (List es, r')
          else if bool_decide (c = "{"%char) then
            '(kvs, r') ← parse_items fuel r; Ok (Dict kvs.1 kvs.2, r')
          else if bool_decide (c = "("%char) then
            '(e, r') ← parse_expr fuel r;
            match r' with
            | t :: r'' => if is_OP ")" t then Ok (e, r'') else Raise SyntaxError
            | [] => Raise SyntaxError
            end
          else match unary_of c with
               | Some op => '(e, r') ← parse_expr fuel r; Ok (UnaryOp op e, r')
               | None => Raise SyntaxError
               end
      | [] => Raise SyntaxError
      end
  end
with parse_elts (fuel : nat) (ts : list token) : result (list node * list token) :=
  match fuel with
  | O => Raise SyntaxError
  | S fuel =>
      match ts with
      | [] => Raise SyntaxError
      | t :: r =>
          if is_OP "]" t then Ok ([], r)
          else
            '(e, r1) ← parse_expr fuel ts;
            match r1 with
            | t1 :: r2 =>
                if is_OP "," t1 then
                  '(es, r3) ← parse_elts fuel r2; Ok (e :: es, r3)
                else if is_OP "]" t1 then Ok ([e], r2)
                else Raise SyntaxError
            | [] => Raise SyntaxError
            end
      end
  end
with parse_items (fuel : nat) (ts : list token)
    : result ((list node * list node) * list token) :=
  match fuel with
  | O => Raise SyntaxError
  | S fuel =>
      match ts with
      | [] => Raise SyntaxError
      | t :: r =>
          if is_OP "}" t then Ok (([], []), r)
          else
            '(k, r1) ← parse_expr fuel ts;
            match r1 with
            | t1 :: r2 =>
                if is_OP ":" t1 then
                  '(v, r3) ← parse_expr fuel r2;
                  match r3 with
                  | t3 :: r4 =>
                      if is_OP "," t3 then
                        '(kvs, r5) ← parse_items fuel r4;
                        Ok ((k :: kvs.1, v :: kvs.2), r5)
                      else if is_OP "}" t3 then Ok (([k], [v]), r4)
                      else Raise SyntaxError
                  | [] => Raise SyntaxError
                  end
                else Raise SyntaxError
            | [] => Raise SyntaxError
            end
      end
  end.

Definition ast_parse (s : str) : result node :=
  if starts_with is_indent s then Raise SyntaxError
  else
    ts ← lex (S (length s)) s;
    '(e, r) ← parse_expr (S (length ts)) ts;
    match r with
    | [] => Ok (Expression e)
    | _ :: _ => Raise SyntaxError
    end.

Definition js_object_parse (s : str) : result value :=
  tree ← ast_parse s; visit tree.


(** ** The statement pattern of [parse_js] *)

Inductive key := throw | comment | var | setattr | setitem | call | calldict | exception.

Global Instance key_eq_dec : EqDecision key.
Proof. solve_decision. Defined.

Definition not_in (cs : str) (c : ascii) : bool := negb (bool_decide (c ∈ cs)).
Definition dot (c : ascii) : bool := negb (bool_decide (c = "010"%char)).

(** [[a-zA-Z_][a-zA-Z0-9_]*] *)
Definition id : regex := Cat (Any is_alpha_) (Star (Any is_alnum_)).

(** The pattern [obj]: any run of characters other than a semicolon or a
    quote, and of quoted strings; in a quoted string a backslash takes the
    next character with it. [quoted q] is [q(?:[^\\q]|\\.)*q]. *)
Definition quoted (q : ascii) : regex :=
  Cat (Lit [q])
    (Cat (Star (Alt (Any (not_in ["\"%char; q])) (Cat (Lit (py "\")) (Any dot))))
         (Lit [q])).
Definition obj : regex :=
  Star (Alt (Any (not_in [";"%char; sq; dq]))
            (Alt (quoted sq) (quoted dq))).

(** [(?:obj):(?:id)] *)
Definition kv : regex := Cat obj (Cat (Lit (py ":")) id).

Definition digits : regex := Plus (Any is_digit).

Fixpoint seq (rs : list regex) : regex :=
  match rs with
  | [] => Eps
  | [r] => r
  | r :: rs' => Cat r (seq rs')
  end.

Definition patterns : list (key * regex) :=
  [ (throw, seq [Lit (py "throw "); obj; Lit (py ";")]);
    (comment, seq [Lit (py "//"); Group 1 (Star (Any dot))]);
    (var, seq [Lit (py "var "); Group 1 id; Lit (py "="); Group 2 obj; Lit (py ";")]);
    (setattr, seq [Group 1 id; Lit (py "."); Group 2 id; Lit (py "=");
                   Group 3 obj; Lit (py ";")]);
    (setitem, seq [Group 1 id; Lit (py "["); Group 2 obj; Lit (py "]=");
                   Group 3 obj; Lit (py ";")]);
    (call, seq [Lit (py "dwr.engine._remoteHandleCallback('"); Group 1 digits;
                Lit (py "','"); Group 2 digits; Lit (py "',[");
                Group 3 (Opt (Cat id (Star (Cat (Lit (py ",")) id))));
                Lit (py "]);")]);
    (calldict, seq [Lit (py "dwr.engine._remoteHandleCallback('"); Group 1 digits;
                    Lit (py "','"); Group 2 digits; Lit (py "',{");
                    Group 3 (Opt (Cat kv (Star (Cat (Lit (py ",")) kv))));
                    Lit (py "});")]);
    (exception, seq [Lit (py "dwr.engine._remoteHandleException('"); Group 1 digits;
                     Lit (py "','"); Group 2 digits; Lit (py "',{javaClassName:");
                     Group 3 obj; Lit (py ",message:"); Group 4 obj;
                     Lit (py "});")]) ].

(** A match object: [mo.start(0)], [mo.end(0)], [mo.lastgroup], and
    [mo.groups()[mo.lastindex - 1:]] by index. *)
Record Match := {
  mo_start : nat;
  mo_end : nat;
  lastgroup : key;
  groups : gmap nat str;
}.

Definition group (mo : Match) (n : nat) : str := default [] (groups mo !! n).

(** The alternation ['|'.join('(?P<%s>%s)' % (k, v) for k, v in patterns)]
    at the head of [s]: the first alternative that matches, as group 0. *)
Fixpoint match_pattern (ps : list (key * regex)) (s : str)
    : option (key * str * gmap nat str) :=
  match ps with
  | [] => None
  | (k, r) :: ps' =>
      match match_here (Group 0 r) s with
      | Some (s', caps) => Some (k, s', caps)
      | None => match_pattern ps' s
      end
  end.

(** [re.finditer(pattern, code)]: leftmost matches, none overlapping, from
    position [pos] where [s] is what is left of the text. *)
Fixpoint finditer_from (fuel pos : nat) (s : str) : list Match :=
  match fuel with
  | O => []
  | S fuel =>
      match match_pattern patterns s with
      | Some (k, s', caps) =>
          let n := (length s - length s')%nat in
          {| mo_start := pos; mo_end := (pos + n)%nat;
             lastgroup := k; groups := caps |}
          :: (if (n =? 0)%nat then
                match s with
                | [] => []
                | _ :: t => finditer_from fuel (S pos) t
                end
              else finditer_from fuel (pos + n)%nat s')
      | None =>
          match s with
          | [] => []
          | _ :: t => finditer_from fuel (S pos) t
          end
      end
  end.

Definition finditer (code : str) : list Match :=
  finditer_from (S (length code)) 0 code.

(** ** [parse_js]

    The objects bound in [locals] live in a store: a call puts references to
    them into [results], so an assignment that follows the call still shows
    in what [parse_js] returns. Every [var] statement binds its name to a
    fresh object. *)

Inductive item (A : Type) :=
| Plain (x : A)
| Pair (k : value) (x : A).
Arguments Plain {A} x.
Arguments Pair {A} k x.

Definition item_map {A B} (f : A → B) (it : item A) : item B :=
  match it with Plain x => Plain (f x) | Pair k x => Pair k (f x) end.

Record state := {
  i : nat;
  locals : gmap str nat;
  heap : list value;
  results : list (Z * Z * list (item nat));
  exceptions : list exception_record;
}.

Definition initial : state :=
  {| i := 0; locals := ∅; heap := []; results := []; exceptions := [] |}.

Definition set_i (n : nat) (st : state) : state :=
  {| i := n; locals := locals st; heap := heap st;
     results := results st; exceptions := exceptions st |}.

(** [locals[name] = value] *)
Definition bind (name : str) (v : value) (st : state) : state :=
  {| i := i st; locals := <[name := length (heap st)]> (locals st);
     heap := heap st ++ [v];
     results := results st; exceptions := exceptions st |}.

(** The object [locals[name]] refers to is replaced by [v]. *)
Definition mutate (a : nat) (v : value) (st : state) : state :=
  {| i := i st; locals := locals st; heap := <[a := v]> (heap st);
     results := results st; exceptions := exceptions st |}.

Definition append_result (r : Z * Z * list (item nat)) (st : state) : state :=
  {| i := i st; locals := locals st; heap := heap st;
     results := results st ++ [r]; exceptions := exceptions st |}.

Definition append_exception (e : exception_record) (st : state) : state :=
  {| i := i st; locals := locals st; heap := heap st;
     results := results st; exceptions := exceptions st ++ [e] |}.

(** [locals[name]] as a reference. *)
Definition lookup_name (name : str) (st : state) : result nat :=
  match locals st !! name with
  | Some a => Ok a
  | None => Raise (KeyError name)
  end.

Definition deref (st : state) (a : nat) : value := heap st !!! a.

(** [l[key] = value] on a list. *)
Definition list_setitem (l : list value) (k v : value) : result (list value) :=
  match k with
  | VInt _ | VBool _ =>
      let n := match k with VInt n => n | VBool true => 1 | _ => 0 end in
      let len := Z.of_nat (length l) in
      let n' := if n <? 0 then n + len else n in
      if (0 <=? n') && (n' <? len) then Ok (<[Z.to_nat n' := v]> l)
      else Raise IndexError
  | _ => Raise TypeError
  end.

(** [obj[key] = value] *)
Definition setitem_ (o k v : value) : result value :=
  match o with
  | VList l => VList <$> list_setitem l k v
  | VDict d => VDict <$> dict_setitem d k v
  | _ => Raise TypeError
  end.

(** [len(l) <= key] *)
Definition len_le (l : list value) (k : value) : result bool :=
  match number_of k with
  | Some (m, s) => Ok (Z.of_nat (length l) * 10 ^ Z.of_nat s <=? m)
  | None => Raise TypeError
  end.

(** The largest index of a sequence, on the 64-bit platforms. *)
Definition PY_SSIZE_T_MAX : Z := 2 ^ 63 - 1.

(** [[None] * (key - len(l))]. A count above [PY_SSIZE_T_MAX] does not fit
    an index: [OverflowError]. A list of more than [PY_SSIZE_T_MAX / 8]
    entries is refused whatever the machine: [MemoryError]. Below that the
    list is made when the machine has the memory for it, which the model
    takes for granted: what is stated of a padded list is stated for the
    case that it is made. *)
Definition padding (l : list value) (k : value) : result (list value) :=
  match k with
  | VInt _ | VBool _ =>
      let n := match k with VInt n => n | VBool true => 1 | _ => 0 end in
      let count := n - Z.of_nat (length l) in
      if PY_SSIZE_T_MAX <? count then Raise OverflowError
      else if PY_SSIZE_T_MAX / 8 <? count then Raise MemoryError
      else Ok (replicate (Z.to_nat count) VNone)
  | _ => Raise TypeError
  end.

Definition nonempty {A} (l : list A) : bool :=
  match l with [] => false | _ :: _ => true end.

(** [k, v = kv_string.split(':')] *)
Definition unpack2 (l : list str) : result (str * str) :=
  match l with
  | [k; v] => Ok (k, v)
  | _ => Raise (ValueError (UnpackMismatch (length l)))
  end.

(** The branch of the loop body selected by [key = mo.lastgroup]. *)
Definition execute (mo : Match) (st : state) : result state :=
  match lastgroup mo with
  | throw => Ok st
  | comment => Ok st
  | var =>
      let name := group mo 1 in
      value ← js_object_parse (group mo 2);
      Ok (bind name value st)
  | setattr =>
      let name := group mo 1 in
      let key := group mo 2 in
      value ← js_object_parse (group mo 3);
      a ← lookup_name name st;
      o ← setitem_ (deref st a) (VStr key) value;
      Ok (mutate a o st)
  | setitem =>
      let name := group mo 1 in
      key ← js_object_parse (group mo 2);
      value ← js_object_parse (group mo 3);
      a ← lookup_name name st;
      match deref st a with
      | VList l =>
          short ← len_le l key;
          if short : bool then
            pad ← padding l key;
            Ok (mutate a (VList ((l ++ pad) ++ [value])) st)
          else
            o ← setitem_ (VList l) key value;
            Ok (mutate a o st)
      | o =>
          o' ← setitem_ o key value;
          Ok (mutate a o' st)
      end
  | call =>
      batch_id ← int (group mo 1);
      call_id ← int (group mo 2);
      data ← (if nonempty (group mo 3)
              then comprehension (λ n, Plain <$> lookup_name n st)
                     (split "," (group mo 3))
              else Ok []);
      Ok (append_result (batch_id, call_id, data) st)
  | calldict =>
      batch_id ← int (group mo 1);
      call_id ← int (group mo 2);
      data ← (if nonempty (group mo 3)
              then comprehension (λ kv_string,
                     '(k, v) ← unpack2 (split ":" kv_string);
                     k' ← js_object_parse k;
                     a ← lookup_name v st;
                     Ok (Pair k' a))
                     (split "," (group mo 3))
              else Ok []);
      Ok (append_result (batch_id, call_id, data) st)
  | exception =>
      batch_id ← int (group mo 1);
      call_id ← int (group mo 2);
      class_name ← js_object_parse (group mo 3);
      message ← js_object_parse (group mo 4);
      Ok (append_exception (batch_id, call_id, class_name, message) st)
  end.

(** [code[i:j]] for [i <= j]. *)
Definition slice (code : str) (i j : nat) : str := take (j - i) (drop i code).

(** One turn of [for mo in re.finditer(pattern, code)]. *)
Definition step (code : str) (mo : Match) (st : state) : result state :=
  let j := mo_start mo in
  let skipped := slice code (i st) j in
  let st := set_i (mo_end mo) st in
  if nonempty (strip skipped)
  then Raise (ValueError (DidNotParse (strip skipped)))
  else execute mo st.

Fixpoint loop (code : str) (mos : list Match) (st : state) : result state :=
  match mos with
  | [] => Ok st
  | mo :: mos' => st' ← step code mo st; loop code mos' st'
  end.

(** [{call_id: data for batch_id, call_id, data in results}] *)
Definition mapping (st : state) : gmap Z (list (item value)) :=
  fold_left (λ m '(batch_id, call_id, data),
               <[call_id := item_map (deref st) <$> data]> m)
            (results st) ∅.

Definition finish (code : str) (st : state) : result (gmap Z (list (item value))) :=
  let skipped := drop (i st) code in
  if nonempty (strip skipped)
  then Raise (ValueError (DidNotParse (strip skipped)))
  else if nonempty (exceptions st)
  then Raise (ValueError (DWRReturnedExceptions (exceptions st)))
  else Ok (mapping st).

Definition parse_js (code : str) : result (gmap Z (list (item value))) :=
  st ← loop code (finditer code) initial;
  finish code st.

(** ** Vocabulary of the statements about [parse_js] *)

(** The environment as the reader of the code sees it: name to value. *)
Definition environment (st : state) : gmap str value := deref st <$> locals st.

(** The spans [code[i:j]] the loop looks at, one before each match and the
    one after the last match, in order. *)
Fixpoint gaps_from (code : str) (i : nat) (mos : list Match) : list str :=
  match mos with
  | [] => [drop i code]
  | mo :: mos' => slice code i (mo_start mo) :: gaps_from code (mo_end mo) mos'
  end.

Definition gaps (code : str) : list str := gaps_from code 0 (finditer code).

Definition stray (span : str) : bool := nonempty (strip span).

Definition is_exception (mo : Match) : bool := bool_decide (lastgroup mo = exception).

Definition is_terminal_call (mo : Match) : bool :=
  bool_decide (lastgroup mo = call) || bool_decide (lastgroup mo = calldict).

(** The record an exception statement stands for. *)
Definition exception_record_of (mo : Match) : result exception_record :=
  batch_id ← int (group mo 1);
  call_id ← int (group mo 2);
  class_name ← js_object_parse (group mo 3);
  message ← js_object_parse (group mo 4);
  Ok (batch_id, call_id, class_name, message).

Definition call_id_of (mo : Match) : result Z := int (group mo 2).

(** The names bound by the [var] statements among [mos]. *)
Definition declared (mos : list Match) : list str :=
  map (λ mo, group mo 1) (filter (λ mo, lastgroup mo = var) mos).

(** The environment names a statement reads. *)
Definition referenced (mo : Match) : list str :=
  match lastgroup mo with
  | setattr | setitem => [group mo 1]
  | call => if nonempty (group mo 3) then split "," (group mo 3) else []
  | calldict =>
      if nonempty (group mo 3)
      then omap (λ kv_string,
                   match split ":" kv_string with
                   | [_; v] => Some v
                   | _ => None
                   end) (split "," (group mo 3))
      else []
  | _ => []
  end.

(** The last entry of [results] for a call id. *)
Definition last_result (c : Z) (rs : list (Z * Z * list (item nat)))
    : option (list (item nat)) :=
  snd <$> last (filter (λ r, r.1.2 = c) rs).

(** The body of a quoted string as the [obj] pattern reads it:
    [(?:[^\\q]|\\.)*]. *)
Fixpoint quoted_body (q : ascii) (s : str) : bool :=
  match s with
  | [] => true
  | c :: s' =>
      if bool_decide (c = "\"%char) then
        match s' with
        | e :: s'' => dot e && quoted_body q s''
        | [] => false
        end
      else negb (bool_decide (c = q)) && quoted_body q s'
  end.

(** ** The canonical text of a value

    The repository has no printer; this is the canonical textual literal
    form of the round-trip property, in the compact JSON style: decimal
    numbers, double-quoted strings in which the quote and the backslash
    are escaped by a backslash and control characters are written [\xhh],
    no blanks. *)

Definition digit_char (n : Z) : ascii := ascii_of_N (Z.to_N (48 + n)).

Fixpoint int_digits (fuel : nat) (n : Z) : str :=
  match fuel with
  | O => []
  | S fuel =>
      if n <? 10 then [digit_char n]
      else int_digits fuel (n / 10) ++ [digit_char (n mod 10)]
  end.

Definition nat_digits (n : Z) : str := int_digits (S (Z.to_nat (Z.log2 n))) n.


Definition sign (n : Z) : str := if n <? 0 then py "-" else [].

Definition repr_int (n : Z) : str := sign n ++ nat_digits (Z.abs n).






Fixpoint join {A} (sep : list A) (l : list (list A)) : list A :=
  match l with
  | [] => []
  | [x] => x
  | x :: l' => x ++ sep ++ join sep l'
  end.


(** Keys of a mapping: pairwise different under [==]. *)
Fixpoint distinct_keys (ks : list value) : bool :=
  match ks with
  | [] => true
  | k :: ks' => forallb (λ k', negb (key_eqb k k')) ks' && distinct_keys ks'
  end.

(** The values [visit] can return: no negative number, a float in lowest
    terms, dictionaries with hashable, pairwise different keys. *)
Fixpoint literal (v : value) : bool :=
  match v with
  | VNone | VBool _ | VStr _ => true
  | VInt n => 0 <=? n
  | VFloat m s =>
      (0 <=? m) && (bool_decide (s = O) || negb (m mod 10 =? 0))
  | VList l => forallb literal l
  | VDict d =>
      forallb (λ kv, hashable kv.1 && literal kv.1 && literal kv.2) d
      && distinct_keys (map fst d)
  end.

(** ** The limits within which the model follows the interpreter *)






(** ** Sample inputs *)

Definition nl : str := ["010"%char].

(** The preamble of the docstring examples. *)
Definition preamble : str :=
  nl ++ py "throw 'allowScriptTagRemoting is false.';" ++ nl
  ++ py "//#DWR-INSERT" ++ nl ++ py "//#DWR-REPLY" ++ nl.


(** A state in which [s] is bound to a fresh empty list, and statements
    as the scan hands them to the loop body. *)
Definition sample_state : state := bind (py "s") (VList []) initial.

Definition sample_setitem : Match :=
  {| mo_start := 9; mo_end := 16; lastgroup := setitem;
     groups := {[ 0%nat := py "s[5]=1;"; 1%nat := py "s"; 2%nat := py "5";
                  3%nat := py "1" ]} |}.

Definition sample_call : Match :=
  {| mo_start := 16; mo_end := 59; lastgroup := call;
     groups := {[ 0%nat := py "dwr.engine._remoteHandleCallback('16','1234',[s]);";
                  1%nat := py "16"; 2%nat := py "1234"; 3%nat := py "s" ]} |}.





(** A response with two exception statements. *)
Definition two_exceptions : str :=
  py "dwr.engine._remoteHandleException('42','5',{javaClassName:" ++ [dq]
  ++ py "java.lang.Throwable" ++ [dq] ++ py ",message:" ++ [dq] ++ py "Error"
  ++ [dq] ++ py "});" ++ nl
  ++ py "dwr.engine._remoteHandleException('42','6',{javaClassName:'E',message:'no'});"
  ++ nl.

(** A response with two calls of the same call id. *)
Definition two_calls : str :=
  py "var a=1;var b=[2];dwr.engine._remoteHandleCallback('1','7',[a]);"
  ++ py "dwr.engine._remoteHandleCallback('1','7',[b,a]);".

(** The entry a terminal call statement appends to [results]. *)
Definition appends (mo : Match) (r : Z * Z * list (item nat)) : Prop :=
  ∃ st, execute mo st = Ok (append_result r st).

Definition call_ids (rs : list (Z * Z * list (item nat))) : list Z :=
  map (λ r, r.1.2) rs.

(** A field assignment to an undeclared name followed by stray text, and
    the same assignment preceded by stray text. *)
Definition stray_after_failure : str := py "a.b=1;x".
Definition failure_after_stray : str := py "x a.b=1;".

(** Stray text between two declarations. *)
Definition stray_between : str := py "var a=1; junk var b=2;".

Definition is_Ok {A} (r : result A) : bool :=
  match r with Ok _ => true | Raise _ => false end.

(** The literals and numbers of a statement evaluate, and the entries of a
    keyed call have the form [key:name]: what the loop body computes before
    it looks a name up. *)
Definition operands_evaluate (mo : Match) : bool :=
  match lastgroup mo with
  | setattr => is_Ok (js_object_parse (group mo 3))
  | setitem => is_Ok (js_object_parse (group mo 2))
               && is_Ok (js_object_parse (group mo 3))
  | call => is_Ok (int (group mo 1)) && is_Ok (int (group mo 2))
  | calldict =>
      is_Ok (int (group mo 1)) && is_Ok (int (group mo 2))
      && forallb (λ kv_string,
                    match split ":" kv_string with
                    | [k; _] => is_Ok (js_object_parse k)
                    | _ => false
                    end) (split "," (group mo 3))
  | _ => true
  end.

(** A keyed call whose key is a quoted string with a comma in it. *)
Definition keyed_comma : str :=
  py "var s=[];dwr.engine._remoteHandleCallback('1','2',{'a,b':s});".





(** ** Vocabulary of the statements about the literal evaluator *)

(** An identifier: [[a-zA-Z_][a-zA-Z0-9_]*]. *)
Definition identifier (s : str) : bool :=
  match s with
  | c :: s' => is_alpha_ c && forallb is_alnum_ s'
  | [] => false
  end.

(** The trees whose numbers are values [visit] may return as they are. *)
Fixpoint plain (n : node) : bool :=
  match n with
  | Expression body => plain body
  | Num k => literal (visit_Num k)
  | List elts => forallb plain elts
  | Dict keys values => forallb plain keys && forallb plain values
  | UnaryOp _ operand => plain operand
  | Name _ | Str _ => true
  end.

Definition plain_token (t : token) : bool :=
  match t with NUMBER k => literal (visit_Num k) | _ => true end.

(** ** Vocabulary of further statements about [parse_js] *)

(** [d[k]] on a dictionary. *)
Fixpoint dict_get (d : list (value * value)) (k : value) : option value :=
  match d with
  | [] => None
  | (k', v) :: d' => if key_eqb k' k then Some v else dict_get d' k
  end.

(** The position an integer or a boolean stands for as a list index. *)
Definition as_index (k : value) : option Z :=
  match k with
  | VInt n => Some n
  | VBool b => Some (if b then 1 else 0)
  | _ => None
  end.


(** [s.score=1.0;] where [s] is bound to a dictionary with a score and a
    status. *)
Definition sample_record_state : state :=
  bind (py "s") (VDict [(VStr (py "score"), VFloat 0 0); (VStr (py "status"), VNone)])
    initial.

Definition sample_setattr : Match :=
  {| mo_start := 0; mo_end := 12; lastgroup := setattr;
     groups := {[ 0%nat := py "s.score=1.0;"; 1%nat := py "s"; 2%nat := py "score";
                  3%nat := py "1.0" ]} |}.

(** * The requests of [blackboard/dwr.py]

    [BlackboardSession], [ParserError], [logger] and [slowlog] belong to the
    package [blackboard], whose source is not at hand, and the server is
    outside the program. A session is modelled by its course id, the
    attribute [_script_session_id] that [get_script_session_id] sets, and the
    requests made through it so far; the cookie jar and the server are
    parameters: they answer from the requests made so far, with a value or
    with an exception. What [logger] and [slowlog] write is not part of the
    model. *)

Inductive method := GET | POST.

(** A request: the form data of a [POST] is the dictionary [payload]. *)
Record request := {
  verb : method;
  url : str;
  data : gmap str value;
}.

(** The exceptions of this layer: those of [parse_js], [ParserError] with
    the message and the response it is built from, the [KeyError] of
    [results[i]], the [ValueError] of [range], and whatever the session or
    the server raise, by name. *)
Inductive error :=
| Exn (e : exn)
| ParserError (msg : valueerror) (response : str)
| KeyErrorInt (k : Z)
| RangeStepZero
| OtherError (name : str).

Inductive outcome (A : Type) :=
| Done (a : A)
| Fail (e : error).
Arguments Done {A} a.
Arguments Fail {A} e.

Record BlackboardSession := {
  course_id : str;
  _script_session_id : option str;
  sent : list request;
}.

(** A computation on a session: what it returns or raises, and the session
    afterwards. *)
Definition io (A : Type) : Type :=
  BlackboardSession → outcome A * BlackboardSession.

Global Instance io_ret : MRet io := λ A a session, (Done a, session).
Global Instance io_bind : MBind io := λ A B f m session,
  match m session with
  | (Done a, session') => f a session'
  | (Fail e, session') => (Fail e, session')
  end.

(** A value or an exception that does not depend on the session. *)
Definition now {A} (o : outcome A) : io A := λ session, (o, session).

Definition raise {A} (e : error) : io A := now (Fail e).

(** An exception of the decoder passes through. *)
Definition lift {A} (r : result A) : io A :=
  match r with Ok a => mret a | Raise e => raise (Exn e) end.

(** [re.search]: the groups of the leftmost match. *)
Fixpoint search (r : regex) (s : str) : option (gmap nat str) :=
  match match_here r s with
  | Some (_, caps) => Some caps
  | None => match s with [] => None | _ :: t => search r t end
  end.

(** [range(start, stop, step)] as a list. *)
Definition range (start stop step : Z) : outcome (list Z) :=
  if step =? 0 then Fail RangeStepZero
  else
    let '(lo, hi, d) := if 0 <? step then (start, stop, step)
                        else (stop, start, - step) in
    let n := if hi <=? lo then 0 else (hi - lo - 1) / d + 1 in
    Done (map (λ q : nat, start + Z.of_nat q * step) (List.seq 0 (Z.to_nat n))).

(** [l[i:j]] for [0 <= i]. *)
Definition getslice {A} (l : list A) (i j : Z) : list A :=
  take (Z.to_nat (j - i)) (drop (Z.to_nat i) l).

Definition len {A} (l : list A) : Z := Z.of_nat (length l).

(** ['c%d-%s' % (i, k)] *)
Definition call_key (i : Z) (k : string) : str :=
  py "c" ++ repr_int i ++ py "-" ++ py k.

(** [payload.update(('c%d-%s' % (i, k), v) for k, v in call_data.items())] *)
Definition update_call (i : Z) (call_data : list (string * value))
    (payload : gmap str value) : gmap str value :=
  fold_left (λ p kv, <[call_key i kv.1 := kv.2]> p) call_data payload.

Definition engine_js : str := py "https://bb.au.dk/javascript/dwr/engine.js".

(** The pattern searched for in [engine.js]: [dwr.engine._origScriptSessionId = ]
    and, between double quotes, a group of any characters, then a semicolon.
    A dot of the pattern stands for any character but a line feed. *)
Definition origScriptSessionId : regex :=
  seq [Lit (py "dwr"); Any dot; Lit (py "engine"); Any dot;
       Lit (py "_origScriptSessionId = " ++ [dq]);
       Group 1 (Star (Any dot)); Lit (dq :: py ";")].

Definition default_orig_id : str := py "8A22AEE4C7B3F9CA3A094735175A6B14".

Definition gradebook_page (course_id : str) : str :=
  py "/webapps/gradebook/do/instructor/enterGradeCenter"
  ++ py "?course_id=" ++ course_id ++ py "&cvid=fullGC".

Definition getAttemptsInfo_url : str :=
  py "https://bb.au.dk/webapps/gradebook/dwr/call/plaincall/"
  ++ py "GradebookDWRFacade.getAttemptsInfo.dwr".

Definition getGroups_url : str :=
  py "https://bb.au.dk/webapps/gradebook/dwr/call/plaincall/"
  ++ py "GradebookDWRFacade.getGroups.dwr".

(** [[results[i] for i in range(len(attempts))]] *)
Definition results_in_order (results : gmap Z (list (item value))) (n : nat)
    : outcome (list (list (item value))) :=
  (fix go (ks : list nat) : outcome (list (list (item value))) :=
     match ks with
     | [] => Done []
     | k :: ks' =>
         match results !! Z.of_nat k with
         | Some r => match go ks' with
                     | Done rs => Done (r :: rs)
                     | Fail e => Fail e
                     end
         | None => Fail (KeyErrorInt (Z.of_nat k))
         end
     end) (List.seq 0 n).

Section requests.

(** [session.get_cookie(name, path)] and the server's answer to a request,
    after the requests made so far. *)
Variable get_cookie : list request → str → str → outcome value.
Variable respond : list request → request → outcome str.

Definition cookie (name path : str) : io value := λ session,
  (get_cookie (sent session) name path, session).

(** [session.get(url).text] and [session.post(url, payload).text] *)
Definition send (r : request) : io str := λ session,
  (respond (sent session) r,
   {| course_id := course_id session;
      _script_session_id := _script_session_id session;
      sent := sent session ++ [r] |}).

Definition set_script_session_id (id : str) : io unit := λ session,
  (Done (),
   {| course_id := course_id session;
      _script_session_id := Some id;
      sent := sent session |}).

Definition get_script_session_id : io str := λ session,
  match _script_session_id session with
  | Some id => (Done id, session)
  | None =>
      (dwr_engine ← send {| verb := GET; url := engine_js; data := ∅ |};
       let orig_id :=
         match search origScriptSessionId dwr_engine with
         | Some caps => default [] (caps !! 1%nat)
         | None => default_orig_id
         end in
       _ ← set_script_session_id (orig_id ++ py "42");
       mret (orig_id ++ py "42")) session
  end.

(** The first part of [payload], the same in both requests. *)
Definition payload_head (callCount : Z) (course : str) (session_id : value)
    (script_session_id : str) : gmap str value :=
  {[ py "callCount" := VInt callCount;
     py "page" := VStr (gradebook_page course);
     py "httpSessionId" := session_id;
     py "scriptSessionId" := VStr script_session_id;
     py "batchId" := VInt 42 ]}.

(** [session.course_id.split('_')[1]] *)
Definition course_id_raw (course : str) : result str :=
  match split "_" course !! 1%nat with
  | Some raw => Ok raw
  | None => Raise IndexError
  end.

Definition attempt_call (raw : str) (i : Z) (attempt : str * str)
    : list (string * value) :=
  [ ("scriptName"%string, VStr (py "GradebookDWRFacade"));
    ("methodName"%string, VStr (py "getAttemptsInfo"));
    ("id"%string, VInt i);
    ("param0"%string, VStr (py "number:" ++ raw));
    ("param1"%string, VStr (py "string:" ++ attempt.1));
    ("param2"%string, VStr (py "string:" ++ attempt.2)) ].

(** [for i, (student_id, handin_id) in enumerate(attempts)] *)
Fixpoint add_calls (raw : str) (i : Z) (attempts : list (str * str))
    (payload : gmap str value) : gmap str value :=
  match attempts with
  | [] => payload
  | attempt :: rest =>
      add_calls raw (i + 1) rest (update_call i (attempt_call raw i attempt) payload)
  end.

(** [try: results = parse_js(response.text)
     except ValueError as exn: raise ParserError(exn.args[0], response)] *)
Definition parse_response (text : str) : io (gmap Z (list (item value))) :=
  match parse_js text with
  | Ok results => mret results
  | Raise (ValueError msg) => raise (ParserError msg text)
  | Raise e => raise (Exn e)
  end.

Definition dwr_get_attempts_info_single_request (attempts : list (str * str))
    : io (list (list (item value))) := λ session,
  (session_id ← cookie (py "JSESSIONID") (py "/webapps/gradebook");
   script_session_id ← get_script_session_id;
   let payload :=
     payload_head (len attempts) (course_id session) session_id script_session_id in
   raw ← lift (course_id_raw (course_id session));
   let payload := add_calls raw 0 attempts payload in
   text ← send {| verb := POST; url := getAttemptsInfo_url; data := payload |};
   results ← parse_response text;
   now (results_in_order results (length attempts))) session.

(** The loop of [dwr_get_attempts_info] over the starts of the batches. *)
Fixpoint batch_loop (attempts : list (str * str)) (batch_size : Z)
    (starts : list Z) (results : list (list (item value)))
    : io (list (list (item value))) :=
  match starts with
  | [] => mret results
  | i :: starts' =>
      let j := Z.min (len attempts) (i + batch_size) in
      rs ← dwr_get_attempts_info_single_request (getslice attempts i j);
      batch_loop attempts batch_size starts' (results ++ rs)
  end.

Definition dwr_get_attempts_info (attempts : list (str * str)) (batch_size : Z)
    : io (list (list (item value))) :=
  starts ← now (range 0 (len attempts) batch_size);
  batch_loop attempts batch_size starts [].

Definition groups_call (raw : str) : list (string * value) :=
  [ ("scriptName"%string, VStr (py "GradebookDWRFacade"));
    ("methodName"%string, VStr (py "getGroups"));
    ("id"%string, VInt 0);
    ("param0"%string, VStr (py "string:" ++ raw)) ].

Definition dwr_get_groups : io (list (item value)) := λ session,
  (session_id ← cookie (py "JSESSIONID") (py "/webapps/gradebook");
   script_session_id ← get_script_session_id;
   let payload := payload_head 1 (course_id session) session_id script_session_id in
   raw ← lift (course_id_raw (course_id session));
   let payload := update_call 0 (groups_call raw) payload in
   text ← send {| verb := POST; url := getGroups_url; data := payload |};
   results ← parse_response text;
   match results !! 0 with
   | Some r => mret r
   | None => raise (KeyErrorInt 0)
   end) session.

End requests.

(** ** Vocabulary of the statements about the batches *)

(** Consecutive pieces of [n] elements; the last one may be shorter. *)
Fixpoint chunks {A} (fuel n : nat) (l : list A) : list (list A) :=
  match fuel, l with
  | S fuel', _ :: _ => take n l :: chunks fuel' n (drop n l)
  | _, _ => []
  end.

Definition batches {A} (n : nat) (l : list A) : list (list A) :=
  chunks (length l) n l.

(** One request for each batch in turn, the answers one after the other. *)
Fixpoint requests_in_turn (request : list (str * str) → io (list (list (item value))))
    (bs : list (list (str * str))) : io (list (list (item value))) :=
  match bs with
  | [] => mret []
  | b :: bs' =>
      rs ← request b; rest ← requests_in_turn request bs'; mret (rs ++ rest)
  end.

(** ** A server for the examples *)

Definition sample_engine_js : str :=
  py "// engine.js" ++ nl ++ py "dwr.engine._origScriptSessionId = " ++ [dq]
  ++ py "ABC" ++ [dq] ++ py ";" ++ nl.

(** The response to a request of [n] calls: call [i] returns [[i]]. *)
Definition sample_reply (n : nat) : str :=
  preamble
  ++ flat_map (λ i : nat,
       py "var s" ++ repr_int (Z.of_nat i) ++ py "=[" ++ repr_int (Z.of_nat i)
       ++ py "];" ++ nl
       ++ py "dwr.engine._remoteHandleCallback('42','" ++ repr_int (Z.of_nat i)
       ++ py "',[s" ++ repr_int (Z.of_nat i) ++ py "]);" ++ nl)
     (List.seq 0 n).

Definition sample_respond (before : list request) (r : request) : outcome str :=
  match verb r with
  | GET => Done sample_engine_js
  | POST =>
      match data r !! py "callCount" with
      | Some (VInt n) => Done (sample_reply (Z.to_nat n))
      | _ => Fail (OtherError (py "HTTPError"))
      end
  end.

(** A server that reports two exceptions, and one that answers the first
    call only. *)
Definition failing_respond (before : list request) (r : request) : outcome str :=
  Done two_exceptions.
Definition short_respond (before : list request) (r : request) : outcome str :=
  Done (sample_reply 1).

Definition sample_get_cookie (before : list request) (name path : str)
    : outcome value :=
  Done (VStr (py "0A1B2C")).

Definition sample_session : BlackboardSession :=
  {| course_id := py "_63345_1"; _script_session_id := None; sent := [] |}.

Definition sample_session_with_id : BlackboardSession :=
  {| course_id := py "_63345_1"; _script_session_id := Some (py "ABC42");
     sent := [{| verb := GET; url := engine_js; data := ∅ |}] |}.

Definition sample_attempts : list (str * str) :=
  [ (py "_101_1", py "_17773_1"); (py "_102_1", py "_17773_1");
    (py "_101_1", py "_21510_1") ].

(** ** Vocabulary of the statements about the matcher *)

(** The loop of [rmatch] on [Star r], with its count of turns. *)
Definition star_loop {R} (r : regex) (k : str → gmap nat str → option R)
    : nat → str → gmap nat str → option R :=
  fix loop (n : nat) (s : str) (caps : gmap nat str) : option R :=
    match n with
    | O => k s caps
    | S n' =>
        match rmatch r s caps (λ s' caps',
                if (length s' <? length s)%nat then loop n' s' caps'
                else None) with
        | Some x => Some x
        | None => k s caps
        end
    end.

(** ** Vocabulary of the statements about the scan *)

(** A match [d] characters further on. *)
Definition shift (d : nat) (mo : Match) : Match :=
  {| mo_start := d + mo_start mo; mo_end := d + mo_end mo;
     lastgroup := lastgroup mo; groups := groups mo |}.

(** [parse_js] from a state other than the empty one: the loop over the
    matches of [code] and the checks after it. *)
Definition decode_from (st : state) (code : str)
    : result (gmap Z (list (item value))) :=
  st' ← loop code (finditer code) (set_i 0 st);
  finish code st'.

(** The match object of a statement at the head of the text. *)
Definition at_head (k : key) (m : str) (caps : gmap nat str) : Match :=
  {| mo_start := 0; mo_end := length m; lastgroup := k; groups := caps |}.

(** ** Vocabulary of the statements about the statement pattern *)

(** What follows the closing quote [q] of a string whose body is read as
    the pattern [obj] reads it; [None] when the string is not closed. *)
Fixpoint close_quote (q : ascii) (s : str) : option str :=
  match s with
  | [] => None
  | c :: s' =>
      if bool_decide (c = q) then Some s'
      else if bool_decide (c = "\"%char) then
        match s' with
        | e :: s'' => if dot e then close_quote q s'' else None
        | [] => None
        end
      else close_quote q s'
  end.

(** A text the pattern [obj] takes as a whole: characters other than a
    semicolon or a quote, and quoted strings. *)
Fixpoint obj_text (fuel : nat) (s : str) : bool :=
  match fuel with
  | O => false
  | S fuel' =>
      match s with
      | [] => true
      | c :: s' =>
          if not_in [";"%char; sq; dq] c then obj_text fuel' s'
          else if is_quote c then
            match close_quote c s' with
            | Some r => obj_text fuel' r
            | None => false
            end
          else false
      end
  end.

(** [p] occurs in [s]. *)
Fixpoint occurs (p s : str) : bool :=
  match strip_prefix p s with
  | Some _ => true
  | None => match s with [] => false | _ :: t => occurs p t end
  end.

(** ** Statements as texts

    The statements a response is made of, with the text of each. A comment
    goes to the end of its line; the message of a [throw] and the literal of
    a declaration or of a field assignment are texts the pattern [obj] takes
    as a whole; a call names the variables it returns. *)
Inductive statement :=
| Blank (ws : str)
| Comment (text : str)
| Throw (message : str)
| NewVar (name lit : str)
| SetField (name field lit : str)
| SetIndex (name idx lit : str)
| Callback (batch_id call_id : str) (names : list str).

(** The text a statement pattern matches. *)
Definition matched_text (s : statement) : str :=
  match s with
  | Blank ws => []
  | Comment text => py "//" ++ text
  | Throw message => py "throw " ++ message ++ py ";"
  | NewVar name lit => py "var " ++ name ++ py "=" ++ lit ++ py ";"
  | SetField name field lit => name ++ py "." ++ field ++ py "=" ++ lit ++ py ";"
  | SetIndex name idx lit => name ++ py "[" ++ idx ++ py "]=" ++ lit ++ py ";"
  | Callback batch_id call_id names =>
      py "dwr.engine._remoteHandleCallback('" ++ batch_id ++ py "','" ++ call_id
      ++ py "',[" ++ join (py ",") names ++ py "]);"
  end.

(** The white space after it that belongs to the statement. *)
Definition trailer (s : statement) : str :=
  match s with
  | Blank ws => ws
  | Comment _ => nl
  | _ => []
  end.

Definition statement_text (s : statement) : str := matched_text s ++ trailer s.

(** A character other than a semicolon and the two quotes. *)
Definition plain_char (c : ascii) : bool := not_in [";"%char; sq; dq] c.

(** The statements whose text the pattern of their kind matches as a whole,
    with their parts as groups. Names and fields are identifiers, the ids of
    a call runs of digits. The message of a [throw] and the literal of a
    declaration or of a field assignment hold semicolons and quotes only as
    or inside closed quoted strings. The index and the value of an index
    assignment hold no semicolon and no quote, and the value does not
    contain the two characters that end the index, a closing bracket and an
    equals sign: the pattern gives the index the text up to the last such
    pair. *)
Definition well_formed (s : statement) : bool :=
  match s with
  | Blank ws => forallb isspace ws
  | Comment text => forallb dot text
  | Throw message => obj_text (S (length message)) message
  | NewVar name lit => identifier name && obj_text (S (length lit)) lit
  | SetField name field lit =>
      identifier name && identifier field && obj_text (S (length lit)) lit
  | SetIndex name idx lit =>
      identifier name && forallb plain_char idx && forallb plain_char lit
      && negb (occurs (py "]=") lit)
  | Callback batch_id call_id names =>
      forallb is_digit batch_id && nonempty batch_id
      && forallb is_digit call_id && nonempty call_id
      && forallb identifier names
  end.

(** The key and the groups of the match of a statement. *)
Definition recognized (s : statement) : option (key * gmap nat str) :=
  let whole := matched_text s in
  match s with
  | Blank _ => None
  | Comment text => Some (comment, <[0%nat := whole]> (<[1%nat := text]> ∅))
  | Throw message => Some (throw, <[0%nat := whole]> ∅)
  | NewVar name lit =>
      Some (var, <[0%nat := whole]> (<[2%nat := lit]> (<[1%nat := name]> ∅)))
  | SetField name field lit =>
      Some (setattr, <[0%nat := whole]> (<[3%nat := lit]> (<[2%nat := field]>
                       (<[1%nat := name]> ∅))))
  | SetIndex name idx lit =>
      Some (setitem, <[0%nat := whole]> (<[3%nat := lit]> (<[2%nat := idx]>
                       (<[1%nat := name]> ∅))))
  | Callback batch_id call_id names =>
      Some (call, <[0%nat := whole]> (<[3%nat := join (py ",") names]>
                    (<[2%nat := call_id]> (<[1%nat := batch_id]> ∅))))
  end.

(** What the loop body does with a statement. *)
Definition perform (s : statement) (st : state) : result state :=
  match recognized s with
  | Some (k, caps) => execute (at_head k (matched_text s) caps) st
  | None => Ok st
  end.

Fixpoint perform_all (ss : list statement) (st : state) : result state :=
  match ss with
  | [] => Ok st
  | s :: ss' => st' ← perform s st; perform_all ss' st'
  end.


(** The statements the loop body passes over. *)
Definition silent (s : statement) : bool :=
  match s with
  | Blank _ | Comment _ | Throw _ => true
  | _ => false
  end.

(** A response as a list of statements. *)
Definition sample_statements : list statement :=
  [ Blank nl;
    Throw (py "'allowScriptTagRemoting is false.'"); Blank nl;
    Comment (py "#DWR-INSERT");
    Comment (py "#DWR-REPLY");
    NewVar (py "s0") (py "{}"); SetField (py "s0") (py "title") (py "'a;b'");
    NewVar (py "s3") (py "[]"); SetIndex (py "s3") (py "0") (py "1234");
    SetIndex (py "s3") (py "1") (py "2345"); Blank nl;
    Callback (py "16") (py "1234") [py "s0"; py "s3"]; Blank nl ].

(** ** Vocabulary of the statements about the script session id *)

(** The text of [engine.js] the pattern is written for. *)
Definition orig_id_name : str := py "_origScriptSessionId = " ++ [dq].

Definition orig_id_marker : str := py "dwr.engine." ++ orig_id_name.

(** The characters a match of the pattern begins with, one class for each:
    the characters of the pattern itself, its two dots standing for any
    character but a line feed. *)
Definition is_char (a : ascii) : ascii → bool := λ c, bool_decide (a = c).

Definition marker_classes : list (ascii → bool) :=
  map is_char (py "dwr") ++ [dot] ++ map is_char (py "engine") ++ [dot]
  ++ map is_char orig_id_name.

Fixpoint fixed_match (ps : list (ascii → bool)) (s : str) : bool :=
  match ps, s with
  | [], _ => true
  | p :: ps', c :: s' => p c && fixed_match ps' s'
  | _ :: _, [] => false
  end.

(** The request for [engine.js]. *)
Definition engine_js_request : request :=
  {| verb := GET; url := engine_js; data := ∅ |}.

(** An [engine.js] whose line holds two assignments, and one without the
    variable. *)
Definition two_assignments_id : str := py "A" ++ [dq] ++ py "; x = " ++ [dq] ++ py "B".

Definition two_assignments_respond (before : list request) (r : request)
    : outcome str :=
  Done (py "// engine.js" ++ nl ++ orig_id_marker ++ two_assignments_id
        ++ dq :: ";"%char :: py " // id" ++ nl).

Definition plain_respond (before : list request) (r : request) : outcome str :=
  Done (py "// engine.js" ++ nl ++ py "dwr.engine._scriptSessionId = null;" ++ nl).

(** ** [Grading.get_attempt_directory_name]

    The class [blackboard.grading.Grading] and the classes of attempts,
    students and assignments are not part of the sources at hand: an
    attempt is the record of the three attributes the method reads, and the
    inherited methods and [os.path.expanduser] are variables. *)

(** [s.startswith(p)] and [s.endswith(p)]. *)
Definition startswith (s p : str) : bool :=
  match strip_prefix p s with Some _ => true | None => false end.

Definition endswith (s p : str) : bool := startswith (rev s) (rev p).

Section grading.
Variables Student Assignment : Type.
Variable student_name : Student → str.
Variable get_student_group_display : Student → str.
Variable get_assignment_name_display : Assignment → str.
Variable expanduser : str → str.

Record Attempt := {
  student : Student;
  assignment : Assignment;
  attempt_id : str;
}.

Definition get_attempt_directory_name (attempt : Attempt) : str :=
  let name := student_name (student attempt) in
  let class_name := get_student_group_display (student attempt) in
  let attempt_id := attempt_id attempt in
  let attempt_id :=
    if startswith attempt_id (py "_") then drop 1 attempt_id else attempt_id in
  let attempt_id :=
    if endswith attempt_id (py "_1")
    then take (length attempt_id - 2) attempt_id else attempt_id in
  expanduser (py "~/dProgSprog2017") ++ py "/" ++ class_name ++ py "/"
  ++ get_assignment_name_display (assignment attempt) ++ py "/"
  ++ name ++ py "_" ++ attempt_id.

End grading.

(** An attempt id of Blackboard: an underscore, digits, and [_1]. *)
Definition blackboard_id (n : str) : str := py "_" ++ n ++ py "_1".

(** Two attempts of one student at one assignment. *)
Definition sample_expanduser (path : str) : str := py "/home/grader" ++ drop 1 path.

Definition sample_directory : Attempt str str → str :=
  get_attempt_directory_name str str (λ s, s) (λ _, py "DA4") (λ a, a)
    sample_expanduser.

Definition first_attempt : Attempt str str :=
  {| student := py "Ann"; assignment := py "W1"; attempt_id := py "_41021_1" |}.

Definition second_attempt : Attempt str str :=
  {| student := py "Ann"; assignment := py "W1"; attempt_id := py "_41507_1" |}.

(** ** The gradebook

    [Gradebook.students] is a dictionary from user ids to students, each
    with a dictionary from assignment ids to assignments: the dictionaries
    are lists of keys and values in the order of insertion. The fields of a
    student and of an assignment are those [fetch_overview] gives them; the
    fields no method below reads are one field [details]. The types of
    scores and groups are variables, as is the type of the [attempts] of an
    assignment, which holds a list [dwr_get_attempts_info] returned or what
    [json.load] read of it: [fetched] is the inclusion of the former. *)

(** [d[k]], [None] for the [KeyError]. *)
Fixpoint get_item {A} (d : list (str * A)) (k : str) : option A :=
  match d with
  | [] => None
  | (k', v) :: d' => if bool_decide (k' = k) then Some v else get_item d' k
  end.

(** [d[k] = v]: the value of a key of [d] is replaced where it stands, a new
    key goes last. *)
Fixpoint set_item {A} (d : list (str * A)) (k : str) (v : A) : list (str * A) :=
  match d with
  | [] => [(k, v)]
  | (k', v') :: d' =>
      if bool_decide (k' = k) then (k, v) :: d' else (k', v') :: set_item d' k v
  end.

(** The object [d[k]] is changed by [f]. *)
Fixpoint update {A} (f : A → A) (d : list (str * A)) (k : str) : list (str * A) :=
  match d with
  | [] => []
  | (k', v) :: d' =>
      if bool_decide (k' = k) then (k', f v) :: d' else (k', v) :: update f d' k
  end.

Section gradebook.
Variables Score Groups Attempts Details : Type.
(** [!=] on scores. *)
Variable score_ne : Score → Score → bool.
Variable fetched : list (item value) → Attempts.

Record assignment_data := {
  score : Score;
  needs_grading : bool;
  attempts : option Attempts;
}.

Record student_data := {
  username : str;
  details : Details;
  assignments : list (str * assignment_data);
  student_groups : option Groups;
}.

Definition set_attempts (v : option Attempts) (a : assignment_data) : assignment_data :=
  {| score := score a; needs_grading := needs_grading a; attempts := v |}.

Definition set_assignments (v : list (str * assignment_data)) (s : student_data)
    : student_data :=
  {| username := username s; details := details s; assignments := v;
     student_groups := student_groups s |}.

Definition set_groups (v : option Groups) (s : student_data) : student_data :=
  {| username := username s; details := details s; assignments := assignments s;
     student_groups := v |}.

(** *** [copy_student_data] *)

(** The body of the loop over the assignments of a student. *)
Definition copy_assignment (prev_user : student_data) (assignment_id : str)
    (a1 : assignment_data) : assignment_data :=
  match get_item (assignments prev_user) assignment_id with
  | None => a1
  | Some a2 =>
      if needs_grading a1 && negb (needs_grading a2) then a1
      else if score_ne (score a1) (score a2) then a1
      else match attempts a1 with
           | None => set_attempts (attempts a2) a1
           | Some _ => a1
           end
  end.

(** The body of the loop over the students. *)
Definition copy_student (prev : list (str * student_data)) (user_id : str)
    (user : student_data) : student_data :=
  match get_item prev user_id with
  | None => user
  | Some prev_user =>
      let user :=
        match student_groups user with
        | None => set_groups (student_groups prev_user) user
        | Some _ => user
        end in
      set_assignments
        (map (λ '(assignment_id, a1),
                (assignment_id, copy_assignment prev_user assignment_id a1))
           (assignments user))
        user
  end.

Definition copy_student_data (prev students : list (str * student_data))
    : list (str * student_data) :=
  map (λ '(user_id, user), (user_id, copy_student prev user_id user)) students.

(** *** [fetch_groups]

    The module [groups] is not among the sources at hand: the list
    [groups.get_groups] returns is an argument, each of its entries a
    username and the groups of the user. What is returned is the students
    and the usernames [logger.warn] is called with. *)

(** [{u['username']: user_id for user_id, u in self.students.items()}] *)
Definition usernames (students : list (str * student_data)) : list (str * str) :=
  fold_left (λ d '(user_id, u), set_item d (username u) user_id) students [].

Fixpoint fetch_groups_loop (names : list (str * str))
    (user_groups : list (str * option Groups))
    (students : list (str * student_data)) (warned : list str)
    : outcome (list (str * student_data) * list str) :=
  match user_groups with
  | [] => Done (students, warned)
  | (name, gs) :: user_groups' =>
      match get_item names name with
      | None => fetch_groups_loop names user_groups' students (warned ++ [name])
      | Some user_id =>
          match get_item students user_id with
          | None => Fail (Exn (KeyError user_id))
          | Some _ =>
              fetch_groups_loop names user_groups'
                (update (set_groups gs) students user_id) warned
          end
      end
  end.

Definition fetch_groups (user_groups : list (str * option Groups))
    (students : list (str * student_data))
    : outcome (list (str * student_data) * list str) :=
  fetch_groups_loop (usernames students) user_groups students [].

(** *** [refresh_attempts] *)

Definition attempt_keys (students : list (str * student_data)) : list (str * str) :=
  flat_map (λ '(user_id, user),
      flat_map (λ '(assignment_id, assignment),
          match attempts assignment with
          | None => [(user_id, assignment_id)]
          | Some _ => []
          end)
        (assignments user))
    students.

(** [self.students[user_id]['assignments'][aid]['attempts'] = attempts] *)
Definition store_attempts (students : list (str * student_data))
    (user_id aid : str) (v : list (item value))
    : outcome (list (str * student_data)) :=
  match get_item students user_id with
  | None => Fail (Exn (KeyError user_id))
  | Some user =>
      match get_item (assignments user) aid with
      | None => Fail (Exn (KeyError aid))
      | Some _ =>
          Done (update
                  (λ user, set_assignments
                     (update (set_attempts (Some (fetched v))) (assignments user) aid)
                     user)
                  students user_id)
      end
  end.

Fixpoint store_all (pairs : list ((str * str) * list (item value)))
    (students : list (str * student_data))
    : outcome (list (str * student_data)) :=
  match pairs with
  | [] => Done students
  | ((user_id, aid), v) :: pairs' =>
      match store_attempts students user_id aid v with
      | Done students' => store_all pairs' students'
      | Fail e => Fail e
      end
  end.

Variable get_cookie : list request → str → str → outcome value.
Variable respond : list request → request → outcome str.

Definition refresh_attempts (students : list (str * student_data))
    : io (list (str * student_data)) :=
  let attempt_keys := attempt_keys students in
  attempt_data ← dwr_get_attempts_info get_cookie respond attempt_keys 20;
  now (store_all (zip attempt_keys attempt_data) students).

End gradebook.

Arguments score {Score Attempts} a.
Arguments needs_grading {Score Attempts} a.
Arguments attempts {Score Attempts} a.
Arguments username {Score Groups Attempts Details} s.
Arguments details {Score Groups Attempts Details} s.
Arguments assignments {Score Groups Attempts Details} s.
Arguments student_groups {Score Groups Attempts Details} s.
Arguments set_attempts {Score Attempts} v a.
Arguments set_assignments {Score Groups Attempts Details} v s.
Arguments set_groups {Score Groups Attempts Details} v s.
Arguments copy_assignment {Score Groups Attempts Details} score_ne prev_user assignment_id a1.
Arguments copy_student {Score Groups Attempts Details} score_ne prev user_id user.
Arguments copy_student_data {Score Groups Attempts Details} score_ne prev students.
Arguments usernames {Score Groups Attempts Details} students.
Arguments fetch_groups_loop {Score Groups Attempts Details} names user_groups students warned.
Arguments fetch_groups {Score Groups Attempts Details} user_groups students.
Arguments attempt_keys {Score Groups Attempts Details} students.
Arguments store_attempts {Score Groups Attempts Details} fetched students user_id aid v.
Arguments store_all {Score Groups Attempts Details} fetched pairs students.
Arguments refresh_attempts {Score Groups Attempts Details} fetched get_cookie respond students.

(** ** Vocabulary of the statements about the gradebook *)

(** [students'] has the students and the assignments of [students], in their
    order, each student with the same name, details and groups, and each
    assignment related to what it was by [P]. *)
Definition related {Score Groups Attempts Details : Type}
    (P : str → str → assignment_data Score Attempts
         → assignment_data Score Attempts → Prop)
    (students students' : list (str * student_data Score Groups Attempts Details))
    : Prop :=
  map fst students' = map fst students
  ∧ ∀ user_id user, get_item students user_id = Some user →
      ∃ user', get_item students' user_id = Some user'
        ∧ username user' = username user ∧ details user' = details user
        ∧ student_groups user' = student_groups user
        ∧ map fst (assignments user') = map fst (assignments user)
        ∧ ∀ aid a, get_item (assignments user) aid = Some a →
            ∃ a', get_item (assignments user') aid = Some a' ∧ P user_id aid a a'.

(** The keys of a dictionary are distinct, here for the students and for the
    assignments of each. *)
Definition distinct_ids {Score Groups Attempts Details : Type}
    (students : list (str * student_data Score Groups Attempts Details)) : Prop :=
  NoDup (map fst students)
  ∧ ∀ user_id user, (user_id, user) ∈ students → NoDup (map fst (assignments user)).

(** A gradebook of two students, and a list of groups. *)
Definition sample_students
    : list (str * student_data Z (list str) (list (item value)) unit) :=
  [ (py "_101_1",
     {| username := py "au101"; details := ();
        assignments :=
          [ (py "_17773_1",
             {| score := 1; needs_grading := false; attempts := None |});
            (py "_21510_1",
             {| score := 0; needs_grading := true; attempts := None |}) ];
        student_groups := None |});
    (py "_102_1",
     {| username := py "au102"; details := ();
        assignments :=
          [ (py "_17773_1",
             {| score := 1; needs_grading := false; attempts := Some [] |}) ];
        student_groups := None |}) ].

Definition sample_user_groups : list (str * option (list str)) :=
  [ (py "au101", Some [py "Hand In Group 3"]); (py "au999", None);
    (py "au101", Some [py "Class DA4"]) ].

(** * Properties *)

(** ** The exception monad *)

Lemma bind_Ok {A B} (m : result A) (f : A → result B) (b : B) :
  m ≫= f = Ok b → ∃ a, m = Ok a ∧ f a = Ok b.
Proof. destruct m as [a|e]; simpl; [eauto | discriminate]. Qed.

Lemma fmap_Ok {A B} (f : A → B) (m : result A) (b : B) :
  f <$> m = Ok b → ∃ a, m = Ok a ∧ b = f a.
Proof. destruct m as [a|e]; simpl; [intros [= <-]; eauto | discriminate]. Qed.

Ltac inv_result :=
  repeat match goal with
  | H : Ok _ = Ok _ |- _ => injection H as H; try subst
  | H : Raise _ = Ok _ |- _ => discriminate H
  | H : Ok _ = Raise _ |- _ => discriminate H
  | H : _ ≫= _ = Ok _ |- _ =>
      let a := fresh "a" in let Ha := fresh "Ha" in
      apply bind_Ok in H as (a & Ha & H)
  | H : _ <$> _ = Ok _ |- _ =>
      let a := fresh "a" in let Ha := fresh "Ha" in
      apply fmap_Ok in H as (a & Ha & H)
  | H : (if ?b then _ else _) = Ok _ |- _ => destruct b eqn:?
  end.

(** One failing element makes the comprehension fail. *)
Lemma comprehension_Raise {A B} (f : A → result B) (l : list A) (x : A) (e : exn) :
  x ∈ l → f x = Raise e → ∃ e', comprehension f l = Raise e'.
Proof.
  intros Hin Hx. induction Hin as [x l|x y l Hin IH]; simpl.
  - rewrite Hx. eauto.
  - destruct (f y); simpl; [|eauto].
    destruct (IH Hx) as [e' ->]. eauto.
Qed.

Lemma comprehension_Ok_length {A B} (f : A → result B) (l : list A) (ys : list B) :
  comprehension f l = Ok ys → length ys = length l.
Proof.
  revert ys. induction l as [|x l IH]; simpl; intros ys H.
  - by inv_result.
  - inv_result. simpl. f_equal. eauto.
Qed.

(** ** The loop of [parse_js] *)

Lemma execute_i mo st st' : execute mo st = Ok st' → i st' = i st.
Proof.
  unfold execute. intros H.
  destruct (lastgroup mo); inv_result; try done;
    repeat (match goal with
            | H : match ?x with _ => _ end = Ok _ |- _ => destruct x eqn:?
            end; inv_result); done.
Qed.

Lemma step_Ok code mo st st' :
  step code mo st = Ok st' ↔
  stray (slice code (i st) (mo_start mo)) = false
  ∧ execute mo (set_i (mo_end mo) st) = Ok st'.
Proof.
  unfold step, stray. destruct (nonempty _).
  - split; [done | by intros [? _]].
  - split; [by intros H | by intros [_ H]].
Qed.

Lemma step_i code mo st st' : step code mo st = Ok st' → i st' = mo_end mo.
Proof. intros (_ & H)%step_Ok. by apply execute_i in H. Qed.

Lemma loop_app code mos1 mos2 st :
  loop code (mos1 ++ mos2) st = (st' ← loop code mos1 st; loop code mos2 st').
Proof.
  revert st. induction mos1 as [|mo mos1 IH]; intros st; simpl; [done|].
  destruct (step code mo st); simpl; [apply IH | done].
Qed.

(** A statement that cannot run stops the whole decode, whatever came
    before it. *)
Lemma loop_Raise code mos mo :
  mo ∈ mos → (∀ st, ∃ e, step code mo st = Raise e) →
  ∀ st, ∃ e, loop code mos st = Raise e.
Proof.
  intros Hin Hmo. induction Hin as [mo mos|mo mo' mos Hin IH]; intros st; simpl.
  - destruct (Hmo st) as [e ->]. eauto.
  - destruct (step code mo' st); simpl; eauto.
Qed.

Lemma parse_js_Ok code m :
  parse_js code = Ok m ↔
  ∃ st, loop code (finditer code) initial = Ok st
        ∧ stray (drop (i st) code) = false
        ∧ exceptions st = []
        ∧ m = mapping st.
Proof.
  unfold parse_js, finish, stray. split.
  - intros H. inv_result. exists a. repeat split; try done.
    by destruct (exceptions a).
  - intros (st & Hl & Hs & He & ->). rewrite Hl. simpl.
    by rewrite Hs, He.
Qed.

(** ** The environment *)

Lemma environment_lookup st name :
  environment st !! name = deref st <$> locals st !! name.
Proof. unfold environment. apply lookup_fmap. Qed.

Lemma environment_mutate st a v name :
  locals st !! name = Some a → (a < length (heap st))%nat →
  environment (mutate a v st) !! name = Some v.
Proof.
  intros Hn Ha. rewrite environment_lookup. simpl. rewrite Hn. simpl.
  unfold deref. simpl. f_equal. by apply list_lookup_total_insert_eq.
Qed.

Lemma deref_lookup st a v : heap st !! a = Some v → deref st a = v.
Proof. intros H. unfold deref. by apply list_lookup_total_correct. Qed.

(** C8: a positional call, a keyed call and an exception statement leave the
    environment as it was: the names, the objects they refer to and so the
    values read through them are unchanged; the statement only appends one
    entry to [results] or to [exceptions]. *)
Theorem C8_terminal_statements_keep_environment mo st st' :
  lastgroup mo = call ∨ lastgroup mo = calldict ∨ lastgroup mo = exception →
  execute mo st = Ok st' →
  locals st' = locals st ∧ heap st' = heap st
  ∧ environment st' = environment st
  ∧ ((∃ r, results st' = results st ++ [r] ∧ exceptions st' = exceptions st)
     ∨ (∃ e, exceptions st' = exceptions st ++ [e] ∧ results st' = results st)).
Proof.
  unfold execute. intros [Hk|[Hk|Hk]] H; rewrite Hk in H; inv_result;
    (split; [done|]); (split; [done|]); (split; [done|]); simpl; eauto.
Qed.

Lemma C8_terminal_statements_keep_environment_witness :
  ∃ st', execute sample_call sample_state = Ok st'
         ∧ environment st' = environment sample_state.
Proof.
  eexists. split; [vm_compute; reflexivity|].
  eapply (C8_terminal_statements_keep_environment sample_call sample_state);
    [left; reflexivity | vm_compute; reflexivity].
Defined.

(** ** Index assignment *)

Lemma padded_length (l : list value) (idx : Z) (v : value) :
  Z.of_nat (length l) ≤ idx →
  Z.of_nat (length (l ++ replicate (Z.to_nat (idx - Z.of_nat (length l))) VNone ++ [v]))
  = idx + 1.
Proof. intros H. rewrite !length_app, length_replicate. simpl. lia. Qed.

Lemma padded_lookup (l : list value) (idx : Z) (v : value) :
  Z.of_nat (length l) ≤ idx →
  (l ++ replicate (Z.to_nat (idx - Z.of_nat (length l))) VNone ++ [v])
    !! Z.to_nat idx = Some v.
Proof.
  intros H. rewrite lookup_app_r by lia. rewrite lookup_app_r.
  - rewrite length_replicate.
    replace (_ - _ - _)%nat with O by lia. done.
  - rewrite length_replicate. lia.
Qed.

(** C4 as amended: an index assignment [name[idx] = v] on a list of length
    [len]. When [len <= idx] and [idx - len] is above [PY_SSIZE_T_MAX] the
    statement raises [OverflowError]; otherwise it raises [MemoryError] or
    the list is padded with [None] up to [idx] and [v] is appended, so it has
    length [idx+1] and [v] at [idx]. When [idx < len] the statement is the
    direct item assignment, which overwrites position [idx]; on a dictionary
    it is the direct item assignment under the key. And [s[5]=1] on a fresh
    empty array gives five [None] and [1]. *)
Theorem C4_index_assignment :
  (∀ mo st a k v,
     lastgroup mo = setitem →
     js_object_parse (group mo 2) = Ok k →
     js_object_parse (group mo 3) = Ok v →
     locals st !! group mo 1 = Some a →
     (∀ l idx, k = VInt idx → heap st !! a = Some (VList l) →
        let len := Z.of_nat (length l) in
        (len ≤ idx →
           let l' := l ++ replicate (Z.to_nat (idx - len)) VNone ++ [v] in
           (PY_SSIZE_T_MAX < idx - len → execute mo st = Raise OverflowError)
           ∧ (idx - len ≤ PY_SSIZE_T_MAX →
                execute mo st = Raise MemoryError
                ∨ execute mo st = Ok (mutate a (VList l') st))
           ∧ environment (mutate a (VList l') st) !! group mo 1 = Some (VList l')
           ∧ Z.of_nat (length l') = idx + 1
           ∧ l' !! Z.to_nat idx = Some v)
        ∧ (idx < len →
             execute mo st = (o ← setitem_ (VList l) k v; Ok (mutate a o st)))
        ∧ (0 ≤ idx < len →
             execute mo st = Ok (mutate a (VList (<[Z.to_nat idx := v]> l)) st)))
     ∧ (∀ d, heap st !! a = Some (VDict d) →
          execute mo st = (o ← setitem_ (VDict d) k v; Ok (mutate a o st))
          ∧ (hashable k = true →
               execute mo st = Ok (mutate a (VDict (dict_store d k v)) st))))
  ∧ environment <$> loop (py "var s=[];s[5]=1;") (finditer (py "var s=[];s[5]=1;")) initial
    = Ok {[ py "s" := VList [VNone; VNone; VNone; VNone; VNone; VInt 1] ]}.
Proof.
  split; [|vm_compute; reflexivity].
  intros mo st a k v Hk Hidx Hv Hname. split.
  - intros l idx -> Hl. pose proof (deref_lookup _ _ _ Hl) as Hd.
    assert (Hlt : (a < length (heap st))%nat) by (by eapply lookup_lt_Some).
    unfold execute. rewrite Hk, Hidx, Hv. simpl.
    unfold lookup_name. rewrite Hname. simpl. rewrite Hd. simpl.
    rewrite Z.mul_1_r. repeat split.
    + intros Hbig. destruct (Z.leb_spec (Z.of_nat (length l)) idx); [|lia]. simpl.
      unfold padding.
      destruct (Z.ltb_spec PY_SSIZE_T_MAX (idx - Z.of_nat (length l))); [done|lia].
    + intros Hfits. destruct (Z.leb_spec (Z.of_nat (length l)) idx); [|lia]. simpl.
      unfold padding.
      destruct (Z.ltb_spec PY_SSIZE_T_MAX (idx - Z.of_nat (length l))); [lia|].
      destruct (PY_SSIZE_T_MAX / 8 <? idx - Z.of_nat (length l)); [by left|].
      right. simpl. by rewrite <- app_assoc.
    + by apply environment_mutate.
    + by apply padded_length.
    + by apply padded_lookup.
    + intros Hlt'. destruct (Z.leb_spec (Z.of_nat (length l)) idx); [lia|]. done.
    + intros [H0 Hlt']. destruct (Z.leb_spec (Z.of_nat (length l)) idx); [lia|].
      simpl. destruct (Z.ltb_spec idx 0); [lia|].
      destruct (Z.leb_spec 0 idx); [|lia].
      destruct (Z.ltb_spec idx (Z.of_nat (length l))); [|lia]. done.
  - intros d Hd. pose proof (deref_lookup _ _ _ Hd) as Hd'.
    unfold execute. rewrite Hk, Hidx, Hv. simpl.
    unfold lookup_name. rewrite Hname. simpl. rewrite Hd'. split; [done|].
    intros Hh. simpl. unfold dict_setitem. by rewrite Hh.
Qed.

Lemma C4_index_assignment_witness :
  execute sample_setitem sample_state
  = Ok (mutate 0 (VList [VNone; VNone; VNone; VNone; VNone; VInt 1]) sample_state).
Proof.
  destruct (proj1 (proj2 (proj1 (proj1 (proj1 C4_index_assignment
              sample_setitem sample_state 0%nat (VInt 5) (VInt 1)
              eq_refl eq_refl eq_refl eq_refl) [] 5 eq_refl eq_refl)
              ltac:(vm_compute; discriminate))) ltac:(vm_compute; discriminate))
    as [H|H].
  - vm_compute in H. discriminate H.
  - exact H.
Defined.

(** C4 as stated fails: on a fresh empty array the assignment at index
    [2^63] has a padding of [2^63] entries to make, a count that does not
    fit an index, and [[None] * count] raises [OverflowError]: nothing is
    padded and nothing appended. *)
Lemma C4_counterexample :
  parse_js (py "var s=[];s[9223372036854775808]=1;") = Raise OverflowError
  ∧ ∃ mo st,
      lastgroup mo = setitem
      ∧ js_object_parse (group mo 2) = Ok (VInt (2 ^ 63))
      ∧ js_object_parse (group mo 3) = Ok (VInt 1)
      ∧ environment st !! group mo 1 = Some (VList [])
      ∧ execute mo st = Raise OverflowError.
Proof.
  split; [vm_compute; reflexivity|].
  exists {| mo_start := 9; mo_end := 34; lastgroup := setitem;
            groups := <[3%nat := py "1"]> (<[2%nat := py "9223372036854775808"]>
                        (<[1%nat := py "s"]> ∅)) |},
         (bind (py "s") (VList []) initial).
  repeat split; vm_compute; reflexivity.
Qed.

(** ** The scan position *)

Lemma execute_set_i mo n st :
  execute mo (set_i n st) = set_i n <$> execute mo st.
Proof.
  unfold execute.
  destruct (lastgroup mo); simpl; try done;
    repeat (match goal with
            | |- context [js_object_parse ?s] => destruct (js_object_parse s); simpl; try done
            | |- context [int ?s] => destruct (int s); simpl; try done
            | |- context [lookup_name ?a (set_i ?n ?st)] =>
                change (lookup_name a (set_i n st)) with (lookup_name a st)
            | |- context [deref (set_i ?n ?st) ?a] =>
                change (deref (set_i n st) a) with (deref st a)
            | |- context [lookup_name ?a ?st ≫= _] => destruct (lookup_name a st); simpl; try done
            | |- context [setitem_ ?a ?b ?c] => destruct (setitem_ a b c); simpl; try done
            | |- context [match deref ?st ?a with _ => _ end] => destruct (deref st a); simpl; try done
            | |- context [len_le ?a ?b] => destruct (len_le a b) as [[]|]; simpl; try done
            | |- context [padding ?a ?b] => destruct (padding a b); simpl; try done
            | |- context [if nonempty ?a then _ else _] => destruct (nonempty a); simpl; try done
            end);
    match goal with
    | |- ?m ≫= _ = set_i _ <$> ?m' ≫= _ => change m with m'; by destruct m'
    end.
Qed.




Lemma split_absent (c : ascii) (s : str) : c ∉ s → split c s = [s].
Proof.
  induction s as [|x s IH]; [done|]. intros Hn. simpl.
  rewrite bool_decide_eq_false_2 by (intros ->; apply Hn; left).
  rewrite IH; [done|]. intros ?. apply Hn. by right.
Qed.

Lemma split_first (c : ascii) (a b : str) :
  c ∉ a → split c (a ++ c :: b) = a :: split c b.
Proof.
  induction a as [|x a IH]; intros Hn; simpl.
  - by rewrite bool_decide_eq_true_2.
  - rewrite bool_decide_eq_false_2 by (intros ->; apply Hn; left).
    rewrite IH; [done|]. intros ?. apply Hn. by right.
Qed.


(** ** A keyed call of an array built by index assignment *)



(** ** The accumulators *)

Lemma execute_exceptions mo st st' :
  execute mo st = Ok st' →
  if is_exception mo
  then ∃ r, exception_record_of mo = Ok r ∧ exceptions st' = exceptions st ++ [r]
  else exceptions st' = exceptions st.
Proof.
  unfold execute, is_exception, exception_record_of. intros H.
  destruct (lastgroup mo); simpl; inv_result; try done.
  - repeat (match goal with
            | H : match ?x with _ => _ end = Ok _ |- _ => destruct x eqn:?
            end; inv_result); done.
  - rewrite Ha, Ha0, Ha1, Ha2. simpl. eauto.
Qed.

Lemma loop_exceptions code mos st st' :
  loop code mos st = Ok st' →
  ∃ rs, comprehension exception_record_of (filter is_exception mos) = Ok rs
        ∧ exceptions st' = exceptions st ++ rs.
Proof.
  revert st. induction mos as [|mo mos IH]; intros st H; simpl in H.
  - inv_result. exists []. rewrite filter_nil. split; [done|]. by rewrite app_nil_r.
  - inv_result. apply step_Ok in Ha as [_ Ha].
    apply execute_exceptions in Ha. simpl in Ha.
    destruct (IH _ H) as (rs & Hrs & Hex).
    rewrite filter_cons. destruct (decide (is_exception mo)) as [Hmo|Hmo].
    + apply Is_true_true in Hmo. rewrite Hmo in Ha.
      destruct Ha as (r & Hr & Ha).
      exists (r :: rs). simpl. rewrite Hr, Hrs. simpl. split; [done|].
      by rewrite Hex, Ha, <- app_assoc.
    + apply Is_true_false in Hmo. rewrite Hmo in Ha.
      exists rs. split; [done|]. by rewrite Hex, Ha.
Qed.

(** C2: when the scan completes and the response has an exception
    statement, [parse_js] raises the one error that carries the record of
    every exception statement, in the order of the statements. *)
Theorem C2_all_exceptions_reported code st :
  loop code (finditer code) initial = Ok st →
  stray (drop (i st) code) = false →
  (∃ mo, mo ∈ finditer code ∧ lastgroup mo = exception) →
  ∃ rs, comprehension exception_record_of (filter is_exception (finditer code)) = Ok rs
        ∧ length rs = length (filter is_exception (finditer code))
        ∧ rs ≠ []
        ∧ parse_js code = Raise (ValueError (DWRReturnedExceptions rs)).
Proof.
  intros Hl Hs (mo & Hin & Hmo).
  destruct (loop_exceptions _ _ _ _ Hl) as (rs & Hrs & Hex). simpl in Hex.
  exists rs. split; [done|].
  pose proof (comprehension_Ok_length _ _ _ Hrs) as Hlen. split; [done|].
  assert (Hne : rs ≠ []).
  { intros ->. simpl in Hlen. symmetry in Hlen. apply length_zero_iff_nil in Hlen.
    assert (Hin' : mo ∈ filter is_exception (finditer code)).
    { apply list_elem_of_filter. split; [|done].
      unfold is_exception. by rewrite Hmo. }
    rewrite Hlen in Hin'. by apply elem_of_nil in Hin'. }
  split; [done|].
  unfold parse_js. rewrite Hl. simpl. unfold finish.
  unfold stray in Hs. rewrite Hs, Hex. by destruct rs.
Qed.

Lemma C2_all_exceptions_reported_witness :
  parse_js two_exceptions
  = Raise (ValueError (DWRReturnedExceptions
      [ (42, 5, VStr (py "java.lang.Throwable"), VStr (py "Error"));
        (42, 6, VStr (py "E"), VStr (py "no")) ])).
Proof.
  edestruct (C2_all_exceptions_reported two_exceptions) as (rs & Hrs & _ & _ & H).
  - vm_compute. reflexivity.
  - vm_compute. reflexivity.
  - eexists. split; [|shelve]. vm_compute. left.
  - Unshelve. 2: reflexivity.
    vm_compute in Hrs. injection Hrs as <-. exact H.
Defined.

Lemma execute_results mo st st' :
  execute mo st = Ok st' →
  if is_terminal_call mo
  then ∃ r, st' = append_result r st ∧ call_id_of mo = Ok r.1.2
  else results st' = results st.
Proof.
  unfold execute, is_terminal_call, call_id_of. intros H.
  destruct (lastgroup mo); simpl; inv_result; try done;
    try (eexists; (split; [reflexivity|]); simpl; done).
  repeat (match goal with
          | H : match ?x with _ => _ end = Ok _ |- _ => destruct x eqn:?
          end; inv_result); done.
Qed.

Lemma loop_results code mos st st' :
  loop code mos st = Ok st' →
  ∃ rs, results st' = results st ++ rs
        ∧ Forall2 (λ mo r, call_id_of mo = Ok r.1.2 ∧ appends mo r)
            (filter is_terminal_call mos) rs.
Proof.
  revert st. induction mos as [|mo mos IH]; intros st H; simpl in H.
  - inv_result. exists []. rewrite filter_nil. split; [by rewrite app_nil_r | constructor].
  - inv_result. apply step_Ok in Ha as [_ Ha].
    pose proof (execute_results _ _ _ Ha) as Hr.
    destruct (IH _ H) as (rs & Hrs & Hall).
    rewrite filter_cons. destruct (decide (is_terminal_call mo)) as [Hmo|Hmo].
    + apply Is_true_true in Hmo. rewrite Hmo in Hr.
      destruct Hr as (r & -> & Hid).
      exists (r :: rs). split.
      * rewrite Hrs. simpl. by rewrite <- app_assoc.
      * constructor; [|done]. split; [done|]. eexists. exact Ha.
    + apply Is_true_false in Hmo. rewrite Hmo in Hr.
      exists rs. split; [|done]. rewrite Hrs. by rewrite Hr.
Qed.

Lemma last_result_snoc c rs r :
  last_result c (rs ++ [r])
  = if decide (r.1.2 = c) then Some r.2 else last_result c rs.
Proof.
  unfold last_result. rewrite filter_app, filter_cons, filter_nil.
  destruct (decide (r.1.2 = c)); [by rewrite last_snoc | by rewrite app_nil_r].
Qed.

Lemma fold_mapping_lookup (f : nat → value) rs c :
  fold_left (λ m '(batch_id, call_id, data), <[call_id := item_map f <$> data]> m) rs
    (∅ : gmap Z (list (item value))) !! c
  = (λ data : list (item nat), item_map f <$> data) <$> last_result c rs.
Proof.
  induction rs as [|r rs IH] using rev_ind; [done|].
  rewrite fold_left_app, last_result_snoc. simpl.
  destruct r as [[b c'] data]. simpl. rewrite lookup_insert.
  destruct (decide (c' = c)); [done | apply IH].
Qed.

Lemma fold_mapping_dom (f : nat → value) rs :
  dom (fold_left (λ m '(batch_id, call_id, data), <[call_id := item_map f <$> data]> m) rs
         (∅ : gmap Z (list (item value))))
  = list_to_set (call_ids rs).
Proof.
  induction rs as [|r rs IH] using rev_ind; [simpl; apply dom_empty_L|].
  rewrite fold_left_app. unfold call_ids. rewrite map_app, list_to_set_app_L. simpl.
  destruct r as [[b c'] data]. simpl. rewrite dom_insert_L.
  unfold call_ids in IH. rewrite IH. clear. set_solver.
Qed.

(** C5: in the mapping of a response that decodes, every call id stands for
    the entry of the last terminal call statement with that id, in scan
    order, and the mapping has one entry for each call id that occurs. *)
Theorem C5_last_call_wins code m :
  parse_js code = Ok m →
  ∃ st, loop code (finditer code) initial = Ok st
        ∧ Forall2 (λ mo r, call_id_of mo = Ok r.1.2 ∧ appends mo r)
            (filter is_terminal_call (finditer code)) (results st)
        ∧ (∀ c, m !! c
                = (λ data : list (item nat), item_map (deref st) <$> data)
                  <$> last_result c (results st))
        ∧ dom m = list_to_set (call_ids (results st))
        ∧ size m = length (remove_dups (call_ids (results st))).
Proof.
  intros (st & Hl & _ & _ & ->)%parse_js_Ok. exists st. split; [done|].
  destruct (loop_results _ _ _ _ Hl) as (rs & Hrs & Hall). simpl in Hrs. subst rs.
  split; [done|]. split; [apply fold_mapping_lookup|].
  assert (Hdom : dom (mapping st) = list_to_set (call_ids (results st)))
    by apply fold_mapping_dom.
  split; [done|].
  rewrite <- size_dom, Hdom.
  assert (list_to_set (call_ids (results st))
          = (list_to_set (remove_dups (call_ids (results st))) : gset Z)) as ->.
  { apply set_eq. intros x. by rewrite !elem_of_list_to_set, elem_of_remove_dups. }
  rewrite size_list_to_set; [done | apply NoDup_remove_dups].
Qed.

Lemma C5_last_call_wins_witness :
  ∃ m, parse_js two_calls = Ok m
       ∧ m !! 7 = Some [Plain (VList [VInt 2]); Plain (VInt 1)]
       ∧ size m = 1%nat.
Proof.
  eexists. split; [vm_compute; reflexivity|].
  edestruct (C5_last_call_wins two_calls) as (st & Hl & _ & Hm & _ & Hs).
  { vm_compute. reflexivity. }
  vm_compute in Hl. injection Hl as <-.
  split; [rewrite Hm; vm_compute; reflexivity | rewrite Hs; vm_compute; reflexivity].
Defined.

(** ** Stray text *)

Lemma stray_span_raises code mos : ∀ st0 n frag st,
  gaps_from code (i st0) mos !! n = Some frag → stray frag = true →
  loop code (take n mos) st0 = Ok st →
  (st' ← loop code mos st0; finish code st')
  = Raise (ValueError (DidNotParse (strip frag))).
Proof.
  induction mos as [|mo mos IH]; intros st0 n frag st Hg Hs Hl.
  - destruct n; [|done]. simpl in *. injection Hg as <-. inv_result.
    unfold finish. unfold stray in Hs. by rewrite Hs.
  - destruct n as [|n]; simpl in *.
    + injection Hg as <-. unfold step. unfold stray in Hs. by rewrite Hs.
    + inv_result. rewrite Ha. simpl. eapply IH; [|done|done].
      by rewrite (step_i _ _ _ _ Ha).
Qed.

Lemma stray_span_fails code mos : ∀ st0,
  existsb stray (gaps_from code (i st0) mos) = true →
  ∃ e, (st' ← loop code mos st0; finish code st') = Raise e.
Proof.
  induction mos as [|mo mos IH]; intros st0 Hs; simpl in *.
  - rewrite orb_false_r in Hs. unfold finish. unfold stray in Hs. rewrite Hs.
    by eexists.
  - unfold step. fold (stray (slice code (i st0) (mo_start mo))).
    destruct (stray (slice code (i st0) (mo_start mo))); simpl in *; [by eexists|].
    destruct (execute mo (set_i (mo_end mo) st0)) as [st1|e] eqn:He; simpl;
      [|by eexists].
    apply IH. apply execute_i in He. by rewrite He.
Qed.

(** C3 as amended: a text with a span that holds a character other than
    white space (before the first statement, between two statements or after
    the last) does not decode; the first such span makes [parse_js] raise the
    parse error that names the span, stripped, provided the statements
    before it ran; the statements after it play no part. *)
Theorem C3_first_stray_span code :
  (existsb stray (gaps code) = true → ∃ e, parse_js code = Raise e)
  ∧ (∀ n frag st,
       gaps code !! n = Some frag → stray frag = true →
       loop code (take n (finditer code)) initial = Ok st →
       parse_js code = Raise (ValueError (DidNotParse (strip frag)))).
Proof.
  split.
  - intros Hs. by apply (stray_span_fails code _ initial).
  - intros n frag st Hg Hs Hl. by eapply (stray_span_raises code _ initial).
Qed.

Lemma C3_first_stray_span_witness :
  parse_js stray_between = Raise (ValueError (DidNotParse (py "junk"))).
Proof.
  eapply (proj2 (C3_first_stray_span stray_between) 1%nat (py " junk "));
    vm_compute; reflexivity.
Defined.

(** C3 as stated fails: the text has a stray span after its only
    statement, and [parse_js] raises the [KeyError] of that statement, not a
    parse error. *)
Lemma C3_counterexample :
  existsb stray (gaps stray_after_failure) = true
  ∧ parse_js stray_after_failure = Raise (KeyError (py "a")).
Proof. split; vm_compute; reflexivity. Qed.

(** ** Names and declarations *)

Lemma execute_locals mo st st' :
  execute mo st = Ok st' →
  locals st' = if decide (lastgroup mo = var)
               then <[group mo 1 := length (heap st)]> (locals st)
               else locals st.
Proof.
  unfold execute. intros H.
  destruct (lastgroup mo); simpl; inv_result; try done.
  repeat (match goal with
          | H : match ?x with _ => _ end = Ok _ |- _ => destruct x eqn:?
          end; inv_result); done.
Qed.

Lemma declared_cons mo mos :
  declared (mo :: mos)
  = if decide (lastgroup mo = var) then group mo 1 :: declared mos else declared mos.
Proof. unfold declared. rewrite filter_cons. by destruct (decide _). Qed.

(** The names bound are the names declared. *)
Lemma loop_locals code mos : ∀ st st',
  loop code mos st = Ok st' →
  ∀ name, is_Some (locals st' !! name)
          ↔ is_Some (locals st !! name) ∨ name ∈ declared mos.
Proof.
  induction mos as [|mo mos IH]; intros st st' H name; simpl in H.
  - inv_result. split; [by left | intros [?|Hin]; [done | by apply elem_of_nil in Hin]].
  - inv_result. rewrite (IH _ _ H name). apply step_Ok in Ha as [_ Ha].
    apply execute_locals in Ha. simpl in Ha. rewrite Ha, declared_cons.
    destruct (decide (lastgroup mo = var)); [|done].
    rewrite lookup_insert. destruct (decide (group mo 1 = name)) as [->|Hne].
    + split; [intros _; right; left | intros _; left; by eexists].
    + rewrite elem_of_cons. naive_solver.
Qed.

Lemma undeclared_unbound code pre st name :
  loop code pre initial = Ok st → name ∉ declared pre → locals st !! name = None.
Proof.
  intros Hl Hn. apply eq_None_not_Some. intros Hs.
  apply (loop_locals _ _ _ _ Hl) in Hs as [Hs|Hs]; [|done].
  simpl in Hs. rewrite lookup_empty in Hs. by destruct Hs.
Qed.

Lemma unbound_undeclared code pre st name :
  loop code pre initial = Ok st → locals st !! name = None → name ∉ declared pre.
Proof.
  intros Hl Hn Hin.
  assert (Hs : is_Some (locals st !! name)) by (apply (loop_locals _ _ _ _ Hl); by right).
  rewrite Hn in Hs. by destruct Hs.
Qed.

(** A statement that reads an unbound name does not run. *)
Lemma execute_unbound mo st name :
  name ∈ referenced mo → locals st !! name = None → ∃ e, execute mo st = Raise e.
Proof.
  unfold referenced, execute. intros Hin Hn.
  assert (Hlk : lookup_name name st = Raise (KeyError name))
    by (unfold lookup_name; by rewrite Hn).
  destruct (lastgroup mo); try (by apply elem_of_nil in Hin).
  - apply list_elem_of_singleton in Hin as ->.
    destruct (js_object_parse _); simpl; [|by eexists]. rewrite Hlk. simpl. by eexists.
  - apply list_elem_of_singleton in Hin as ->.
    destruct (js_object_parse (group mo 2)); simpl; [|by eexists].
    destruct (js_object_parse (group mo 3)); simpl; [|by eexists].
    rewrite Hlk. simpl. by eexists.
  - destruct (int (group mo 1)); simpl; [|by eexists].
    destruct (int (group mo 2)); simpl; [|by eexists].
    destruct (nonempty _); [|by apply elem_of_nil in Hin].
    edestruct (comprehension_Raise (λ n, Plain <$> lookup_name n st)) as [e He];
      [exact Hin | by rewrite Hlk |]. rewrite He. simpl. by eexists.
  - destruct (int (group mo 1)); simpl; [|by eexists].
    destruct (int (group mo 2)); simpl; [|by eexists].
    destruct (nonempty _); [|by apply elem_of_nil in Hin].
    apply list_elem_of_omap in Hin as (piece & Hin & Hp).
    match goal with
    | |- context [comprehension ?f ?l] =>
        assert (Hf : ∃ e, f piece = Raise e)
    end.
    { destruct (split ":" piece) as [|k [|v [|]]]; try done.
      injection Hp as ->. simpl.
      destruct (js_object_parse k); simpl; [|by eexists]. rewrite Hlk. simpl. by eexists. }
    destruct Hf as [e Hf].
    match goal with
    | |- context [comprehension ?f ?l] =>
        destruct (comprehension_Raise f l piece e Hin Hf) as [e' He']
    end.
    rewrite He'. simpl. by eexists.
Qed.

Lemma lookup_name_Some st name a :
  locals st !! name = Some a → lookup_name name st = Ok a.
Proof. unfold lookup_name. by intros ->. Qed.

Lemma lookup_name_None st name :
  locals st !! name = None → lookup_name name st = Raise (KeyError name).
Proof. unfold lookup_name. by intros ->. Qed.

Lemma names_KeyError st names :
  (∃ name, name ∈ names ∧ locals st !! name = None) →
  ∃ name, name ∈ names ∧ locals st !! name = None
          ∧ comprehension (λ n, Plain <$> lookup_name n st) names
            = Raise (KeyError name).
Proof.
  intros (name & Hin & Hn).
  induction names as [|n names IH]; [by apply elem_of_nil in Hin|].
  simpl. destruct (locals st !! n) eqn:Hl.
  - rewrite (lookup_name_Some _ _ _ Hl). simpl.
    apply elem_of_cons in Hin as [->|Hin]; [congruence|].
    destruct (IH Hin) as (name' & Hin' & Hn' & He). exists name'.
    split; [by right|]. split; [done|]. by rewrite He.
  - rewrite (lookup_name_None _ _ Hl). exists n. split; [by left|]. done.
Qed.

Lemma entries_KeyError st pieces :
  forallb (λ kv_string,
             match split ":" kv_string with
             | [k; _] => is_Ok (js_object_parse k)
             | _ => false
             end) pieces = true →
  (∃ name, name ∈ omap (λ kv_string,
                          match split ":" kv_string with
                          | [_; v] => Some v
                          | _ => None
                          end) pieces
           ∧ locals st !! name = None) →
  ∃ name, name ∈ omap (λ kv_string,
                         match split ":" kv_string with
                         | [_; v] => Some v
                         | _ => None
                         end) pieces
          ∧ locals st !! name = None
          ∧ comprehension (λ kv_string,
                '(k, v) ← unpack2 (split ":" kv_string);
                k' ← js_object_parse k;
                a ← lookup_name v st;
                Ok (Pair k' a)) pieces
            = Raise (KeyError name).
Proof.
  intros Hall (name & Hin & Hn).
  induction pieces as [|p pieces IH]; [by apply elem_of_nil in Hin|].
  simpl in Hall. apply andb_true_iff in Hall as [Hp Hall].
  simpl in Hin. simpl.
  destruct (split ":" p) as [|k [|v [|]]]; try done. simpl in *.
  destruct (js_object_parse k); [|done]. simpl.
  destruct (locals st !! v) eqn:Hl.
  - rewrite (lookup_name_Some _ _ _ Hl). simpl.
    apply elem_of_cons in Hin as [->|Hin]; [congruence|].
    destruct (IH Hall Hin) as (name' & Hin' & Hn' & He). exists name'.
    split; [by right|]. split; [done|]. by rewrite He.
  - rewrite (lookup_name_None _ _ Hl). exists v. split; [by left|]. done.
Qed.

(** When everything a statement computes first goes through, the unbound
    name it reads first is the [KeyError]. *)
Lemma execute_KeyError mo st :
  operands_evaluate mo = true →
  (∃ name, name ∈ referenced mo ∧ locals st !! name = None) →
  ∃ name, name ∈ referenced mo ∧ locals st !! name = None
          ∧ execute mo st = Raise (KeyError name).
Proof.
  unfold operands_evaluate, referenced, execute. intros Hop (name & Hin & Hn).
  destruct (lastgroup mo); try (by apply elem_of_nil in Hin).
  - apply list_elem_of_singleton in Hin as ->. exists (group mo 1).
    split; [by left|]. split; [done|].
    destruct (js_object_parse _); [|done]. simpl.
    by rewrite (lookup_name_None _ _ Hn).
  - apply list_elem_of_singleton in Hin as ->. exists (group mo 1).
    split; [by left|]. split; [done|].
    apply andb_true_iff in Hop as [H2 H3].
    destruct (js_object_parse (group mo 2)); [|done]. simpl.
    destruct (js_object_parse (group mo 3)); [|done]. simpl.
    by rewrite (lookup_name_None _ _ Hn).
  - apply andb_true_iff in Hop as [H1 H2].
    destruct (int (group mo 1)); [|done]. destruct (int (group mo 2)); [|done]. simpl.
    destruct (nonempty _); [|by apply elem_of_nil in Hin].
    destruct (names_KeyError st (split "," (group mo 3))) as (n & Hn1 & Hn2 & He);
      [by exists name|].
    exists n. split; [done|]. split; [done|]. by rewrite He.
  - apply andb_true_iff in Hop as [[H1 H2]%andb_true_iff Hall].
    destruct (int (group mo 1)); [|done]. destruct (int (group mo 2)); [|done]. simpl.
    destruct (nonempty _); [|by apply elem_of_nil in Hin].
    destruct (entries_KeyError st (split "," (group mo 3)) Hall) as (n & Hn1 & Hn2 & He);
      [by exists name|].
    exists n. split; [done|]. split; [done|]. by rewrite He.
Qed.

(** C6 as amended: a response in which a field assignment, an index
    assignment or a terminal call reads a name that no earlier [var]
    statement declared never decodes to a mapping; and when the statements
    before it ran, no stray text precedes it and what the statement computes
    first goes through, the error is the [KeyError] of an undeclared name it
    reads. *)
Theorem C6_undeclared_name code pre mo post :
  finditer code = pre ++ mo :: post →
  (∃ name, name ∈ referenced mo ∧ name ∉ declared pre) →
  (∃ e, parse_js code = Raise e)
  ∧ (∀ st, loop code pre initial = Ok st →
       stray (slice code (i st) (mo_start mo)) = false →
       operands_evaluate mo = true →
       ∃ name, name ∈ referenced mo ∧ name ∉ declared pre
               ∧ parse_js code = Raise (KeyError name)
               ∧ is_LookupError (KeyError name) = true).
Proof.
  intros Hfi (name & Hin & Hnd). unfold parse_js. rewrite Hfi, loop_app. split.
  - destruct (loop code pre initial) as [st|e] eqn:Hl; simpl; [|by eexists].
    unfold step. destruct (nonempty _); simpl; [by eexists|].
    edestruct (execute_unbound mo (set_i (mo_end mo) st)) as [e He];
      [exact Hin | simpl; by eapply undeclared_unbound |].
    rewrite He. simpl. by eexists.
  - intros st Hl Hs Hop. rewrite Hl. simpl.
    unfold step. unfold stray in Hs. rewrite Hs.
    destruct (execute_KeyError mo (set_i (mo_end mo) st) Hop) as (n & Hn1 & Hn2 & He).
    { exists name. split; [done|]. simpl. by eapply undeclared_unbound. }
    simpl in Hn2.
    exists n. split; [done|]. split; [by eapply unbound_undeclared|].
    rewrite He. done.
Qed.

Lemma C6_undeclared_name_witness :
  parse_js stray_after_failure = Raise (KeyError (py "a")).
Proof.
  edestruct C6_undeclared_name
    with (code := stray_after_failure) (pre := @nil Match) (post := @nil Match)
    as [_ H].
  - vm_compute. reflexivity.
  - exists (py "a"). split; [vm_compute; left | intros Hin; inversion Hin].
  - edestruct (H initial) as (n & Hn & _ & He & _);
      [reflexivity | vm_compute; reflexivity | vm_compute; reflexivity |].
    vm_compute in Hn. apply list_elem_of_singleton in Hn. subst n. exact He.
Defined.

(** C6 as stated fails: the field assignment reads the undeclared name
    [a], and [parse_js] raises the parse error of the stray text before it,
    which is no lookup failure. *)
Lemma C6_counterexample :
  (∃ mo, finditer failure_after_stray = [mo] ∧ lastgroup mo = setattr
         ∧ referenced mo = [py "a"] ∧ declared [] = [])
  ∧ parse_js failure_after_stray = Raise (ValueError (DidNotParse (py "x")))
  ∧ is_LookupError (ValueError (DidNotParse (py "x"))) = false.
Proof.
  split; [|split; vm_compute; reflexivity].
  eexists. split; [vm_compute; reflexivity|]. by vm_compute.
Qed.

(** ** Splitting the body of a keyed call *)

Lemma split_nonempty (c : ascii) (s : str) : split c s ≠ [].
Proof.
  destruct s as [|x s]; simpl; [done|].
  destruct (bool_decide (x = c)); [done|]. by destruct (split c s).
Qed.

Lemma split_app_sep (c : ascii) (a b : str) :
  split c (a ++ c :: b) = split c a ++ split c b.
Proof.
  induction a as [|x a IH]; simpl.
  - by rewrite bool_decide_eq_true_2.
  - destruct (bool_decide (x = c)); [by rewrite IH|].
    rewrite IH. pose proof (split_nonempty c a). by destruct (split c a).
Qed.

Lemma split_length (c : ascii) (s : str) : (1 ≤ length (split c s))%nat.
Proof. pose proof (split_nonempty c s). destruct (split c s); [done | simpl; lia]. Qed.

(** What is left of a quoted string when it is cut before its closing
    quote is no string literal. *)
Lemma lex_string_open (q : ascii) :
  is_quote q = true →
  ∀ n x y, length x = n → quoted_body q (x ++ y) = true →
           lex_string q x = Raise SyntaxError.
Proof.
  intros Hq n. induction n as [n IH] using lt_wf_ind. intros x y Hn Hb.
  destruct x as [|c x]; [done|]. simpl in Hb. simpl.
  destruct (bool_decide (c = "\"%char)) eqn:Hbs.
  - apply bool_decide_eq_true in Hbs as ->.
    assert (bool_decide ("\"%char = q) = false) as ->.
    { apply bool_decide_eq_false. intros <-. done. }
    simpl. destruct x as [|e x]; [done|]. simpl in Hb.
    apply andb_true_iff in Hb as [He Hb].
    destruct (bool_decide (e = "x"%char)).
    + destruct x as [|h1 [|h2 x]]; try done.
      destruct (hex2 h1 h2) eqn:Hh; [|done].
      rewrite (IH (length x)) with (y := y); [done | simpl in Hn; lia | done |].
      unfold hex2 in Hh. destruct (hex_value h1) eqn:H1; [|done].
      destruct (hex_value h2) eqn:H2; [|done].
      assert (Hplain : ∀ h v, hex_value h = Some v →
                bool_decide (h = "\"%char) = false ∧ bool_decide (h = q) = false).
      { intros h v Hv. split; apply bool_decide_eq_false; intros Heq; subst.
        - by vm_compute in Hv.
        - unfold is_quote in Hq.
          apply orb_true_iff in Hq as [Hq|Hq]; apply bool_decide_eq_true in Hq;
            subst; by vm_compute in Hv. }
      simpl in Hb. destruct (Hplain _ _ H1) as [E1 E1']. rewrite E1, E1' in Hb.
      destruct (Hplain _ _ H2) as [E2 E2']. by rewrite E2, E2' in Hb.
    + destruct (simple_escape e); [|done].
      rewrite (IH (length x)) with (y := y); [done | simpl in Hn; lia | done | done].
  - apply andb_true_iff in Hb as [Hc Hb]. apply negb_true_iff in Hc. rewrite Hc.
    destruct (breaks_string c); [done|].
    rewrite (IH (length x)) with (y := y); [done | simpl in Hn; lia | done | done].
Qed.

Lemma js_object_parse_open (q : ascii) (x y : str) :
  is_quote q = true → quoted_body q (x ++ y) = true →
  js_object_parse (q :: x) = Raise SyntaxError.
Proof.
  intros Hq Hb. pose proof (lex_string_open q Hq _ x y eq_refl Hb) as Hl.
  unfold js_object_parse, ast_parse.
  assert (q = sq ∨ q = dq) as [->| ->].
  { unfold is_quote in Hq.
    apply orb_true_iff in Hq as [Hq|Hq]; apply bool_decide_eq_true in Hq; auto. }
  - cbn -[lex_string]. rewrite Hl. by destruct x as [|c1 [|c2 x]]; simpl;
      try destruct (_ && _).
  - cbn -[lex_string]. rewrite Hl. by destruct x as [|c1 [|c2 x]]; simpl;
      try destruct (_ && _).
Qed.

Lemma unpack2_Raise (l : list str) :
  length l ≠ 2%nat → unpack2 l = Raise (ValueError (UnpackMismatch (length l))).
Proof. by destruct l as [|k [|v [|]]]. Qed.

Lemma quote_not_sep (q : ascii) :
  is_quote q = true → q ≠ ","%char ∧ q ≠ ":"%char.
Proof.
  unfold is_quote. intros [Hq|Hq]%orb_true_iff; apply bool_decide_eq_true in Hq;
    subst; done.
Qed.

Lemma quoted_key_entry_fails (st : state) (q : ascii) (body tail : str) :
  is_quote q = true → quoted_body q body = true →
  ","%char ∈ body ∨ ":"%char ∈ body →
  ∃ piece e,
    piece ∈ split "," (q :: body ++ q :: ":"%char :: tail)
    ∧ ('(k, v) ← unpack2 (split ":" piece);
       k' ← js_object_parse k;
       a ← lookup_name v st;
       Ok (Pair k' a)) = Raise e.
Proof.
  intros Hq Hb Hsep. destruct (quote_not_sep q Hq) as [Hqc Hqk].
  destruct (decide (","%char ∈ body)) as [Hc|Hc].
  - apply list_elem_of_split_l in Hc as (b1 & b2 & -> & Hc).
    exists (q :: b1).
    assert (Hp : q :: b1 ∈ split "," (q :: (b1 ++ ","%char :: b2) ++ q :: ":"%char :: tail)).
    { assert (E : q :: (b1 ++ ","%char :: b2) ++ q :: ":"%char :: tail
                  = (q :: b1) ++ ","%char :: (b2 ++ q :: ":"%char :: tail))
        by (simpl; by rewrite <- app_assoc).
      rewrite E, split_first; [left|].
      intros [?|?]%elem_of_cons; [by apply Hqc|done]. }
    destruct (decide (":"%char ∈ b1)) as [Hk|Hk].
    + apply list_elem_of_split_l in Hk as (c1 & c2 & -> & Hk).
      assert (Hs : split ":" (q :: c1 ++ ":"%char :: c2) = (q :: c1) :: split ":" c2).
      { apply (split_first ":" (q :: c1)).
        intros [?|?]%elem_of_cons; [by apply Hqk|done]. }
      rewrite Hs. destruct (split ":" c2) as [|v [|v' l]] eqn:Hs2.
      * by apply split_nonempty in Hs2.
      * exists SyntaxError. split; [done|]. simpl.
        rewrite <- app_assoc in Hb.
        by rewrite (js_object_parse_open q c1 _ Hq Hb).
      * eexists. split; [done|]. reflexivity.
    + rewrite (split_absent ":" (q :: b1)).
      2:{ intros [?|?]%elem_of_cons; [by apply Hqk|done]. }
      eexists. split; [done|]. reflexivity.
  - destruct Hsep as [?|Hk]; [done|].
    apply list_elem_of_split_l in Hk as (c1 & c2 & -> & Hk).
    assert (Hlen : ∀ t, length (split ":" (q :: (c1 ++ ":"%char :: c2) ++ q :: ":"%char :: t))
                        ≠ 2%nat).
    { intros t.
      assert (E : q :: (c1 ++ ":"%char :: c2) ++ q :: ":"%char :: t
                  = (q :: c1) ++ ":"%char :: ((c2 ++ [q]) ++ ":"%char :: t))
        by (simpl; by rewrite <- !app_assoc).
      rewrite E, !split_app_sep, !length_app.
      pose proof (split_length ":" (q :: c1)).
      pose proof (split_length ":" (c2 ++ [q])).
      pose proof (split_length ":" t). lia. }
    destruct (decide (","%char ∈ tail)) as [Ht|Ht].
    + apply list_elem_of_split_l in Ht as (t1 & t2 & -> & Ht).
      exists (q :: (c1 ++ ":"%char :: c2) ++ q :: ":"%char :: t1). eexists. split.
      * replace (q :: (c1 ++ ":"%char :: c2) ++ q :: ":"%char :: t1 ++ ","%char :: t2)
          with ((q :: (c1 ++ ":"%char :: c2) ++ q :: ":"%char :: t1) ++ ","%char :: t2).
        2:{ simpl. rewrite <- !app_assoc. simpl. done. }
        rewrite split_first; [left|].
        intros [?|Hin]%elem_of_cons; [by apply Hqc|].
        apply elem_of_app in Hin as [?|Hin]; [done|].
        apply elem_of_cons in Hin as [?|Hin]; [by apply Hqc|].
        apply elem_of_cons in Hin as [?|Hin]; done.
      * rewrite (unpack2_Raise _ (Hlen t1)). reflexivity.
    + exists (q :: (c1 ++ ":"%char :: c2) ++ q :: ":"%char :: tail). eexists. split.
      * rewrite split_absent; [left|].
        intros [?|Hin]%elem_of_cons; [by apply Hqc|].
        apply elem_of_app in Hin as [?|Hin]; [done|].
        apply elem_of_cons in Hin as [?|Hin]; [by apply Hqc|].
        apply elem_of_cons in Hin as [?|Hin]; done.
      * rewrite (unpack2_Raise _ (Hlen tail)). reflexivity.
Qed.

(** C10: a keyed call one of whose keys is a quoted string with a comma or
    a colon in it matches the pattern and yet cannot run: the body is split
    at every comma and every colon, inside quotes too, so the entry either
    does not unpack into two parts or leaves a key that is no literal;
    [parse_js] raises and returns no mapping. *)
Theorem C10_quoted_key_with_separator code mo before q body tail :
  mo ∈ finditer code →
  lastgroup mo = calldict →
  group mo 3 = before ++ q :: body ++ q :: ":"%char :: tail →
  before = [] ∨ (∃ b, before = b ++ [","%char]) →
  is_quote q = true → quoted_body q body = true →
  ","%char ∈ body ∨ ":"%char ∈ body →
  (∀ st, ∃ e, execute mo st = Raise e) ∧ (∃ e, parse_js code = Raise e).
Proof.
  intros Hin Hk Hg Hbefore Hq Hb Hsep.
  assert (Hex : ∀ st, ∃ e, execute mo st = Raise e).
  { intros st. unfold execute. rewrite Hk.
    destruct (int (group mo 1)); simpl; [|by eexists].
    destruct (int (group mo 2)); simpl; [|by eexists].
    rewrite Hg. assert (nonempty (before ++ q :: body ++ q :: ":"%char :: tail) = true) as ->
      by (by destruct before).
    destruct (quoted_key_entry_fails st q body tail Hq Hb Hsep) as (piece & e & Hp & He).
    assert (Hp' : piece ∈ split "," (before ++ q :: body ++ q :: ":"%char :: tail)).
    { destruct Hbefore as [->|[b ->]]; [done|].
      rewrite <- app_assoc. simpl. rewrite split_app_sep.
      apply elem_of_app. by right. }
    match goal with
    | |- context [comprehension ?f ?l] =>
        destruct (comprehension_Raise f l piece e Hp' He) as [e' He']
    end.
    rewrite He'. simpl. by eexists. }
  split; [done|].
  destruct (loop_Raise code (finditer code) mo Hin) with (st := initial) as [e He].
  - intros st. unfold step. destruct (nonempty _); [by eexists|]. apply Hex.
  - unfold parse_js. rewrite He. by eexists.
Qed.

Lemma C10_quoted_key_with_separator_witness :
  ∃ e, parse_js keyed_comma = Raise e.
Proof.
  edestruct C10_quoted_key_with_separator
    with (code := keyed_comma) (before := @nil ascii) (q := sq) (body := py "a,b")
         (tail := py "s")
    as [_ H]; [| | | by left | reflexivity | reflexivity | left | exact H].
  - vm_compute. right. left.
  - reflexivity.
  - vm_compute. reflexivity.
  - vm_compute. right. left.
Defined.

(** ** Decimal digits *)

Lemma digit_cases (d : Z) :
  0 ≤ d < 10 →
  d = 0 ∨ d = 1 ∨ d = 2 ∨ d = 3 ∨ d = 4 ∨ d = 5 ∨ d = 6 ∨ d = 7 ∨ d = 8 ∨ d = 9.
Proof. lia. Qed.

Lemma digit_char_spec (d : Z) :
  0 ≤ d < 10 →
  is_digit (digit_char d) = true ∧ digit_value (digit_char d) = d
  ∧ (bool_decide (digit_char d = "0"%char) = bool_decide (d = 0)).
Proof.
  intros H. destruct (digit_cases d H) as [->|[->|[->|[->|[->|[->|[->|[->|[->| ->]]]]]]]]];
    by vm_compute.
Qed.

Lemma digits_value_snoc (ds : str) (d : ascii) :
  digits_value (ds ++ [d]) = 10 * digits_value ds + digit_value d.
Proof. unfold digits_value. by rewrite fold_left_app. Qed.


Lemma forallb_snoc {A} (p : A → bool) (l : list A) (x : A) :
  forallb p (l ++ [x]) = forallb p l && p x.
Proof. rewrite forallb_app. simpl. by rewrite andb_true_r. Qed.

Lemma zeros_value (ds : str) :
  forallb (λ c, bool_decide (c = "0"%char)) ds = true → digits_value ds = 0.
Proof.
  induction ds as [|x xs IH] using rev_ind; [done|].
  rewrite forallb_snoc. intros [Hxs Hx]%andb_true_iff.
  apply bool_decide_eq_true in Hx as ->.
  by rewrite digits_value_snoc, (IH Hxs).
Qed.

Lemma int_digits_S (fuel : nat) (n : Z) :
  int_digits (S fuel) n
  = if n <? 10 then [digit_char n]
    else int_digits fuel (n / 10) ++ [digit_char (n mod 10)].
Proof. done. Qed.

Lemma int_digits_spec (fuel : nat) : ∀ n,
  0 ≤ n < 2 ^ Z.of_nat (S fuel) →
  forallb is_digit (int_digits (S fuel) n) = true
  ∧ digits_value (int_digits (S fuel) n) = n
  ∧ decinteger (int_digits (S fuel) n) = true.
Proof.
  induction fuel as [|fuel IH]; intros n Hn;
    rewrite int_digits_S; destruct (Z.ltb_spec n 10) as [Hlt|Hge].
  - destruct (digit_char_spec n) as (Hd & Hv & Hz); [lia|].
    simpl. rewrite Hd. split; [done|]. split.
    + unfold digits_value. cbn [fold_left]. lia.
    + rewrite Hz. by destruct (bool_decide (n = 0)).
  - simpl in Hn. lia.
  - destruct (digit_char_spec n) as (Hd & Hv & Hz); [lia|].
    simpl. rewrite Hd. split; [done|]. split.
    + unfold digits_value. cbn [fold_left]. lia.
    + rewrite Hz. by destruct (bool_decide (n = 0)).
  - assert (Hq : 0 ≤ n / 10 < 2 ^ Z.of_nat (S fuel)).
    { split; [apply Z.div_pos; lia|].
      rewrite (Nat2Z.inj_succ (S fuel)), Z.pow_succ_r in Hn by lia.
      apply Z.div_lt_upper_bound; lia. }
    destruct (IH _ Hq) as (Hd & Hv & Hdec).
    destruct (digit_char_spec (n mod 10)) as (Hd' & Hv' & _).
    { apply Z.mod_pos_bound. lia. }
    rewrite forallb_snoc, Hd, Hd', digits_value_snoc, Hv, Hv'.
    split; [done|]. split; [pose proof (Z.div_mod n 10); lia|].
    assert (Hnz : 0 < n / 10) by (apply Z.div_str_pos; lia).
    destruct (int_digits (S fuel) (n / 10)) as [|c l] eqn:Hi; [done|].
    cbn [app decinteger] in *.
    apply orb_true_iff in Hdec as [Hdec|Hdec]; [by rewrite Hdec|].
    apply zeros_value in Hdec. lia.
Qed.

Lemma log2_fuel (n : Z) : 0 ≤ n → n < 2 ^ Z.of_nat (S (Z.to_nat (Z.log2 n))).
Proof.
  intros Hn. rewrite Nat2Z.inj_succ, Z2Nat.id by apply Z.log2_nonneg.
  destruct (Z.eq_dec n 0) as [->|Hne]; [done|].
  apply Z.log2_spec. lia.
Qed.

Lemma nat_digits_spec (n : Z) :
  0 ≤ n →
  forallb is_digit (nat_digits n) = true
  ∧ digits_value (nat_digits n) = n
  ∧ decinteger (nat_digits n) = true.
Proof. intros Hn. apply int_digits_spec. split; [done | by apply log2_fuel]. Qed.


(** ** The lexer: fuel *)

Lemma lex_S (fuel : nat) (s : str) :
  lex (S fuel) s
  = match s with
    | [] => Ok []
    | c :: s' =>
        if is_blank c then lex fuel s'
        else if is_digit c || bool_decide (c = "."%char) then
          '(n, r) ← lex_number s; ts ← lex fuel r; Ok (NUMBER n :: ts)
        else if is_alpha_ c then
          let '(id, r) := span is_alnum_ s in
          if bool_decide (id ∈ keywords) || starts_with is_quote r
          then Raise SyntaxError
          else ts ← lex fuel r; Ok (NAME id :: ts)
        else if is_quote c then
          match s' with
          | c1 :: c2 :: _ =>
              if bool_decide (c1 = c) && bool_decide (c2 = c)
              then Raise SyntaxError
              else '(b, r) ← lex_string c s'; ts ← lex fuel r; Ok (STRING b :: ts)
          | _ => '(b, r) ← lex_string c s'; ts ← lex fuel r; Ok (STRING b :: ts)
          end
        else if is_op c then ts ← lex fuel s'; Ok (OP c :: ts)
        else Raise SyntaxError
    end.
Proof. done. Qed.



Lemma span_spec (p : ascii → bool) (s : str) :
  s = (span p s).1 ++ (span p s).2
  ∧ forallb p (span p s).1 = true
  ∧ starts_with p (span p s).2 = false.
Proof.
  induction s as [|c s IH]; [done|]. simpl.
  destruct (p c) eqn:Hc; [|simpl; by rewrite Hc].
  destruct (span p s) as [a b]. simpl in *. rewrite Hc.
  destruct IH as (-> & Ha & Hb). done.
Qed.


Lemma span_app (p : ascii → bool) (a rest : str) :
  forallb p a = true → starts_with p rest = false → span p (a ++ rest) = (a, rest).
Proof.
  intros Ha Hr. induction a as [|c a IH]; simpl.
  - destruct rest as [|c r]; [done|]. simpl in *. by rewrite Hr.
  - simpl in Ha. apply andb_true_iff in Ha as [Hc Ha]. by rewrite Hc, (IH Ha).
Qed.




(** ** The lexer on canonical text *)





Lemma indent_blank (s : str) :
  starts_with is_blank s = false → starts_with is_indent s = false.
Proof.
  destruct s as [|c s]; [done|]. simpl. unfold is_blank, is_indent.
  by destruct (bool_decide (c = " "%char)), (bool_decide (c = "009"%char)).
Qed.


Lemma nat_digits_head (n : Z) :
  0 ≤ n → ∃ c ds, nat_digits n = c :: ds ∧ is_digit c = true.
Proof.
  intros Hn. destruct (nat_digits_spec n Hn) as (Hd & _ & Hdec).
  destruct (nat_digits n) as [|c ds]; [done|]. exists c, ds. split; [done|].
  simpl in Hd. by apply andb_true_iff in Hd as [? _].
Qed.







Lemma quote_cases (q : ascii) : is_quote q = true → q = sq ∨ q = dq.
Proof.
  unfold is_quote. intros [Hq|Hq]%orb_true_iff; apply bool_decide_eq_true in Hq; auto.
Qed.








(** ** Induction over values *)


Lemma join_cons2 {A} (sep x y : list A) (l : list (list A)) :
  join sep (x :: y :: l) = x ++ sep ++ join sep (y :: l).
Proof. done. Qed.

(** ** The lexer on the canonical text of a value *)



(** ** The parser on the tokens of a value *)

Lemma parse_expr_S (fuel : nat) (ts : list token) :
  parse_expr (S fuel) ts
  = match ts with
    | NAME id :: r => Ok (Name id, r)
    | NUMBER n :: r => Ok (Num n, r)
    | STRING s :: r => let '(ss, r') := more_strings r in Ok (Str (s ++ ss), r')
    | OP c :: r =>
        if bool_decide (c = "["%char) then
          '(es, r') ← parse_elts fuel r; Ok (List es, r')
        else if bool_decide (c = "{"%char) then
          '(kvs, r') ← parse_items fuel r; Ok (Dict kvs.1 kvs.2, r')
        else if bool_decide (c = "("%char) then
          '(e, r') ← parse_expr fuel r;
          match r' with
          | t :: r'' => if is_OP ")" t then Ok (e, r'') else Raise SyntaxError
          | [] => Raise SyntaxError
          end
        else match unary_of c with
             | Some op => '(e, r') ← parse_expr fuel r; Ok (UnaryOp op e, r')
             | None => Raise SyntaxError
             end
    | [] => Raise SyntaxError
    end.
Proof. done. Qed.

Lemma parse_elts_S (fuel : nat) (ts : list token) :
  parse_elts (S fuel) ts
  = match ts with
    | [] => Raise SyntaxError
    | t :: r =>
        if is_OP "]" t then Ok ([], r)
        else
          '(e, r1) ← parse_expr fuel ts;
          match r1 with
          | t1 :: r2 =>
              if is_OP "," t1 then
                '(es, r3) ← parse_elts fuel r2; Ok (e :: es, r3)
              else if is_OP "]" t1 then Ok ([e], r2)
              else Raise SyntaxError
          | [] => Raise SyntaxError
          end
    end.
Proof. done. Qed.

Lemma parse_items_S (fuel : nat) (ts : list token) :
  parse_items (S fuel) ts
  = match ts with
    | [] => Raise SyntaxError
    | t :: r =>
        if is_OP "}" t then Ok (([], []), r)
        else
          '(k, r1) ← parse_expr fuel ts;
          match r1 with
          | t1 :: r2 =>
              if is_OP ":" t1 then
                '(v, r3) ← parse_expr fuel r2;
                match r3 with
                | t3 :: r4 =>
                    if is_OP "," t3 then
                      '(kvs, r5) ← parse_items fuel r4;
                      Ok ((k :: kvs.1, v :: kvs.2), r5)
                    else if is_OP "}" t3 then Ok (([k], [v]), r4)
                    else Raise SyntaxError
                | [] => Raise SyntaxError
                end
              else Raise SyntaxError
          | [] => Raise SyntaxError
          end
    end.
Proof. done. Qed.






(** ** The visitor on the tree of a value *)





(** ** From text to value *)





(** ** The literal forms *)







Lemma strip_zeros_spec (fp : str) :
  ∃ zs, fp = strip_zeros fp ++ zs
        ∧ forallb (λ c, bool_decide (c = "0"%char)) zs = true.
Proof.
  unfold strip_zeros.
  destruct (span_spec (λ c, bool_decide (c = "0"%char)) (rev fp)) as (Hs & Hz & _).
  destruct (span _ (rev fp)) as [zs r]. simpl in *.
  exists (rev zs). split.
  - rewrite <- rev_app_distr, <- Hs. by rewrite rev_involutive.
  - rewrite forallb_forall in *. intros x Hx. apply Hz. by apply in_rev.
Qed.





(** * Further properties *)

(** ** Names other than the three constants *)

Lemma alpha_classes (c : ascii) :
  is_alpha_ c = true →
  is_blank c = false ∧ is_digit c || bool_decide (c = "."%char) = false
  ∧ is_alnum_ c = true.
Proof.
  intros H. unfold is_alnum_. rewrite H.
  destruct c as [[] [] [] [] [] [] [] []]; try done.
Qed.

(** An identifier that is neither a keyword of Python nor one of [null],
    [false] and [true] parses to a [Name] node, and [visit_Name] fails on it
    with the [KeyError] of the lookup in [js_constants]. *)
Theorem js_object_parse_unknown_name (name : str) :
  identifier name = true → name ∉ keywords →
  name ∉ [py "null"; py "false"; py "true"] →
  js_object_parse name = Raise (KeyError name).
Proof.
  intros Hid Hkw Hc. destruct name as [|c name']; [done|].
  simpl in Hid. apply andb_true_iff in Hid as [Hal Hall].
  destruct (alpha_classes c Hal) as (Hb & Hd & Han).
  assert (Hsp : span is_alnum_ (c :: name') = (c :: name', [])).
  { pose proof (span_app is_alnum_ (c :: name') []) as H.
    rewrite app_nil_r in H. apply H; [|done]. simpl. by rewrite Han. }
  assert (Hi : starts_with is_indent (c :: name') = false).
  { apply indent_blank. done. }
  unfold js_object_parse, ast_parse. rewrite Hi.
  rewrite lex_S, Hb, Hd, Hal, Hsp.
  rewrite (bool_decide_eq_false_2 _ Hkw). cbn -[visit].
  unfold visit, js_constants.
  rewrite !bool_decide_eq_false_2; [done| | |];
    intros E; apply Hc; rewrite E; set_solver.
Qed.

Lemma js_object_parse_unknown_name_witness :
  js_object_parse (py "undefined") = Raise (KeyError (py "undefined")).
Proof.
  apply (js_object_parse_unknown_name (py "undefined")).
  - reflexivity.
  - vm_compute. intros H. repeat (apply elem_of_cons in H as [H|H]; [discriminate|]).
    by apply elem_of_nil in H.
  - intros H. repeat (apply elem_of_cons in H as [H|H]; [discriminate|]).
    by apply elem_of_nil in H.
Defined.
(** ** The values the literal evaluator returns *)

Lemma digit_value_range (c : ascii) :
  is_digit c = true → 0 ≤ digit_value c ≤ 9.
Proof.
  destruct c as [[] [] [] [] [] [] [] []]; try discriminate; intros _; vm_compute;
    split; discriminate.
Qed.

Lemma digits_value_nonneg (ds : str) :
  forallb is_digit ds = true → 0 ≤ digits_value ds.
Proof.
  induction ds as [|d ds IH] using rev_ind; [done|].
  rewrite forallb_snoc, digits_value_snoc. intros [Hds Hd]%andb_true_iff.
  pose proof (digit_value_range d Hd). specialize (IH Hds). lia.
Qed.

Lemma strip_zeros_last (fp : str) :
  strip_zeros fp = [] ∨ ∃ a d, strip_zeros fp = a ++ [d] ∧ d ≠ "0"%char.
Proof.
  unfold strip_zeros.
  destruct (span_spec (λ c, bool_decide (c = "0"%char)) (rev fp)) as (_ & _ & Hr).
  destruct (span _ (rev fp)).2 as [|d r]; [by left|]. right.
  exists (rev r), d. split; [done|]. simpl in Hr.
  by apply bool_decide_eq_false in Hr.
Qed.

Lemma strip_zeros_digits (fp : str) :
  forallb is_digit fp = true → forallb is_digit (strip_zeros fp) = true.
Proof.
  intros H. destruct (strip_zeros_spec fp) as (zs & Hfp & _).
  rewrite Hfp, forallb_app in H. by apply andb_true_iff in H as [H _].
Qed.

Lemma digit_value_zero (d : ascii) :
  is_digit d = true → digit_value d = 0 → d = "0"%char.
Proof.
  destruct d as [[] [] [] [] [] [] [] []]; try discriminate; intros _; vm_compute;
    done.
Qed.

Lemma pointfloat_plain (ip fp : str) :
  forallb is_digit ip = true → forallb is_digit fp = true →
  literal (visit_Num (pointfloat ip fp)) = true.
Proof.
  intros Hip Hfp. unfold pointfloat. cbn [visit_Num literal].
  pose proof (strip_zeros_digits fp Hfp) as Hs.
  apply andb_true_iff. split.
  - apply Z.leb_le, digits_value_nonneg. rewrite forallb_app. by rewrite Hip, Hs.
  - destruct (strip_zeros_last fp) as [E|(a & d & E & Hd)]; rewrite E in *; [done|].
    apply orb_true_iff. right. apply negb_true_iff, Z.eqb_neq.
    rewrite app_assoc, digits_value_snoc.
    rewrite forallb_snoc in Hs. apply andb_true_iff in Hs as [_ Hdd].
    pose proof (digit_value_range d Hdd).
    intros H0. apply Hd, digit_value_zero; [done|].
    rewrite Z.add_comm, Z.mul_comm, Z.mod_add in H0 by lia.
    rewrite Z.mod_small in H0 by lia. done.
Qed.

Lemma lex_number_plain (s : str) (n : num) (r : str) :
  lex_number s = Ok (n, r) → literal (visit_Num n) = true.
Proof.
  unfold lex_number.
  destruct (span_spec is_digit s) as (_ & Hip & _).
  destruct (span is_digit s) as [ip r0]. simpl in Hip.
  destruct (starts_with is_dot r0).
  - destruct (span_spec is_digit (tail r0)) as (_ & Hfp & _).
    destruct (span is_digit (tail r0)) as [fp r1]. simpl in Hfp.
    destruct (bool_decide (ip = []) && bool_decide (fp = [])); [done|].
    destruct (starts_with is_alnum_ r1); [done|].
    intros [= <- _]. by apply pointfloat_plain.
  - destruct (starts_with is_alnum_ r0); [done|].
    destruct (decinteger ip); [|done].
    intros [= <- _]. simpl. by apply Z.leb_le, digits_value_nonneg.
Qed.

Lemma lex_plain (fuel : nat) : ∀ s ts,
  lex fuel s = Ok ts → forallb plain_token ts = true.
Proof.
  induction fuel as [|fuel IH]; intros s ts; [done|].
  rewrite lex_S. destruct s as [|c s']; [by intros [= <-]|].
  destruct (is_blank c); [apply IH|].
  destruct (is_digit c || bool_decide (c = "."%char)).
  { destruct (lex_number (c :: s')) as [[n r]|] eqn:Hn; [|done]. cbn.
    destruct (lex fuel r) as [ts'|] eqn:Hl; [|done]. cbn. intros [= <-].
    simpl. by rewrite (lex_number_plain _ _ _ Hn), (IH _ _ Hl). }
  destruct (is_alpha_ c).
  { destruct (span is_alnum_ (c :: s')) as [id r].
    destruct (bool_decide (id ∈ keywords) || starts_with is_quote r); [done|].
    destruct (lex fuel r) as [ts'|] eqn:Hl; [|done]. cbn. intros [= <-].
    simpl. by apply (IH _ _ Hl). }
  destruct (is_quote c).
  { assert (H : ∀ ts, ('(b, r) ← lex_string c s'; ts ← lex fuel r; Ok (STRING b :: ts))
                      = Ok ts → forallb plain_token ts = true).
    { intros ts0. destruct (lex_string c s') as [[b r]|]; [|done]. cbn.
      destruct (lex fuel r) as [ts'|] eqn:Hl; [|done]. cbn. intros [= <-].
      simpl. by apply (IH _ _ Hl). }
    destruct s' as [|c1 [|c2 s'']]; try apply H.
    destruct (bool_decide (c1 = c) && bool_decide (c2 = c)); [done|apply H]. }
  destruct (is_op c); [|done].
  destruct (lex fuel s') as [ts'|] eqn:Hl; [|done]. cbn. intros [= <-].
  simpl. by apply (IH _ _ Hl).
Qed.
Lemma more_strings_plain (ts : list token) :
  forallb plain_token ts = true → forallb plain_token (more_strings ts).2 = true.
Proof.
  induction ts as [|t ts IH]; [done|]. destruct t; try done.
  simpl. intros H. specialize (IH H). by destruct (more_strings ts).
Qed.

Lemma parse_plain (fuel : nat) :
  (∀ ts n r, parse_expr fuel ts = Ok (n, r) → forallb plain_token ts = true →
     plain n = true ∧ forallb plain_token r = true)
  ∧ (∀ ts es r, parse_elts fuel ts = Ok (es, r) → forallb plain_token ts = true →
       forallb plain es = true ∧ forallb plain_token r = true)
  ∧ (∀ ts kvs r, parse_items fuel ts = Ok (kvs, r) → forallb plain_token ts = true →
       forallb plain kvs.1 = true ∧ forallb plain kvs.2 = true
       ∧ forallb plain_token r = true).
Proof.
  induction fuel as [|fuel (IHe & IHl & IHd)]; [done|]. split; [|split].
  - intros ts n r. rewrite parse_expr_S. destruct ts as [|[id|k|s|c] ts]; try done.
    + intros [= <- <-]. done.
    + intros [= <- <-]. simpl. by intros [? ?]%andb_true_iff.
    + simpl. intros H Hts. pose proof (more_strings_plain ts Hts) as Hm.
      destruct (more_strings ts) as [ss r']. by injection H as <- <-.
    + simpl. intros H Hts.
      destruct (bool_decide (c = "["%char));
        [|destruct (bool_decide (c = "{"%char));
          [|destruct (bool_decide (c = "("%char))]].
      * destruct (parse_elts fuel ts) as [[es r']|] eqn:He; [|done].
        injection H as <- <-. by apply (IHl _ _ _ He).
      * destruct (parse_items fuel ts) as [[kvs r']|] eqn:He; [|done].
        injection H as <- <-. destruct (IHd _ _ _ He Hts) as (H1 & H2 & H3).
        simpl. by rewrite H1, H2.
      * destruct (parse_expr fuel ts) as [[e r']|] eqn:He; [|done]. cbn in H.
        destruct (IHe _ _ _ He Hts) as (H1 & H2).
        destruct r' as [|t r'']; [done|]. destruct (is_OP ")" t); [|done].
        injection H as <- <-. simpl in H2. by apply andb_true_iff in H2 as [_ ?].
      * destruct (unary_of c); [|done].
        destruct (parse_expr fuel ts) as [[e r']|] eqn:He; [|done].
        injection H as <- <-. by apply (IHe _ _ _ He).
  - intros ts es r. rewrite parse_elts_S. destruct ts as [|t ts]; [done|].
    destruct (is_OP "]" t).
    { intros [= <- <-]. simpl. by intros [_ ?]%andb_true_iff. }
    destruct (parse_expr fuel (t :: ts)) as [[e r1]|] eqn:He; [|done]. cbn.
    intros H Hts. destruct (IHe _ _ _ He Hts) as (H1 & H2).
    destruct r1 as [|t1 r2]; [done|]. simpl in H2. apply andb_true_iff in H2 as [_ H2].
    destruct (is_OP "," t1).
    { destruct (parse_elts fuel r2) as [[es' r3]|] eqn:Hes; [|done].
      injection H as <- <-. destruct (IHl _ _ _ Hes H2) as (H3 & H4).
      simpl. by rewrite H1, H3. }
    destruct (is_OP "]" t1); [|done]. injection H as <- <-. simpl. by rewrite H1.
  - intros ts kvs r. rewrite parse_items_S. destruct ts as [|t ts]; [done|].
    destruct (is_OP "}" t).
    { intros [= <- <-]. simpl. by intros [_ ?]%andb_true_iff. }
    destruct (parse_expr fuel (t :: ts)) as [[k r1]|] eqn:Hk; [|done]. cbn.
    intros H Hts. destruct (IHe _ _ _ Hk Hts) as (H1 & H2).
    destruct r1 as [|t1 r2]; [done|]. simpl in H2. apply andb_true_iff in H2 as [_ H2].
    destruct (is_OP ":" t1); [|done].
    destruct (parse_expr fuel r2) as [[v r3]|] eqn:Hv; [|done]. cbn in H.
    destruct (IHe _ _ _ Hv H2) as (H3 & H4).
    destruct r3 as [|t3 r4]; [done|]. simpl in H4. apply andb_true_iff in H4 as [_ H4].
    destruct (is_OP "," t3).
    { destruct (parse_items fuel r4) as [[kvs' r5]|] eqn:Hkvs; [|done].
      injection H as <- <-. destruct (IHd _ _ _ Hkvs H4) as (H5 & H6 & H7).
      simpl. by rewrite H1, H3, H5, H6. }
    destruct (is_OP "}" t3); [|done]. injection H as <- <-. simpl. by rewrite H1, H3.
Qed.

Lemma node_induction (P : node → Prop) :
  (∀ body, P body → P (Expression body)) → (∀ id, P (Name id)) →
  (∀ n, P (Num n)) → (∀ s, P (Str s)) →
  (∀ elts, Forall P elts → P (List elts)) →
  (∀ keys values, Forall P keys → Forall P values → P (Dict keys values)) →
  (∀ op operand, P operand → P (UnaryOp op operand)) →
  ∀ n, P n.
Proof.
  intros HE HN HNum HS HL HD HU.
  fix IH 1. intros [b|id|n|s|es|ks vs|op e].
  - apply HE, IH.
  - apply HN.
  - apply HNum.
  - apply HS.
  - apply HL. revert es. fix IHl 1. intros [|x l]; constructor; [apply IH | apply IHl].
  - apply HD.
    + revert ks. fix IHl 1. intros [|x l]; constructor; [apply IH | apply IHl].
    + revert vs. fix IHl 1. intros [|x l]; constructor; [apply IH | apply IHl].
  - apply HU, IH.
Qed.

Lemma distinct_keys_snoc (ks : list value) (k : value) :
  distinct_keys ks = true → Forall (λ k', key_eqb k' k = false) ks →
  distinct_keys (ks ++ [k]) = true.
Proof.
  induction ks as [|x ks IH]; [done|]. simpl.
  intros [Hx Hd]%andb_true_iff [Hxk Hks]%Forall_cons.
  rewrite forallb_app, Hx, (IH Hd Hks). simpl. by rewrite Hxk.
Qed.

Lemma dict_store_keys (d : list (value * value)) (k v : value) :
  map fst (dict_store d k v) = map fst d
  ∨ (map fst (dict_store d k v) = map fst d ++ [k]
     ∧ Forall (λ k', key_eqb k' k = false) (map fst d)).
Proof.
  induction d as [|[k' v'] d IH]; simpl.
  - right. split; [done|constructor].
  - destruct (key_eqb k' k) eqn:Hk; [by left|]. simpl.
    destruct IH as [->|[-> H]]; [by left|]. right. split; [done|]. by constructor.
Qed.

Lemma dict_store_literal (d : list (value * value)) (k v : value) :
  literal (VDict d) = true → hashable k = true → literal k = true →
  literal v = true → literal (VDict (dict_store d k v)) = true.
Proof.
  simpl. intros [Ha Hd]%andb_true_iff Hh Hk Hv. apply andb_true_iff. split.
  - clear Hd. induction d as [|[k' v'] d IH]; simpl in *.
    + by rewrite Hh, Hk, Hv.
    + apply andb_true_iff in Ha as [Hkv Ha].
      apply andb_true_iff in Hkv as [Hkv Hv'].
      destruct (key_eqb k' k); simpl.
      * by rewrite Hkv, Hv, Ha.
      * by rewrite Hkv, Hv', (IH Ha).
  - destruct (dict_store_keys d k v) as [->|[-> H]]; [done|].
    by apply distinct_keys_snoc.
Qed.

Lemma OrderedDict_from_literal (pairs : list (value * value)) : ∀ acc d,
  OrderedDict_from acc pairs = Ok d → literal (VDict acc) = true →
  Forall (λ kv, literal kv.1 = true ∧ literal kv.2 = true) pairs →
  literal (VDict d) = true.
Proof.
  induction pairs as [|[k v] pairs IH]; intros acc d; simpl.
  - by intros [= <-].
  - unfold dict_setitem. destruct (hashable k) eqn:Hh; [|done]. cbn.
    intros H Hacc [[Hk Hv] Hps]%Forall_cons.
    apply (IH _ _ H); [|done]. by apply dict_store_literal.
Qed.

Lemma comprehension_Forall2 {A B} (f : A → result B) (l : list A) : ∀ ys,
  comprehension f l = Ok ys → Forall2 (λ x y, f x = Ok y) l ys.
Proof.
  induction l as [|x l IH]; simpl; intros ys H; inv_result; constructor; eauto.
Qed.

Lemma visit_literal : ∀ n v,
  plain n = true → visit n = Ok v → literal v = true.
Proof.
  induction n as [b IH|id|k|s|es IH|ks vs IHk IHv|op e IH] using node_induction;
    intros v Hp Hv.
  - by apply IH.
  - simpl in Hv. unfold js_constants in Hv. repeat case_bool_decide; by inv_result.
  - simpl in Hv. by injection Hv as <-.
  - simpl in Hv. by injection Hv as <-.
  - cbn [visit] in Hv. apply fmap_Ok in Hv as (l0 & Hl0 & ->). simpl in Hp.
    apply comprehension_Forall2 in Hl0. simpl.
    induction Hl0 as [|x y l l' Hxy _ IHl]; [done|].
    apply Forall_cons in IH as [Hx Hl]. simpl in Hp.
    apply andb_true_iff in Hp as [Hpx Hpl]. simpl.
    by rewrite (Hx _ Hpx Hxy), (IHl Hl Hpl).
  - cbn [visit] in Hv. apply bind_Ok in Hv as (pairs & Hps & Hv).
    unfold OrderedDict in Hv. apply fmap_Ok in Hv as (d & Hd & ->).
    simpl in Hp. apply andb_true_iff in Hp as [Hpk Hpv].
    apply (OrderedDict_from_literal _ _ _ Hd); [done|].
    clear Hd d. revert vs pairs IHv Hpv Hps.
    induction ks as [|k ks IHks]; intros vs pairs IHv Hpv Hps.
    { simpl in Hps. injection Hps as <-. constructor. }
    destruct vs as [|v vs].
    { simpl in Hps. injection Hps as <-. constructor. }
    apply Forall_cons in IHk as [Hk Hks]. apply Forall_cons in IHv as [Hv Hvs].
    simpl in Hpk, Hpv. apply andb_true_iff in Hpk as [Hpk1 Hpk2].
    apply andb_true_iff in Hpv as [Hpv1 Hpv2].
    simpl in Hps. apply bind_Ok in Hps as ([k' v'] & Hkv & Hps).
    apply bind_Ok in Hkv as (k0 & Hk0 & Hkv). apply bind_Ok in Hkv as (v0 & Hv0 & Hkv).
    injection Hkv as <- <-.
    apply bind_Ok in Hps as (ps & Hps' & Hps). injection Hps as <-.
    constructor; [split; eauto|].
    by apply (IHks Hks Hpk2 vs).
  - done.
Qed.

Lemma parsed_literal (s : str) (v : value) :
  js_object_parse s = Ok v → literal v = true.
Proof.
  unfold js_object_parse, ast_parse. intros H.
  apply bind_Ok in H as (tree & Ht & Hv).
  destruct (starts_with is_indent s); [done|].
  apply bind_Ok in Ht as (ts & Hts & Ht).
  apply bind_Ok in Ht as ([e r] & He & Ht).
  destruct r; [|done]. injection Ht as <-.
  apply lex_plain in Hts.
  destruct (parse_plain (S (length ts))) as (Hpe & _).
  destruct (Hpe _ _ _ He Hts) as [Hpl _].
  by apply (visit_literal (Expression e)).
Qed.



(** ** Objects and the calls that return them *)






(** ** Assignments *)

Lemma max_padded (l : list value) (idx : Z) (v : value) :
  Z.of_nat (length l) ≤ idx →
  length ((l ++ replicate (Z.to_nat (idx - Z.of_nat (length l))) VNone) ++ [v])
  = max (length l) (Z.to_nat idx + 1).
Proof. intros H. rewrite !length_app, length_replicate. simpl. lia. Qed.

(** An index assignment [name[key] = value] on a list, for literals that
    evaluate. An integer or boolean key is not negative, and the statement
    never raises [IndexError]: a position within the list is overwritten;
    for a position at or after the end the list is padded, unless the
    padding is longer than [PY_SSIZE_T_MAX] ([OverflowError]) or cannot be
    made ([MemoryError]). When the statement completes, the list has the new
    value at the position and its other elements where they were, its length
    being the larger of the old length and the position plus one. Under any
    other key the statement raises [TypeError]. *)
Theorem index_assignment_on_list (mo : Match) (st : state) (a : nat)
    (l : list value) (k v : value) :
  lastgroup mo = setitem →
  js_object_parse (group mo 2) = Ok k →
  js_object_parse (group mo 3) = Ok v →
  locals st !! group mo 1 = Some a →
  heap st !! a = Some (VList l) →
  match as_index k with
  | Some idx =>
      0 ≤ idx
      ∧ (PY_SSIZE_T_MAX < idx - Z.of_nat (length l) →
         execute mo st = Raise OverflowError)
      ∧ (idx - Z.of_nat (length l) ≤ PY_SSIZE_T_MAX →
         (Z.of_nat (length l) ≤ idx ∧ execute mo st = Raise MemoryError)
         ∨ ∃ l', execute mo st = Ok (mutate a (VList l') st)
                 ∧ length l' = max (length l) (Z.to_nat idx + 1)
                 ∧ l' !! Z.to_nat idx = Some v
                 ∧ ∀ j, j ≠ Z.to_nat idx → (j < length l)%nat → l' !! j = l !! j)
  | None => execute mo st = Raise TypeError
  end.
Proof.
  intros Hk Hidx Hv Hname Hl. pose proof (deref_lookup _ _ _ Hl) as Hd.
  pose proof (parsed_literal _ _ Hidx) as Hlit.
  assert (Hex : execute mo st
    = (short ← len_le l k;
       if short : bool then
         pad ← padding l k; Ok (mutate a (VList ((l ++ pad) ++ [v])) st)
       else o ← setitem_ (VList l) k v; Ok (mutate a o st))).
  { unfold execute. rewrite Hk, Hidx, Hv. simpl.
    unfold lookup_name. rewrite Hname. simpl. by rewrite Hd. }
  rewrite Hex. clear Hex.
  assert (Hint : ∀ idx, 0 ≤ idx → as_index k = Some idx →
            len_le l k = Ok (Z.of_nat (length l) <=? idx)
            ∧ padding l k
              = (if PY_SSIZE_T_MAX <? idx - Z.of_nat (length l) then Raise OverflowError
                 else if PY_SSIZE_T_MAX / 8 <? idx - Z.of_nat (length l)
                 then Raise MemoryError
                 else Ok (replicate (Z.to_nat (idx - Z.of_nat (length l))) VNone))
            ∧ list_setitem l k v
              = if idx <? Z.of_nat (length l) then Ok (<[Z.to_nat idx := v]> l)
                else Raise IndexError).
  { intros idx H0 Hi. destruct k as [ |[]|n| | | | ]; try discriminate;
      injection Hi as <-; unfold len_le, padding, list_setitem;
      cbn [number_of]; rewrite ?Z.pow_0_r, ?Z.mul_1_r;
      (split; [done|]); (split; [done|]);
      repeat match goal with
             | |- context [?x <? ?y] => destruct (Z.ltb_spec x y); try lia
             | |- context [?x <=? ?y] => destruct (Z.leb_spec x y); try lia
             end; done. }
  destruct (as_index k) as [idx|] eqn:Hi.
  - assert (H0 : 0 ≤ idx).
    { destruct k as [ |[]|n| | | | ]; try discriminate; injection Hi as <-; try lia.
      simpl in Hlit. by apply Z.leb_le. }
    split; [done|]. destruct (Hint idx H0 eq_refl) as (-> & Hp & Hs).
    cbn [mbind result_bind].
    destruct (Z.leb_spec (Z.of_nat (length l)) idx) as [Hle|Hlt].
    + rewrite Hp. split.
      * intros Hbig.
        by destruct (Z.ltb_spec PY_SSIZE_T_MAX (idx - Z.of_nat (length l))); [|lia].
      * intros Hfits.
        destruct (Z.ltb_spec PY_SSIZE_T_MAX (idx - Z.of_nat (length l))); [lia|].
        destruct (PY_SSIZE_T_MAX / 8 <? idx - Z.of_nat (length l)); [by left|].
        right. cbn [mbind result_bind]. eexists. split; [done|].
        split; [by apply max_padded|]. split.
        -- rewrite <- app_assoc. by apply padded_lookup.
        -- intros j _ Hj. rewrite <- app_assoc. by apply lookup_app_l.
    + split; [unfold PY_SSIZE_T_MAX; lia|]. intros _. right.
      cbn [setitem_ fmap result_fmap mbind result_bind]. rewrite Hs.
      destruct (Z.ltb_spec idx (Z.of_nat (length l))); [|lia].
      cbn [fmap result_fmap mbind result_bind].
      eexists. split; [done|]. split; [rewrite length_insert; lia|].
      split.
      * apply list_lookup_insert_eq. lia.
      * intros j Hj _. by apply list_lookup_insert_ne.
  - destruct k as [ |b|n|m s|s|l0|d0]; try discriminate; try done.
    unfold len_le. simpl.
    destruct (Z.of_nat (length l) * 10 ^ Z.of_nat s <=? m); done.
Qed.

Lemma index_assignment_on_list_witness :
  ∃ l', execute sample_setitem sample_state = Ok (mutate 0 (VList l') sample_state)
        ∧ length l' = max 0 (Z.to_nat 5 + 1)
        ∧ l' !! Z.to_nat 5 = Some (VInt 1).
Proof.
  destruct (index_assignment_on_list sample_setitem sample_state 0 [] (VInt 5) (VInt 1)
              eq_refl eq_refl eq_refl eq_refl eq_refl) as (_ & _ & H).
  destruct (H ltac:(vm_compute; discriminate)) as [[_ H']|(l' & H1 & H2 & H3 & _)].
  - vm_compute in H'. discriminate H'.
  - exists l'. split; [exact H1|]. split; [exact H2|exact H3].
Defined.

Lemma key_eqb_VStr (k : value) (s : str) :
  key_eqb k (VStr s) = true → k = VStr s.
Proof.
  destruct k as [ |b|n|m e|x|l|d]; try done; unfold key_eqb; simpl;
    try (by destruct b).
  by intros ->%bool_decide_eq_true.
Qed.

Lemma key_eqb_VStr_refl (s : str) : key_eqb (VStr s) (VStr s) = true.
Proof. unfold key_eqb. simpl. by apply bool_decide_eq_true. Qed.

Lemma key_eqb_VStr_ne (s : str) (k : value) :
  k ≠ VStr s → key_eqb (VStr s) k = false.
Proof.
  intros Hne. destruct k as [ |b|n|m e|x|l|d]; try done; unfold key_eqb; simpl;
    try (by destruct b).
  apply bool_decide_eq_false. by intros ->.
Qed.

Lemma dict_get_store_field (d : list (value * value)) (f : str) (v : value) :
  dict_get (dict_store d (VStr f) v) (VStr f) = Some v
  ∧ ∀ k, k ≠ VStr f → dict_get (dict_store d (VStr f) v) k = dict_get d k.
Proof.
  induction d as [|[k' v'] d [IH1 IH2]]; simpl.
  - rewrite key_eqb_VStr_refl. split; [done|]. intros k Hk.
    by rewrite key_eqb_VStr_ne.
  - destruct (key_eqb k' (VStr f)) eqn:Hk'; simpl.
    + apply key_eqb_VStr in Hk' as ->. rewrite key_eqb_VStr_refl. split; [done|].
      intros k Hk. by rewrite key_eqb_VStr_ne.
    + rewrite Hk'. split; [done|]. intros k Hk. by rewrite IH2.
Qed.

(** A field assignment [name.field = value] for a literal that evaluates.
    On a dictionary, [field] then reads as the new value, every other key
    reads as before, the keys that were there keep their order and a new
    field goes last. On anything else (a list, a string, a number, [None])
    the statement raises [TypeError]. *)
Theorem field_assignment (mo : Match) (st : state) (a : nat) (o v : value) :
  lastgroup mo = setattr →
  js_object_parse (group mo 3) = Ok v →
  locals st !! group mo 1 = Some a →
  heap st !! a = Some o →
  match o with
  | VDict d =>
      ∃ d', execute mo st = Ok (mutate a (VDict d') st)
            ∧ dict_get d' (VStr (group mo 2)) = Some v
            ∧ (∀ k, k ≠ VStr (group mo 2) → dict_get d' k = dict_get d k)
            ∧ (map fst d' = map fst d
               ∨ map fst d' = map fst d ++ [VStr (group mo 2)])
  | _ => execute mo st = Raise TypeError
  end.
Proof.
  intros Hk Hv Hname Ho. pose proof (deref_lookup _ _ _ Ho) as Hd.
  assert (Hex : execute mo st
    = (o' ← setitem_ o (VStr (group mo 2)) v; Ok (mutate a o' st))).
  { unfold execute. rewrite Hk, Hv. simpl.
    unfold lookup_name. rewrite Hname. simpl. by rewrite Hd. }
  rewrite Hex. destruct o as [ |b|n|m s|s|l|d]; try done.
  exists (dict_store d (VStr (group mo 2)) v). split; [done|].
  destruct (dict_get_store_field d (group mo 2) v) as [H1 H2].
  split; [done|]. split; [done|].
  destruct (dict_store_keys d (VStr (group mo 2)) v) as [->|[-> _]]; [by left | by right].
Qed.

Lemma field_assignment_witness :
  ∃ d', execute sample_setattr sample_record_state
        = Ok (mutate 0 (VDict d') sample_record_state)
        ∧ dict_get d' (VStr (py "score")) = Some (VFloat 1 0)
        ∧ (∀ k, k ≠ VStr (py "score")
             → dict_get d' k
               = dict_get [(VStr (py "score"), VFloat 0 0); (VStr (py "status"), VNone)] k)
        ∧ (map fst d' = [VStr (py "score"); VStr (py "status")]
           ∨ map fst d' = [VStr (py "score"); VStr (py "status")] ++ [VStr (py "score")]).
Proof.
  apply (field_assignment sample_setattr sample_record_state 0
           (VDict [(VStr (py "score"), VFloat 0 0); (VStr (py "status"), VNone)])
           (VFloat 1 0));
    vm_compute; reflexivity.
Defined.
(** * The requests *)

Lemma io_bind_Done {A B} (m : io A) (f : A → io B) session b session' :
  (m ≫= f) session = (Done b, session') →
  ∃ a session1, m session = (Done a, session1) ∧ f a session1 = (Done b, session').
Proof.
  unfold mbind, io_bind. destruct (m session) as [[a|e] s1]; [eauto|done].
Qed.

Lemma io_bind_eq {A B} (m : io A) (f : A → io B) session a session1 :
  m session = (Done a, session1) → (m ≫= f) session = f a session1.
Proof. unfold mbind, io_bind. by intros ->. Qed.

Lemma io_bind_Fail {A B} (m : io A) (f : A → io B) session e session1 :
  m session = (Fail e, session1) → (m ≫= f) session = (Fail e, session1).
Proof. unfold mbind, io_bind. by intros ->. Qed.

Section requests_properties.

Variable get_cookie : list request → str → str → outcome value.
Variable respond : list request → request → outcome str.

(** ** The script session id *)

(** [get_script_session_id] asks the server at most once: when it returns
    an id, the id is kept in the session, a further call returns the same
    id and leaves the session as it is, and the call has made no request or
    the one request for [engine.js]. An id it computes ends in [42]. *)
Theorem script_session_id_is_kept (session session' : BlackboardSession) (id : str) :
  get_script_session_id respond session = (Done id, session') →
  _script_session_id session' = Some id
  ∧ get_script_session_id respond session' = (Done id, session')
  ∧ course_id session' = course_id session
  ∧ (_script_session_id session = Some id ∧ session' = session
     ∨ _script_session_id session = None
       ∧ sent session' = sent session ++ [{| verb := GET; url := engine_js; data := ∅ |}]
       ∧ ∃ orig_id, id = orig_id ++ py "42").
Proof.
  unfold get_script_session_id at 1.
  destruct (_script_session_id session) as [id0|] eqn:Hid.
  - intros [= <- <-]. split; [done|]. split.
    + unfold get_script_session_id. by rewrite Hid.
    + split; [done|]. by left.
  - intros H. apply io_bind_Done in H as (text & s1 & Hs & H).
    unfold send in Hs. injection Hs as Hr <-.
    cbn in H. injection H as <- <-. cbn. split; [done|]. split; [done|].
    split; [done|]. right. split; [done|]. split; [done|]. by eexists.
Qed.

(** ** The form data *)

Lemma digits_before_dash (a b x y : str) :
  forallb is_digit a = true → forallb is_digit b = true →
  a ++ "-"%char :: x = b ++ "-"%char :: y → a = b ∧ x = y.
Proof.
  revert b. induction a as [|c a IH]; intros [|d b] Ha Hb H; simpl in *.
  - by injection H as <-.
  - injection H as <- _. by apply andb_true_iff in Hb as [? _].
  - injection H as -> _. by apply andb_true_iff in Ha as [? _].
  - injection H as <- H'. apply andb_true_iff in Ha as [_ Ha].
    apply andb_true_iff in Hb as [_ Hb]. destruct (IH _ Ha Hb H') as [-> ->]. done.
Qed.

Lemma call_key_inj (i j : Z) (k k' : string) :
  0 ≤ i → 0 ≤ j → call_key i k = call_key j k' → i = j ∧ py k = py k'.
Proof.
  intros Hi Hj. unfold call_key, repr_int, sign.
  destruct (Z.ltb_spec i 0); [lia|]. destruct (Z.ltb_spec j 0); [lia|].
  rewrite !Z.abs_eq by lia. simpl.
  destruct (nat_digits_spec i Hi) as (Hdi & Hvi & _).
  destruct (nat_digits_spec j Hj) as (Hdj & Hvj & _).
  intros [= Heq]. apply digits_before_dash in Heq as [E ->]; [|done..].
  split; [|done]. rewrite <- Hvi, <- Hvj. by rewrite E.
Qed.

Lemma update_call_other (i : Z) (call_data : list (string * value))
    (payload : gmap str value) (k : str) :
  (∀ name, k ≠ call_key i name) →
  update_call i call_data payload !! k = payload !! k.
Proof.
  intros Hk. unfold update_call. revert payload.
  induction call_data as [|[name v] cd IH]; intros payload; [done|].
  simpl. rewrite IH. apply lookup_insert_ne. intros E. by apply (Hk name).
Qed.

Lemma add_calls_other (raw : str) (attempts : list (str * str)) : ∀ i payload k,
  (∀ j name, i ≤ j → k ≠ call_key j name) →
  add_calls raw i attempts payload !! k = payload !! k.
Proof.
  induction attempts as [|att rest IH]; intros i payload k Hk; [done|].
  cbn [add_calls]. rewrite IH by (intros; apply Hk; lia).
  apply update_call_other. intros name. apply Hk. lia.
Qed.

Lemma attempt_call_lookup (raw : str) (i : Z) (attempt : str * str)
    (payload : gmap str value) :
  0 ≤ i →
  let p := update_call i (attempt_call raw i attempt) payload in
  p !! call_key i "id" = Some (VInt i)
  ∧ p !! call_key i "param1" = Some (VStr (py "string:" ++ attempt.1))
  ∧ p !! call_key i "param2" = Some (VStr (py "string:" ++ attempt.2)).
Proof.
  intros Hi. unfold update_call, attempt_call. simpl.
  assert (Hne : ∀ a b : string, py a ≠ py b → call_key i a ≠ call_key i b).
  { intros a b Hab E. by apply call_key_inj in E as [_ E]. }
  repeat split.
  - rewrite !lookup_insert_ne by (by apply Hne). by rewrite lookup_insert_eq.
  - rewrite !lookup_insert_ne by (by apply Hne). by rewrite lookup_insert_eq.
  - by rewrite lookup_insert_eq.
Qed.

Lemma add_calls_lookup (raw : str) (attempts : list (str * str)) :
  ∀ i payload t attempt,
  0 ≤ i → attempts !! t = Some attempt →
  let p := add_calls raw i attempts payload in
  let j := i + Z.of_nat t in
  p !! call_key j "id" = Some (VInt j)
  ∧ p !! call_key j "param1" = Some (VStr (py "string:" ++ attempt.1))
  ∧ p !! call_key j "param2" = Some (VStr (py "string:" ++ attempt.2)).
Proof.
  induction attempts as [|att rest IH]; intros i payload t attempt Hi Ht; [done|].
  destruct t as [|t]; simpl in Ht.
  - injection Ht as ->. cbn [add_calls Z.of_nat]. cbv zeta. rewrite Z.add_0_r.
    rewrite !add_calls_other
      by (intros j name Hj E; apply call_key_inj in E as [E _]; lia).
    by apply attempt_call_lookup.
  - cbn [add_calls]. cbv zeta.
    replace (i + Z.of_nat (S t)) with ((i + 1) + Z.of_nat t) by lia.
    apply IH; [lia|done].
Qed.

Lemma head_key_not_call (k : str) (i : Z) (name : string) :
  0 ≤ i → starts_with is_digit (tail k) = false → k ≠ call_key i name.
Proof.
  intros Hi Hk ->. unfold call_key, repr_int, sign in Hk.
  destruct (Z.ltb_spec i 0); [lia|]. rewrite Z.abs_eq in Hk by lia. simpl in Hk.
  destruct (nat_digits_head i Hi) as (c & ds & E & Hc). rewrite E in Hk.
  simpl in Hk. congruence.
Qed.

Lemma results_in_order_Done (results : gmap Z (list (item value))) (n : nat)
    (rs : list (list (item value))) :
  results_in_order results n = Done rs →
  length rs = n ∧ ∀ i, (i < n)%nat → ∃ x, rs !! i = Some x ∧ results !! Z.of_nat i = Some x.
Proof.
  unfold results_in_order.
  assert (H : ∀ ks rs,
    (fix go (ks : list nat) : outcome (list (list (item value))) :=
       match ks with
       | [] => Done []
       | k :: ks' =>
           match results !! Z.of_nat k with
           | Some r => match go ks' with
                       | Done rs => Done (r :: rs)
                       | Fail e => Fail e
                       end
           | None => Fail (KeyErrorInt (Z.of_nat k))
           end
       end) ks = Done rs →
    Forall2 (λ k x, results !! Z.of_nat k = Some x) ks rs).
  { induction ks as [|k ks IH]; intros rs0; [by intros [= <-]; constructor|].
    destruct (results !! Z.of_nat k) as [r|] eqn:Hr; [|done].
    match goal with |- match ?g with _ => _ end = _ → _ => destruct g as [rs'|] eqn:Hg end;
      [|done].
    intros [= <-]. constructor; [done|]. by apply IH. }
  intros Hrs. apply H in Hrs. split.
  - apply Forall2_length in Hrs. by rewrite length_seq in Hrs.
  - intros i Hi. pose proof (Forall2_lookup_l _ _ _ i i Hrs) as (x & Hx & Hr).
    { by apply lookup_seq_lt. }
    eauto.
Qed.

(** ** One request *)

(** When [dwr_get_attempts_info_single_request] returns, it returns one
    entry for each attempt, in the order of the attempts, and the last
    request made is the [POST] whose form data count the attempts and give
    attempt number [i] under the keys [c<i>-id], [c<i>-param1] and
    [c<i>-param2]; entry [i] of what is returned is what the response to
    that request holds for call id [i]. *)
Theorem single_request_reads_where_it_asked (attempts : list (str * str))
    (session session' : BlackboardSession) (rs : list (list (item value))) :
  dwr_get_attempts_info_single_request get_cookie respond attempts session
  = (Done rs, session') →
  length rs = length attempts
  ∧ ∃ before r text results,
      sent session' = before ++ [r]
      ∧ verb r = POST ∧ url r = getAttemptsInfo_url
      ∧ data r !! py "callCount" = Some (VInt (len attempts))
      ∧ respond before r = Done text
      ∧ parse_js text = Ok results
      ∧ ∀ i student handin, attempts !! i = Some (student, handin) →
          data r !! call_key (Z.of_nat i) "id" = Some (VInt (Z.of_nat i))
          ∧ data r !! call_key (Z.of_nat i) "param1" = Some (VStr (py "string:" ++ student))
          ∧ data r !! call_key (Z.of_nat i) "param2" = Some (VStr (py "string:" ++ handin))
          ∧ ∃ x, rs !! i = Some x ∧ results !! Z.of_nat i = Some x.
Proof.
  unfold dwr_get_attempts_info_single_request. intros H.
  apply io_bind_Done in H as (session_id & s1 & Hc & H).
  unfold cookie in Hc. injection Hc as Hc <-.
  apply io_bind_Done in H as (ssid & s2 & Hs & H).
  apply io_bind_Done in H as (raw & s3 & Hraw & H).
  unfold lift in Hraw. destruct (course_id_raw (course_id session)) as [raw'|]; [|done].
  injection Hraw as <- <-.
  apply io_bind_Done in H as (text & s4 & Hsend & H).
  unfold send in Hsend. injection Hsend as Hsend <-.
  apply io_bind_Done in H as (results & s5 & Hp & H).
  unfold parse_response in Hp.
  destruct (parse_js text) as [results'|[ |m| | | | | ]] eqn:Hparse; try done.
  injection Hp as <- <-. unfold now in H. injection H as H <-.
  apply results_in_order_Done in H as [Hlen Hrs]. split; [done|].
  eexists _, _, text, results'. split; [reflexivity|]. simpl.
  split; [done|]. split; [done|]. split.
  { rewrite add_calls_other by (intros; by apply head_key_not_call).
    unfold payload_head. by rewrite lookup_insert_eq. }
  split; [done|]. split; [done|]. intros i student handin Hi.
  pose proof (add_calls_lookup raw' attempts 0
                (payload_head (len attempts) (course_id session) session_id ssid)
                i (student, handin) ltac:(lia) Hi) as (H1 & H2 & H3).
  simpl in H1, H2, H3. split; [done|]. split; [done|]. split; [done|].
  apply Hrs. by eapply lookup_lt_Some.
Qed.

(** ** The batches *)

Lemma chunks_enough {A} (n : nat) : ∀ fuel fuel' (l : list A),
  (1 ≤ n)%nat → (length l ≤ fuel)%nat → (length l ≤ fuel')%nat →
  chunks fuel n l = chunks fuel' n l.
Proof.
  induction fuel as [|fuel IH]; intros fuel' l Hn Hf Hf'.
  - destruct l; [|simpl in Hf; lia]. by destruct fuel'.
  - destruct l as [|x l]; [by destruct fuel'|].
    destruct fuel' as [|fuel']; [simpl in Hf'; lia|].
    cbn [chunks]. f_equal. apply IH; [done| |];
      rewrite length_drop; simpl in *; lia.
Qed.

Lemma batches_cons {A} (n : nat) (l : list A) :
  (1 ≤ n)%nat → l ≠ [] → batches n l = take n l :: batches n (drop n l).
Proof.
  intros Hn Hl. unfold batches. destruct l as [|x l]; [done|].
  cbn [length chunks]. f_equal. apply chunks_enough; [done| |done].
  rewrite length_drop. simpl. lia.
Qed.

Lemma batches_spec {A} (n : nat) : ∀ (fuel : nat) (l : list A),
  (1 ≤ n)%nat → (length l ≤ fuel)%nat →
  concat (batches n l) = l
  ∧ Forall (λ b, (1 ≤ length b ≤ n)%nat) (batches n l).
Proof.
  induction fuel as [|fuel IH]; intros l Hn Hf.
  - destruct l; [|simpl in Hf; lia]. split; [done|constructor].
  - destruct l as [|x l]; [split; [done|constructor]|].
    rewrite batches_cons by done.
    destruct (IH (drop n (x :: l)) Hn) as [Hc Hall].
    { rewrite length_drop. simpl in *. lia. }
    split.
    + cbn [concat]. rewrite Hc. apply take_drop.
    + constructor; [|done]. rewrite length_take. simpl. lia.
Qed.

Lemma range_batches (n step : Z) :
  0 < step → 0 ≤ n →
  range 0 n step
  = Done (map (λ q : nat, Z.of_nat q * step)
            (List.seq 0 (Z.to_nat ((n + step - 1) / step)))).
Proof.
  intros Hs Hn. unfold range.
  destruct (Z.eqb_spec step 0); [lia|]. destruct (Z.ltb_spec 0 step); [|lia].
  f_equal. f_equal. f_equal. destruct (Z.leb_spec n 0).
  - assert (n = 0) as -> by lia. simpl. rewrite Z.div_small by lia. done.
  - f_equal. replace (n + step - 1) with ((n - 0 - 1) + 1 * step) by lia.
    rewrite Z.div_add by lia. done.
Qed.

Lemma getslice_take {A} (l : list A) (i step : Z) :
  0 ≤ i → 0 < step →
  getslice l i (Z.min (len l) (i + step))
  = take (Z.to_nat step) (drop (Z.to_nat i) l).
Proof.
  intros Hi Hs. unfold getslice, len.
  destruct (Z.min_spec (Z.of_nat (length l)) (i + step)) as [[Hlt ->]|[Hle ->]].
  - rewrite !take_ge; [done| |]; rewrite length_drop; lia.
  - f_equal. lia.
Qed.

Lemma batch_count_cons {A} (l : list A) (step : Z) :
  0 < step → l ≠ [] →
  Z.to_nat ((len l + step - 1) / step)
  = S (Z.to_nat ((len (drop (Z.to_nat step) l) + step - 1) / step)).
Proof.
  intros Hs Hl. unfold len. rewrite length_drop.
  assert (Hn : 1 ≤ Z.of_nat (length l)) by (destruct l; [done|simpl; lia]).
  set (n := Z.of_nat (length l)) in *.
  destruct (Z.le_gt_cases n step) as [Hle|Hgt].
  - replace (Z.of_nat (length l - Z.to_nat step)) with 0 by lia.
    rewrite (Z.div_small (0 + step - 1)) by lia.
    replace (n + step - 1) with ((n - 1) + 1 * step) by lia.
    rewrite Z.div_add, Z.div_small by lia. done.
  - replace (Z.of_nat (length l - Z.to_nat step)) with (n - step) by lia.
    replace (n + step - 1) with ((n - step + step - 1) + 1 * step) by lia.
    rewrite Z.div_add by lia.
    assert (0 ≤ (n - step + step - 1) / step) by (apply Z.div_pos; lia). lia.
Qed.

Lemma batch_loop_batches (attempts : list (str * str)) (step : Z) :
  0 < step → ∀ (fuel : nat) l pre (q0 : nat) acc session,
  attempts = pre ++ l → length pre = (q0 * Z.to_nat step)%nat →
  (length l ≤ fuel)%nat →
  batch_loop get_cookie respond attempts step
    (map (λ q : nat, Z.of_nat (q0 + q) * step)
       (List.seq 0 (Z.to_nat ((len l + step - 1) / step))))
    acc session
  = (rest ← requests_in_turn (dwr_get_attempts_info_single_request get_cookie respond)
             (batches (Z.to_nat step) l);
     mret (acc ++ rest)) session.
Proof.
  intros Hs. induction fuel as [|fuel IH]; intros l pre q0 acc session Ha Hp Hf.
  - destruct l as [|x l]; [|simpl in Hf; lia].
    unfold len. simpl. rewrite Z.div_small by lia. simpl.
    unfold mbind, io_bind, mret, io_ret. by rewrite app_nil_r.
  - destruct l as [|x l].
    { unfold len. simpl. rewrite Z.div_small by lia. simpl.
      unfold mbind, io_bind, mret, io_ret. by rewrite app_nil_r. }
    rewrite batches_cons by (done || lia).
    rewrite (batch_count_cons (x :: l) step) by done.
    cbn [List.seq map batch_loop requests_in_turn].
    rewrite Nat.add_0_r.
    assert (Hslice : getslice attempts (Z.of_nat q0 * step)
                       (Z.min (len attempts) (Z.of_nat q0 * step + step))
                     = take (Z.to_nat step) (x :: l)).
    { rewrite getslice_take by lia. f_equal.
      replace (Z.to_nat (Z.of_nat q0 * step)) with (length pre) by lia.
      rewrite Ha. by rewrite drop_app_length. }
    rewrite Hslice. rewrite <- seq_shift, map_map.
    rewrite (map_ext (λ x, Z.of_nat (q0 + S x) * step)
               (λ q : nat, Z.of_nat (S q0 + q) * step))
      by (intros; f_equal; lia).
    specialize (IH (drop (Z.to_nat step) (x :: l)) (pre ++ take (Z.to_nat step) (x :: l))
                   (S q0)).
    unfold mbind, io_bind in *.
    destruct (dwr_get_attempts_info_single_request get_cookie respond
                (take (Z.to_nat step) (x :: l)) session) as [[rs|e] s1]; [|done].
    destruct (decide (length (x :: l) ≤ Z.to_nat step)%nat) as [Hshort|Hlong].
    + rewrite drop_ge by done. unfold len. cbn [length Z.of_nat].
      rewrite Z.div_small by lia.
      cbn. unfold mret, io_ret. by rewrite app_nil_r.
    + rewrite IH.
      * destruct (requests_in_turn _ _ s1) as [[rest|e] s2]; [|done].
        unfold mret, io_ret. by rewrite app_assoc.
      * rewrite <- app_assoc, take_drop. done.
      * rewrite length_app, length_take. lia.
      * rewrite length_drop. simpl in *. lia.
Qed.

Lemma single_request_length (attempts : list (str * str))
    (session session' : BlackboardSession) (rs : list (list (item value))) :
  dwr_get_attempts_info_single_request get_cookie respond attempts session
  = (Done rs, session') →
  length rs = length attempts.
Proof.
  unfold dwr_get_attempts_info_single_request. intros H.
  apply io_bind_Done in H as (session_id & s1 & _ & H).
  apply io_bind_Done in H as (ssid & s2 & _ & H).
  apply io_bind_Done in H as (raw & s3 & _ & H).
  apply io_bind_Done in H as (text & s4 & _ & H).
  apply io_bind_Done in H as (results & s5 & _ & H).
  unfold now in H. injection H as H _.
  by apply results_in_order_Done in H as [? _].
Qed.

(** With a positive batch size, [dwr_get_attempts_info] makes the requests
    of [dwr_get_attempts_info_single_request] for consecutive batches of the
    attempts, in order, and returns their answers one after the other. Every
    batch has at least one attempt and at most [batch_size], the batches
    together are the attempts, and what is returned has one entry for each
    attempt. *)
Theorem attempts_are_asked_in_batches (attempts : list (str * str)) (batch_size : Z) :
  0 < batch_size →
  (∀ session,
     dwr_get_attempts_info get_cookie respond attempts batch_size session
     = requests_in_turn (dwr_get_attempts_info_single_request get_cookie respond)
         (batches (Z.to_nat batch_size) attempts) session)
  ∧ concat (batches (Z.to_nat batch_size) attempts) = attempts
  ∧ Forall (λ b, (1 ≤ length b ≤ Z.to_nat batch_size)%nat)
      (batches (Z.to_nat batch_size) attempts)
  ∧ ∀ session rs session',
      dwr_get_attempts_info get_cookie respond attempts batch_size session
      = (Done rs, session') →
      length rs = length attempts.
Proof.
  intros Hs.
  assert (Heq : ∀ session,
     dwr_get_attempts_info get_cookie respond attempts batch_size session
     = requests_in_turn (dwr_get_attempts_info_single_request get_cookie respond)
         (batches (Z.to_nat batch_size) attempts) session).
  { intros session. unfold dwr_get_attempts_info.
    rewrite range_batches by (unfold len; lia).
    unfold mbind at 1, io_bind, now.
    rewrite (batch_loop_batches attempts batch_size Hs (length attempts) attempts [] 0 []);
      [|done|done|done].
    unfold mbind, io_bind, mret, io_ret.
    by destruct (requests_in_turn _ _ session) as [[rest|e] s2]. }
  destruct (batches_spec (Z.to_nat batch_size) (length attempts) attempts) as [Hc Hall];
    [lia|done|].
  split; [done|]. split; [done|]. split; [done|].
  intros session rs session'. rewrite Heq. rewrite <- Hc at 2.
  clear Heq Hc Hall. revert session rs.
  induction (batches (Z.to_nat batch_size) attempts) as [|b bs IH]; intros session rs H.
  - by injection H as <- <-.
  - cbn [requests_in_turn] in H.
    apply io_bind_Done in H as (rs1 & s1 & H1 & H).
    apply io_bind_Done in H as (rest & s2 & H2 & H). injection H as <- <-.
    apply single_request_length in H1.
    cbn [concat]. rewrite !length_app, H1. f_equal. by eapply IH.
Qed.

(** With a batch size that is not positive, [dwr_get_attempts_info] makes no
    request: a batch size of zero raises the [ValueError] of [range], and a
    negative one returns the empty list, whatever the attempts. *)
Theorem batch_size_not_positive (attempts : list (str * str)) (batch_size : Z)
    (session : BlackboardSession) :
  batch_size ≤ 0 →
  dwr_get_attempts_info get_cookie respond attempts batch_size session
  = (if batch_size =? 0 then Fail RangeStepZero else Done [], session).
Proof.
  intros Hb. unfold dwr_get_attempts_info, range.
  destruct (Z.eqb_spec batch_size 0) as [->|Hne]; [done|].
  destruct (Z.ltb_spec 0 batch_size); [lia|].
  assert (0 <=? len attempts = true) as -> by (apply Z.leb_le; unfold len; lia).
  done.
Qed.

(** ** Failures of one request *)

(** A request that is made and answered. When the decoder raises
    [ValueError] on the response, the request raises [ParserError] with the
    message and the response; another exception of the decoder ([KeyError]
    of an undeclared name, [SyntaxError], [TypeError]) is passed on as it
    is. When the response decodes but has no data for the call id of some
    attempt, the request raises the [KeyError] of the first such id. In each
    case nothing is returned for the other attempts. *)
Theorem single_request_failures (attempts : list (str * str))
    (session : BlackboardSession) (session_id : value) (script_session_id raw text : str) :
  let r := {| verb := POST; url := getAttemptsInfo_url;
              data := add_calls raw 0 attempts
                        (payload_head (len attempts) (course_id session)
                           session_id script_session_id) |} in
  let session' := {| course_id := course_id session;
                     _script_session_id := Some script_session_id;
                     sent := sent session ++ [r] |} in
  get_cookie (sent session) (py "JSESSIONID") (py "/webapps/gradebook") = Done session_id →
  _script_session_id session = Some script_session_id →
  course_id_raw (course_id session) = Ok raw →
  respond (sent session) r = Done text →
  (∀ e, parse_js text = Raise e →
     dwr_get_attempts_info_single_request get_cookie respond attempts session
     = (Fail (match e with
              | ValueError msg => ParserError msg text
              | _ => Exn e
              end), session'))
  ∧ (∀ results i,
       parse_js text = Ok results → (i < length attempts)%nat →
       results !! Z.of_nat i = None →
       (∀ j, (j < i)%nat → is_Some (results !! Z.of_nat j)) →
       dwr_get_attempts_info_single_request get_cookie respond attempts session
       = (Fail (KeyErrorInt (Z.of_nat i)), session')).
Proof.
  intros r session' Hc Hs Hraw Hr.
  assert (Hrun : dwr_get_attempts_info_single_request get_cookie respond attempts session
    = (results ← parse_response text;
       now (results_in_order results (length attempts))) session').
  { unfold dwr_get_attempts_info_single_request, cookie.
    unfold mbind at 1, io_bind. rewrite Hc.
    unfold mbind at 1, io_bind. unfold get_script_session_id. rewrite Hs.
    unfold mbind at 1, io_bind. rewrite Hraw. cbn [lift mret io_ret].
    unfold mbind at 1, io_bind. unfold send. fold r. rewrite Hr.
    by rewrite Hs. }
  rewrite Hrun. split.
  - intros e He. unfold parse_response. rewrite He. by destruct e.
  - intros results i Hp Hi Hnone Hbefore. unfold parse_response. rewrite Hp.
    unfold mbind, io_bind, mret, io_ret, now. f_equal.
    unfold results_in_order.
    assert (length attempts = i + S (length attempts - S i))%nat as -> by lia.
    generalize (length attempts - S i)%nat. intros m.
    rewrite seq_app. cbn [List.seq]. rewrite Nat.add_0_l.
    assert (Hpre : Forall (λ k, is_Some (results !! Z.of_nat k)) (List.seq 0 i)).
    { apply Forall_forall. intros k Hk. apply Hbefore.
      apply list_elem_of_In, in_seq in Hk. lia. }
    induction Hpre as [|k ks [x Hx] _ IH]; cbn [app].
    + by rewrite Hnone.
    + rewrite Hx. by rewrite IH.
Qed.

(** ** The groups *)

(** When [dwr_get_groups] returns, its last request is the [POST] of one
    call, with id [0], method [getGroups] and the raw course id, and it
    returns what the response to that request holds for call id [0]. *)
Theorem groups_are_the_answer_to_call_0 (session session' : BlackboardSession)
    (x : list (item value)) :
  dwr_get_groups get_cookie respond session = (Done x, session') →
  ∃ before r raw text results,
    sent session' = before ++ [r]
    ∧ verb r = POST ∧ url r = getGroups_url
    ∧ course_id_raw (course_id session) = Ok raw
    ∧ data r !! py "callCount" = Some (VInt 1)
    ∧ data r !! call_key 0 "id" = Some (VInt 0)
    ∧ data r !! call_key 0 "methodName" = Some (VStr (py "getGroups"))
    ∧ data r !! call_key 0 "param0" = Some (VStr (py "string:" ++ raw))
    ∧ respond before r = Done text
    ∧ parse_js text = Ok results
    ∧ results !! 0 = Some x.
Proof.
  unfold dwr_get_groups. intros H.
  apply io_bind_Done in H as (session_id & s1 & Hc & H).
  unfold cookie in Hc. injection Hc as Hc <-.
  apply io_bind_Done in H as (ssid & s2 & Hs & H).
  apply io_bind_Done in H as (raw & s3 & Hraw & H).
  unfold lift in Hraw. destruct (course_id_raw (course_id session)) as [raw'|]; [|done].
  injection Hraw as <- <-.
  apply io_bind_Done in H as (text & s4 & Hsend & H).
  unfold send in Hsend. injection Hsend as Hsend <-.
  apply io_bind_Done in H as (results & s5 & Hp & H).
  unfold parse_response in Hp.
  destruct (parse_js text) as [results'|[ |m| | | | | ]] eqn:Hparse; try done.
  injection Hp as <- <-.
  destruct (results' !! 0) as [x'|] eqn:Hx; [|done]. injection H as <- <-.
  eexists _, _, raw', text, results'. split; [reflexivity|]. cbn [verb url data].
  assert (Hne : ∀ a b : string, py a ≠ py b → call_key 0 a ≠ call_key 0 b).
  { intros a b Hab E. by apply call_key_inj in E as [_ E]. }
  split; [done|]. split; [done|]. split; [done|]. split.
  { rewrite !lookup_insert_ne
      by (intros E; symmetry in E; revert E; by apply head_key_not_call).
    unfold payload_head. by rewrite lookup_insert_eq. }
  split; [|split]; [| |by split].
  - rewrite lookup_insert_ne by (by apply Hne). by rewrite lookup_insert_eq.
  - rewrite !lookup_insert_ne by (by apply Hne). by rewrite lookup_insert_eq.
Qed.

End requests_properties.

(** ** Examples of requests *)

Lemma script_session_id_is_kept_witness :
  ∃ session',
    get_script_session_id sample_respond sample_session = (Done (py "ABC42"), session')
    ∧ _script_session_id session' = Some (py "ABC42")
    ∧ get_script_session_id sample_respond session' = (Done (py "ABC42"), session').
Proof.
  eexists. split; [vm_compute; reflexivity|].
  edestruct (script_session_id_is_kept sample_respond sample_session) as (H1 & H2 & _).
  - vm_compute. reflexivity.
  - split; [exact H1 | exact H2].
Defined.

Lemma single_request_reads_where_it_asked_witness :
  let out := dwr_get_attempts_info_single_request sample_get_cookie sample_respond
               sample_attempts sample_session in
  out.1 = Done [ [Plain (VList [VInt 0])]; [Plain (VList [VInt 1])];
                 [Plain (VList [VInt 2])] ]
  ∧ ∃ before r,
      sent out.2 = before ++ [r]
      ∧ data r !! call_key 2 "param1" = Some (VStr (py "string:_101_1"))
      ∧ data r !! call_key 2 "param2" = Some (VStr (py "string:_21510_1")).
Proof.
  intros out. split; [vm_compute; reflexivity|].
  edestruct (single_request_reads_where_it_asked sample_get_cookie sample_respond
               sample_attempts sample_session out.2
               [ [Plain (VList [VInt 0])]; [Plain (VList [VInt 1])];
                 [Plain (VList [VInt 2])] ])
    as (_ & before & r & text & results & Hs & _ & _ & _ & _ & _ & H).
  - vm_compute. reflexivity.
  - exists before, r. split; [exact Hs|].
    destruct (H 2%nat (py "_101_1") (py "_21510_1") eq_refl) as (_ & H1 & H2 & _).
    split; [exact H1 | exact H2].
Defined.

Lemma attempts_are_asked_in_batches_witness :
  0 < 2
  ∧ batches (Z.to_nat 2) sample_attempts
    = [ [(py "_101_1", py "_17773_1"); (py "_102_1", py "_17773_1")];
        [(py "_101_1", py "_21510_1")] ]
  ∧ ∀ session rs session',
      dwr_get_attempts_info sample_get_cookie sample_respond sample_attempts 2 session
      = (Done rs, session') →
      length rs = length sample_attempts.
Proof.
  split; [lia|]. split; [reflexivity|].
  apply (attempts_are_asked_in_batches sample_get_cookie sample_respond sample_attempts 2).
  lia.
Defined.

Lemma batch_size_not_positive_witness :
  dwr_get_attempts_info sample_get_cookie sample_respond sample_attempts (-20)
    sample_session
  = (Done [], sample_session).
Proof.
  apply (batch_size_not_positive sample_get_cookie sample_respond sample_attempts (-20)
           sample_session).
  lia.
Defined.

Lemma single_request_failures_witness :
  (∃ session',
     dwr_get_attempts_info_single_request sample_get_cookie failing_respond
       sample_attempts sample_session_with_id
     = (Fail (ParserError
                (DWRReturnedExceptions
                   [ (42, 5, VStr (py "java.lang.Throwable"), VStr (py "Error"));
                     (42, 6, VStr (py "E"), VStr (py "no")) ])
                two_exceptions), session'))
  ∧ (∃ session',
       dwr_get_attempts_info_single_request sample_get_cookie short_respond
         sample_attempts sample_session_with_id
       = (Fail (KeyErrorInt 1), session')).
Proof.
  split.
  - eexists.
    refine (proj1 (single_request_failures sample_get_cookie failing_respond
                     sample_attempts sample_session_with_id (VStr (py "0A1B2C"))
                     (py "ABC42") (py "63345") two_exceptions
                     eq_refl eq_refl eq_refl eq_refl)
              (ValueError (DWRReturnedExceptions
                 [ (42, 5, VStr (py "java.lang.Throwable"), VStr (py "Error"));
                   (42, 6, VStr (py "E"), VStr (py "no")) ])) _).
    vm_compute. reflexivity.
  - eexists.
    eapply (proj2 (single_request_failures sample_get_cookie short_respond
                     sample_attempts sample_session_with_id (VStr (py "0A1B2C"))
                     (py "ABC42") (py "63345") (sample_reply 1)
                     eq_refl eq_refl eq_refl eq_refl) _ 1%nat).
    + vm_compute. reflexivity.
    + simpl. lia.
    + vm_compute. reflexivity.
    + intros j Hj. assert (j = 0%nat) as -> by lia. vm_compute. eauto.
Defined.

Lemma groups_are_the_answer_to_call_0_witness :
  let out := dwr_get_groups sample_get_cookie sample_respond sample_session in
  out.1 = Done [Plain (VList [VInt 0])]
  ∧ ∃ before r,
      sent out.2 = before ++ [r]
      ∧ data r !! call_key 0 "param0" = Some (VStr (py "string:63345")).
Proof.
  intros out. split; [vm_compute; reflexivity|].
  edestruct (groups_are_the_answer_to_call_0 sample_get_cookie sample_respond
               sample_session out.2 [Plain (VList [VInt 0])])
    as (before & r & raw & text & results & Hs & _ & _ & Hraw & _ & _ & _ & Hp & _).
  - vm_compute. reflexivity.
  - exists before, r. split; [exact Hs|].
    vm_compute in Hraw. injection Hraw as <-. exact Hp.
Defined.
(** * The matcher *)

Lemma strip_prefix_Some (p s s' : str) :
  strip_prefix p s = Some s' → s = p ++ s'.
Proof.
  revert s. induction p as [|a p IH]; intros [|b s]; simpl; try done.
  - by intros [= ->].
  - by intros [= ->].
  - case_bool_decide; [|done]. subst. intros H. by rewrite (IH _ H).
Qed.

Lemma strip_prefix_app (p s : str) : strip_prefix p (p ++ s) = Some s.
Proof.
  induction p as [|a p IH]; [done|]. simpl. by rewrite bool_decide_eq_true_2.
Qed.

Lemma rmatch_Star {R} (r : regex) (s : str) (caps : gmap nat str)
    (k : str → gmap nat str → option R) :
  rmatch (Star r) s caps k = star_loop r k (length s) s caps.
Proof. done. Qed.

(** The continuation is only asked about what is left of the text. *)
Lemma rmatch_ext {R} (r : regex) : ∀ (s : str) (caps : gmap nat str)
    (k1 k2 : str → gmap nat str → option R),
  (∀ s' caps', (length s' ≤ length s)%nat → k1 s' caps' = k2 s' caps') →
  rmatch r s caps k1 = rmatch r s caps k2.
Proof.
  induction r as [p|p|r1 IH1 r2 IH2|r1 IH1 r2 IH2|r IH|i r IH];
    intros s caps k1 k2 Hk.
  - simpl. destruct (strip_prefix p s) as [s'|] eqn:Hp; [|done].
    apply Hk. apply strip_prefix_Some in Hp. rewrite Hp, length_app. lia.
  - simpl. destruct s as [|c s']; [done|]. destruct (p c); [|done].
    apply Hk. simpl. lia.
  - simpl. apply IH1. intros s' caps' Hs'. apply IH2.
    intros s'' caps'' Hs''. apply Hk. lia.
  - simpl. rewrite (IH1 s caps k1 k2 Hk), (IH2 s caps k1 k2 Hk). done.
  - rewrite !rmatch_Star. generalize (length s). intros n.
    revert s caps Hk. induction n as [|n IHn]; intros s caps Hk; simpl.
    + by apply Hk.
    + rewrite (Hk s caps) by done.
      erewrite IH; [reflexivity|]. intros s' caps' Hs'. simpl.
      destruct (Nat.ltb_spec (length s') (length s)); [|done].
      apply IHn. intros s'' caps'' Hs''. apply Hk. lia.
  - simpl. apply IH. intros s' caps' Hs'. by apply Hk.
Qed.

Lemma rmatch_never {R} (r : regex) : ∀ (s : str) (caps : gmap nat str),
  rmatch r s caps (λ _ _, @None R) = None.
Proof.
  induction r as [p|p|r1 IH1 r2 IH2|r1 IH1 r2 IH2|r IH|i r IH]; intros s caps.
  - simpl. by destruct (strip_prefix p s).
  - simpl. destruct s as [|c s']; [done|]. by destruct (p c).
  - simpl. erewrite rmatch_ext; [apply IH1|]. intros s' caps' _. apply IH2.
  - simpl. by rewrite IH1, IH2.
  - rewrite rmatch_Star. generalize (length s) at 1. intros n.
    revert s caps. induction n as [|n IHn]; intros s caps; simpl; [done|].
    erewrite rmatch_ext; [by rewrite IH|]. intros s' caps' _. simpl.
    destruct (length s' <? length s)%nat; [apply IHn|done].
  - simpl. apply IH.
Qed.

Lemma star_loop_enough {R} (r : regex) (k : str → gmap nat str → option R) :
  ∀ n m s caps, (length s ≤ n)%nat → (length s ≤ m)%nat →
  star_loop r k n s caps = star_loop r k m s caps.
Proof.
  induction n as [|n IH]; intros m s caps Hn Hm.
  - destruct s; [|simpl in Hn; lia]. destruct m as [|m]; [done|]. simpl.
    erewrite rmatch_ext; [by rewrite rmatch_never|]. done.
  - destruct m as [|m].
    + destruct s; [|simpl in Hm; lia]. simpl.
      erewrite rmatch_ext; [by rewrite rmatch_never|]. done.
    + simpl. erewrite rmatch_ext; [reflexivity|]. intros s' caps' Hs'. simpl.
      destruct (Nat.ltb_spec (length s') (length s)); [|done]. apply IH; lia.
Qed.

Lemma star_loop_S {R} (r : regex) (k : str → gmap nat str → option R)
    (n : nat) (s : str) (caps : gmap nat str) :
  star_loop r k (S n) s caps
  = match rmatch r s caps (λ s' caps',
            if (length s' <? length s)%nat then star_loop r k n s' caps'
            else None) with
    | Some x => Some x
    | None => k s caps
    end.
Proof. done. Qed.

(** One turn of the loop of [Star r]. *)
Lemma rmatch_Star_unfold {R} (r : regex) (s : str) (caps : gmap nat str)
    (k : str → gmap nat str → option R) :
  rmatch (Star r) s caps k
  = match rmatch r s caps (λ s' caps',
            if (length s' <? length s)%nat then rmatch (Star r) s' caps' k
            else None) with
    | Some x => Some x
    | None => k s caps
    end.
Proof.
  rewrite rmatch_Star. destruct s as [|c s].
  - simpl. by rewrite rmatch_never.
  - change (length (c :: s)) with (S (length s)) at 1. rewrite star_loop_S.
    erewrite rmatch_ext; [reflexivity|]. intros s' caps' Hs'. cbv beta.
    destruct (Nat.ltb_spec (length s') (length (c :: s))); [|done].
    rewrite rmatch_Star. apply star_loop_enough; simpl in *; lia.
Qed.

(** A match ends where a continuation took over: at a suffix of the text. *)
Lemma rmatch_suffix {R} (r : regex) : ∀ (s : str) (caps : gmap nat str)
    (k : str → gmap nat str → option R) (x : R),
  rmatch r s caps k = Some x →
  ∃ m s' caps', s = m ++ s' ∧ k s' caps' = Some x.
Proof.
  induction r as [p|p|r1 IH1 r2 IH2|r1 IH1 r2 IH2|r IH|i r IH];
    intros s caps k x H.
  - simpl in H. destruct (strip_prefix p s) as [s'|] eqn:Hp; [|done].
    apply strip_prefix_Some in Hp. eauto.
  - simpl in H. destruct s as [|c s']; [done|]. destruct (p c); [|done].
    exists [c], s', caps. done.
  - simpl in H. apply IH1 in H as (m1 & s1 & caps1 & -> & H).
    apply IH2 in H as (m2 & s2 & caps2 & -> & H).
    exists (m1 ++ m2), s2, caps2. by rewrite <- app_assoc.
  - simpl in H. destruct (rmatch r1 s caps k) eqn:H1.
    + injection H as ->. by apply IH1 in H1.
    + by apply IH2 in H.
  - rewrite rmatch_Star in H. remember (length s) as n eqn:Hn in H. clear Hn.
    revert s caps H. induction n as [|n IHn]; intros s caps H; simpl in H.
    + by exists [], s, caps.
    + destruct (rmatch r s caps _) eqn:H1.
      * injection H as ->. apply IH in H1 as (m1 & s1 & caps1 & -> & H1).
        destruct (length s1 <? length (m1 ++ s1))%nat; [|done].
        apply IHn in H1 as (m2 & s2 & caps2 & -> & H1).
        exists (m1 ++ m2), s2, caps2. by rewrite <- app_assoc.
      * by exists [], s, caps.
  - simpl in H. apply IH in H as (m & s' & caps' & -> & H). eauto.
Qed.

Lemma match_here_suffix (r : regex) (s s' : str) (caps : gmap nat str) :
  match_here r s = Some (s', caps) → ∃ m, s = m ++ s'.
Proof.
  unfold match_here. intros H.
  apply rmatch_suffix in H as (m & s1 & caps1 & -> & [= -> ->]). eauto.
Qed.

(** * The scan *)

Lemma match_pattern_suffix (ps : list (key * regex)) (s s' : str) (k : key)
    (caps : gmap nat str) :
  match_pattern ps s = Some (k, s', caps) → ∃ m, s = m ++ s'.
Proof.
  induction ps as [|[k' r] ps IH]; [done|]. simpl.
  destruct (match_here (Group 0 r) s) as [[s1 caps1]|] eqn:H; [|done].
  intros [= <- <- <-]. by apply match_here_suffix in H.
Qed.

Lemma finditer_from_enough (fuel : nat) : ∀ fuel' pos s,
  (length s < fuel)%nat → (length s < fuel')%nat →
  finditer_from fuel pos s = finditer_from fuel' pos s.
Proof.
  induction fuel as [|fuel IH]; intros fuel' pos s Hf Hf'; [lia|].
  destruct fuel' as [|fuel']; [lia|]. cbn [finditer_from].
  destruct (match_pattern patterns s) as [[[k s'] caps]|] eqn:Hm.
  - apply match_pattern_suffix in Hm as [m ->]. rewrite length_app in *.
    f_equal. destruct (Nat.eqb_spec (length m + length s' - length s') 0).
    + destruct (m ++ s') as [|c t] eqn:E; [done|].
      apply IH; (apply (f_equal length) in E; rewrite length_app in E; simpl in E; lia).
    + apply IH; lia.
  - destruct s as [|c t]; [done|]. apply IH; simpl in *; lia.
Qed.

Lemma finditer_from_shift (fuel : nat) : ∀ d pos s,
  finditer_from fuel (d + pos) s = map (shift d) (finditer_from fuel pos s).
Proof.
  induction fuel as [|fuel IH]; intros d pos s; [done|]. cbn [finditer_from].
  destruct (match_pattern patterns s) as [[[k s'] caps]|] eqn:Hm.
  - cbn [map]. f_equal.
    + unfold shift. simpl. f_equal. lia.
    + destruct (length s - length s' =? 0)%nat.
      * destruct s as [|c t]; [done|].
        replace (S (d + pos)) with (d + S pos)%nat by lia. apply IH.
      * replace (d + pos + (length s - length s'))%nat
          with (d + (pos + (length s - length s')))%nat by lia. apply IH.
  - destruct s as [|c t]; [done|].
    replace (S (d + pos)) with (d + S pos)%nat by lia. apply IH.
Qed.

(** The matches of a text that begins with a statement. *)
Lemma finditer_match (m rest : str) (k : key) (caps : gmap nat str) :
  match_pattern patterns (m ++ rest) = Some (k, rest, caps) → m ≠ [] →
  finditer (m ++ rest)
  = {| mo_start := 0; mo_end := length m; lastgroup := k; groups := caps |}
    :: map (shift (length m)) (finditer rest).
Proof.
  intros Hm Hne. remember (finditer rest) as R eqn:HR.
  unfold finditer. cbn [finditer_from]. rewrite Hm.
  rewrite length_app. replace (length m + length rest - length rest)%nat
    with (length m) by lia.
  destruct (Nat.eqb_spec (length m) 0) as [E|_].
  { by apply length_zero_iff_nil in E. }
  f_equal. subst R. unfold finditer.
  rewrite <- (finditer_from_shift _ (length m) 0), Nat.add_0_r.
  cbn [Nat.add]. apply finditer_from_enough; destruct m; simpl; try done; lia.
Qed.

(** The matches of a text that begins with a character no statement
    begins at. *)
Lemma finditer_skip (c : ascii) (rest : str) :
  match_pattern patterns (c :: rest) = None →
  finditer (c :: rest) = map (shift 1) (finditer rest).
Proof.
  intros Hm. remember (finditer rest) as R eqn:HR.
  unfold finditer. cbn [finditer_from length]. rewrite Hm.
  subst R. unfold finditer. by rewrite <- (finditer_from_shift _ 1 0).
Qed.

Lemma slice_shift (pre code : str) (a b : nat) :
  slice (pre ++ code) (length pre + a) (length pre + b) = slice code a b.
Proof.
  unfold slice. replace (length pre + b - (length pre + a))%nat with (b - a)%nat by lia.
  rewrite <- drop_drop. by rewrite drop_app_length.
Qed.

Lemma execute_shift (d : nat) (mo : Match) (st : state) :
  execute (shift d mo) st = execute mo st.
Proof. done. Qed.

Lemma loop_shift (pre code : str) (mos : list Match) : ∀ st,
  loop (pre ++ code) (map (shift (length pre)) mos) (set_i (length pre + i st) st)
  = (λ st1, set_i (length pre + i st1) st1) <$> loop code mos st.
Proof.
  induction mos as [|mo mos IH]; intros st; [done|]. cbn [map loop].
  unfold step. cbn [mo_start mo_end shift i set_i].
  rewrite slice_shift. destruct (nonempty (strip (slice code (i st) (mo_start mo)))); [done|].
  rewrite execute_shift.
  change (set_i (length pre + mo_end mo) (set_i (length pre + i st) st))
    with (set_i (length pre + mo_end mo) st).
  rewrite !execute_set_i.
  destruct (execute mo st) as [st1|e] eqn:He; [|done]. cbn.
  change (set_i (length pre + mo_end mo) st1)
    with (set_i (length pre + i (set_i (mo_end mo) st1)) (set_i (mo_end mo) st1)).
  apply IH.
Qed.

Lemma finish_shift (pre code : str) (st : state) :
  finish (pre ++ code) (set_i (length pre + i st) st) = finish code st.
Proof.
  unfold finish. cbn [i set_i]. rewrite <- drop_drop, drop_app_length.
  done.
Qed.

(** A [throw] statement or a comment at the head of the text is passed
    over. *)
Lemma parse_js_skip_match (m rest : str) (k : key) (caps : gmap nat str) :
  match_pattern patterns (m ++ rest) = Some (k, rest, caps) → m ≠ [] →
  k = throw ∨ k = comment →
  parse_js (m ++ rest) = parse_js rest.
Proof.
  intros Hm Hne Hk. unfold parse_js. rewrite (finditer_match _ _ _ _ Hm Hne).
  clear Hm. generalize (finditer rest). intros mos. cbn [loop]. unfold step at 1. cbn [mo_start mo_end i initial].
  assert (slice (m ++ rest) 0 0 = []) as -> by done. cbn [strip lstrip rev nonempty app].
  assert (execute {| mo_start := 0; mo_end := length m; lastgroup := k; groups := caps |}
            (set_i (length m) initial) = Ok (set_i (length m) initial)) as ->.
  { unfold execute. cbn [lastgroup]. by destruct Hk as [-> | ->]. }
  cbn.
  change (set_i (length m) initial) with (set_i (length m) (set_i 0 initial)).
  replace (length m) with (length m + i (set_i 0 initial))%nat at 2 by (cbn; lia).
  change (set_i (length m + i (set_i 0 initial)) (set_i 0 initial))
    with (set_i (length m + i initial) initial).
  rewrite loop_shift. destruct (loop rest mos initial) as [st|e]; [|done].
  cbn. apply finish_shift.
Qed.

Lemma strip_space (c : ascii) (s : str) : isspace c = true → strip (c :: s) = strip s.
Proof. intros Hc. unfold strip. simpl. by rewrite Hc. Qed.

Lemma no_statement_at_space (c : ascii) (rest : str) :
  isspace c = true → match_pattern patterns (c :: rest) = None.
Proof.
  destruct c as [[] [] [] [] [] [] [] []]; try discriminate; intros _;
    vm_compute; reflexivity.
Qed.

(** A white space character at the head of the text is passed over. *)
Lemma parse_js_skip_space (c : ascii) (rest : str) :
  isspace c = true → parse_js (c :: rest) = parse_js rest.
Proof.
  intros Hc. unfold parse_js.
  rewrite (finditer_skip _ _ (no_statement_at_space c rest Hc)).
  generalize (finditer rest). intros [|mo mos].
  - cbn. unfold finish. cbn [i initial drop]. by rewrite (strip_space c rest Hc).
  - cbn [map loop]. unfold step. cbn [mo_start mo_end shift i initial].
    assert (slice (c :: rest) 0 (1 + mo_start mo) = c :: slice rest 0 (mo_start mo)) as ->.
    { unfold slice. simpl. by rewrite Nat.sub_0_r. }
    rewrite (strip_space c _ Hc).
    destruct (nonempty (strip (slice rest 0 (mo_start mo)))); [done|].
    rewrite execute_shift, !execute_set_i.
    destruct (execute mo initial) as [st1|e] eqn:He; [|done]. cbn.
    change (set_i (S (mo_end mo)) st1)
      with (set_i (length [c] + i (set_i (mo_end mo) st1)) (set_i (mo_end mo) st1)).
    change (c :: rest) with ([c] ++ rest).
    change 1%nat with (length [c]).
    rewrite loop_shift.
    destruct (loop rest mos (set_i (mo_end mo) st1)) as [st|e]; [|done].
    cbn. apply (finish_shift [c]).
Qed.

(** ** The greedy way through a pattern *)

Lemma rmatch_Lit_app {R} (p s : str) (caps : gmap nat str)
    (k : str → gmap nat str → option R) :
  rmatch (Lit p) (p ++ s) caps k = k s caps.
Proof. simpl. by rewrite strip_prefix_app. Qed.

Lemma rmatch_Cat {R} (r1 r2 : regex) (s : str) (caps : gmap nat str)
    (k : str → gmap nat str → option R) :
  rmatch (Cat r1 r2) s caps k = rmatch r1 s caps (λ s' caps', rmatch r2 s' caps' k).
Proof. done. Qed.

Lemma rmatch_Group {R} (i : nat) (r : regex) (s : str) (caps : gmap nat str)
    (k : str → gmap nat str → option R) :
  rmatch (Group i r) s caps k
  = rmatch r s caps (λ s' caps', k s' (<[i := take (length s - length s') s]> caps')).
Proof. done. Qed.

Lemma rmatch_Alt {R} (r1 r2 : regex) (s : str) (caps : gmap nat str)
    (k : str → gmap nat str → option R) :
  rmatch (Alt r1 r2) s caps k
  = match rmatch r1 s caps k with Some x => Some x | None => rmatch r2 s caps k end.
Proof. done. Qed.

Lemma rmatch_Any {R} (p : ascii → bool) (c : ascii) (s : str) (caps : gmap nat str)
    (k : str → gmap nat str → option R) :
  rmatch (Any p) (c :: s) caps k = if p c then k s caps else None.
Proof. done. Qed.

Lemma rmatch_Lit_cons {R} (a c : ascii) (p s : str) (caps : gmap nat str)
    (k : str → gmap nat str → option R) :
  a ≠ c → rmatch (Lit (a :: p)) (c :: s) caps k = None.
Proof. intros H. simpl. by rewrite bool_decide_eq_false_2. Qed.

(** A repetition of a character class takes the characters of the class,
    when what follows matches after them. *)
Lemma star_class_run {R} (p : ascii → bool) (a rest : str) (caps : gmap nat str)
    (k : str → gmap nat str → option R) (x : R) :
  forallb p a = true →
  rmatch (Star (Any p)) rest caps k = Some x →
  rmatch (Star (Any p)) (a ++ rest) caps k = Some x.
Proof.
  intros Ha Hr. induction a as [|c a IH]; [done|].
  simpl in Ha. apply andb_true_iff in Ha as [Hc Ha].
  rewrite rmatch_Star_unfold. cbn [app]. rewrite rmatch_Any, Hc.
  destruct (Nat.ltb_spec (length (a ++ rest)) (length (c :: a ++ rest)));
    [|simpl in *; lia].
  by rewrite (IH Ha).
Qed.

Lemma star_class_stop {R} (p : ascii → bool) (rest : str) (caps : gmap nat str)
    (k : str → gmap nat str → option R) :
  starts_with p rest = false → rmatch (Star (Any p)) rest caps k = k rest caps.
Proof.
  intros Hr. rewrite rmatch_Star_unfold. destruct rest as [|c rest]; [done|].
  simpl in Hr. by rewrite rmatch_Any, Hr.
Qed.

(** The same when the class is the first of two alternatives. *)
Lemma star_alt_run {R} (p : ascii → bool) (r2 : regex) (a rest : str)
    (caps : gmap nat str) (k : str → gmap nat str → option R) (x : R) :
  forallb p a = true →
  rmatch (Star (Alt (Any p) r2)) rest caps k = Some x →
  rmatch (Star (Alt (Any p) r2)) (a ++ rest) caps k = Some x.
Proof.
  intros Ha Hr. induction a as [|c a IH]; [done|].
  simpl in Ha. apply andb_true_iff in Ha as [Hc Ha].
  rewrite rmatch_Star_unfold, rmatch_Alt. cbn [app]. rewrite rmatch_Any, Hc.
  destruct (Nat.ltb_spec (length (a ++ rest)) (length (c :: a ++ rest)));
    [|simpl in *; lia].
  by rewrite (IH Ha).
Qed.

(** The body of a quoted string stops at the quote. *)
Lemma quoted_body_stop {R} (q : ascii) (rest : str) (caps : gmap nat str)
    (k : str → gmap nat str → option R) :
  q ≠ "\"%char →
  rmatch (Star (Alt (Any (not_in ["\"%char; q])) (Cat (Lit (py "\")) (Any dot))))
    (q :: rest) caps k
  = k (q :: rest) caps.
Proof.
  intros Hq. rewrite rmatch_Star_unfold, rmatch_Alt, rmatch_Any.
  assert (not_in ["\"%char; q] q = false) as ->.
  { unfold not_in. rewrite bool_decide_eq_true_2; [done|]. set_solver. }
  rewrite rmatch_Cat. change (py "\") with ["\"%char].
  by rewrite rmatch_Lit_cons by congruence.
Qed.

Lemma quoted_run {R} (q : ascii) (body rest : str) (caps : gmap nat str)
    (k : str → gmap nat str → option R) (x : R) :
  q ≠ "\"%char → forallb (not_in ["\"%char; q]) body = true →
  k rest caps = Some x →
  rmatch (quoted q) (q :: body ++ q :: rest) caps k = Some x.
Proof.
  intros Hq Hb Hk. unfold quoted. rewrite rmatch_Cat.
  change (q :: body ++ q :: rest) with ([q] ++ body ++ q :: rest).
  rewrite rmatch_Lit_app, rmatch_Cat. apply star_alt_run; [done|].
  rewrite quoted_body_stop by done.
  change (q :: rest) with ([q] ++ rest). by rewrite rmatch_Lit_app.
Qed.

(** The pattern [obj] stops at a semicolon and at the end of the text. *)
Lemma obj_stop {R} (rest : str) (caps : gmap nat str)
    (k : str → gmap nat str → option R) :
  starts_with (not_in [";"%char]) rest = false →
  rmatch obj rest caps k = k rest caps.
Proof.
  intros Hr. unfold obj. rewrite rmatch_Star_unfold.
  destruct rest as [|c rest]; [done|]. simpl in Hr.
  unfold not_in in Hr. apply negb_false_iff, bool_decide_eq_true in Hr.
  apply list_elem_of_singleton in Hr as ->.
  rewrite !rmatch_Alt, rmatch_Any. unfold quoted. rewrite !rmatch_Cat.
  by rewrite !rmatch_Lit_cons.
Qed.

Lemma obj_plain_run {R} (a rest : str) (caps : gmap nat str)
    (k : str → gmap nat str → option R) (x : R) :
  forallb (not_in [";"%char; sq; dq]) a = true →
  rmatch obj rest caps k = Some x →
  rmatch obj (a ++ rest) caps k = Some x.
Proof. apply star_alt_run. Qed.

Lemma obj_quoted_run {R} (q : ascii) (body rest : str) (caps : gmap nat str)
    (k : str → gmap nat str → option R) (x : R) :
  is_quote q = true → forallb (not_in ["\"%char; q]) body = true →
  rmatch obj rest caps k = Some x →
  rmatch obj (q :: body ++ q :: rest) caps k = Some x.
Proof.
  intros Hq Hb Hr. unfold obj at 1. rewrite rmatch_Star_unfold. fold obj.
  rewrite rmatch_Alt.
  assert (Hlen : (length rest <? length (q :: body ++ q :: rest))%nat = true).
  { apply Nat.ltb_lt. simpl. rewrite length_app. simpl. lia. }
  rewrite rmatch_Any, rmatch_Alt.
  destruct (quote_cases q Hq) as [-> | ->].
  - assert (not_in [";"%char; sq; dq] sq = false) as -> by done.
    rewrite (quoted_run sq body rest caps _ x); [done|done|done|].
    by rewrite Hlen.
  - assert (not_in [";"%char; sq; dq] dq = false) as -> by done.
    unfold quoted at 1. rewrite rmatch_Cat, rmatch_Lit_cons by done.
    rewrite (quoted_run dq body rest caps _ x); [done|done|done|].
    by rewrite Hlen.
Qed.

(** ** What the scan passes over *)

Lemma match_pattern_cons (k : key) (r : regex) (ps : list (key * regex)) (s : str) :
  match_pattern ((k, r) :: ps) s
  = match match_here (Group 0 r) s with
    | Some (s', caps) => Some (k, s', caps)
    | None => match_pattern ps s
    end.
Proof. done. Qed.

Lemma comment_matches (text rest : str) :
  forallb dot text = true → starts_with dot rest = false →
  ∃ caps, match_pattern patterns (py "//" ++ text ++ rest) = Some (comment, rest, caps).
Proof.
  intros Ht Hr. eexists. unfold patterns. rewrite match_pattern_cons.
  assert (match_here (Group 0 (seq [Lit (py "throw "); obj; Lit (py ";")]))
            (py "//" ++ text ++ rest) = None) as -> by done.
  rewrite match_pattern_cons. unfold match_here. cbn [seq].
  rewrite rmatch_Group, rmatch_Cat, rmatch_Lit_app, rmatch_Group.
  erewrite star_class_run; cycle 1.
  { done. }
  { rewrite star_class_stop by done. reflexivity. }
  reflexivity.
Qed.

Lemma throw_matches (q : ascii) (msg rest : str) :
  is_quote q = true → forallb (not_in ["\"%char; q]) msg = true →
  ∃ caps, match_pattern patterns (py "throw " ++ q :: msg ++ q :: py ";" ++ rest)
          = Some (throw, rest, caps).
Proof.
  intros Hq Hm. eexists. unfold patterns. rewrite match_pattern_cons.
  unfold match_here. cbn [seq].
  rewrite rmatch_Group, rmatch_Cat, rmatch_Lit_app, rmatch_Cat.
  erewrite obj_quoted_run; cycle 1.
  { done. }
  { done. }
  { rewrite obj_stop by done. rewrite rmatch_Lit_app. reflexivity. }
  reflexivity.
Qed.

Lemma white_space_prefix (ws code : str) :
  forallb isspace ws = true → parse_js (ws ++ code) = parse_js code.
Proof.
  induction ws as [|c ws IH]; [done|]. simpl.
  intros [Hc Hws]%andb_true_iff. rewrite parse_js_skip_space by done. by apply IH.
Qed.

Lemma newline_prefix (rest : str) : parse_js (nl ++ rest) = parse_js rest.
Proof. by apply (parse_js_skip_space "010"). Qed.

(** White space at the head of a response is passed over, and a response of
    white space only decodes to the empty mapping. *)
Theorem leading_white_space_is_passed_over (ws code : str) :
  forallb isspace ws = true →
  parse_js (ws ++ code) = parse_js code ∧ parse_js ws = Ok ∅.
Proof.
  intros Hws. split; [by apply white_space_prefix|].
  rewrite <- (app_nil_r ws). by rewrite white_space_prefix.
Qed.

Lemma leading_white_space_is_passed_over_witness :
  parse_js (py "  " ++ nl ++ two_calls) = parse_js two_calls
  ∧ parse_js (py "  " ++ nl) = Ok ∅.
Proof. apply (leading_white_space_is_passed_over (py "  " ++ nl) two_calls). reflexivity. Defined.

Lemma comment_prefix (text rest : str) :
  forallb dot text = true → starts_with dot rest = false →
  parse_js (py "//" ++ text ++ rest) = parse_js rest.
Proof.
  intros Ht Hr. destruct (comment_matches text rest Ht Hr) as [caps Hm].
  rewrite app_assoc in Hm |- *.
  apply (parse_js_skip_match _ _ _ _ Hm); [done | by right].
Qed.

(** A comment line, two slashes and any text up to the line feed, is passed
    over wherever the scan is at the head of it: the response decodes as
    what follows the line does. A response that is one comment decodes to
    the empty mapping. *)
Theorem comment_line_is_passed_over (text code : str) :
  forallb dot text = true →
  parse_js (py "//" ++ text ++ nl ++ code) = parse_js code
  ∧ parse_js (py "//" ++ text) = Ok ∅.
Proof.
  intros Ht. split.
  - rewrite comment_prefix by done. apply newline_prefix.
  - rewrite <- (app_nil_r text). by rewrite comment_prefix.
Qed.

Lemma comment_line_is_passed_over_witness :
  parse_js (py "//#DWR-REPLY" ++ nl ++ two_calls) = parse_js two_calls
  ∧ parse_js (py "//#DWR-REPLY") = Ok ∅.
Proof.
  apply (comment_line_is_passed_over (py "#DWR-REPLY") two_calls). reflexivity.
Defined.

(** The preamble, a [throw] statement with a quoted message followed by the
    two framing comments, each on a line of its own, is passed over: a
    response decodes as what follows its preamble does, whatever that is. *)
Theorem preamble_is_passed_over (msg code : str) :
  forallb (not_in ["\"%char; sq]) msg = true →
  parse_js (nl ++ py "throw '" ++ msg ++ py "';" ++ nl
            ++ py "//#DWR-INSERT" ++ nl ++ py "//#DWR-REPLY" ++ nl ++ code)
  = parse_js code.
Proof.
  intros Hm. rewrite newline_prefix.
  destruct (throw_matches sq msg
              (nl ++ py "//#DWR-INSERT" ++ nl ++ py "//#DWR-REPLY" ++ nl ++ code)
              eq_refl Hm) as [caps Hc].
  set (rest := nl ++ py "//#DWR-INSERT" ++ nl ++ py "//#DWR-REPLY" ++ nl ++ code) in *.
  assert (E1 : py "throw '" ++ msg ++ py "';" ++ rest
               = (py "throw '" ++ msg ++ py "';") ++ rest).
  { by rewrite <- !app_assoc. }
  assert (E2 : py "throw " ++ sq :: msg ++ sq :: py ";" ++ rest
               = (py "throw '" ++ msg ++ py "';") ++ rest).
  { cbn. by rewrite <- app_assoc. }
  rewrite E1. rewrite E2 in Hc.
  rewrite (parse_js_skip_match _ _ _ _ Hc); [|done|by left]. unfold rest.
  rewrite newline_prefix.
  change (py "//#DWR-INSERT") with (py "//" ++ py "#DWR-INSERT").
  rewrite <- app_assoc, (comment_prefix (py "#DWR-INSERT")) by done.
  rewrite newline_prefix.
  change (py "//#DWR-REPLY") with (py "//" ++ py "#DWR-REPLY").
  rewrite <- app_assoc, (comment_prefix (py "#DWR-REPLY")) by done.
  apply newline_prefix.
Qed.

Lemma preamble_is_passed_over_witness :
  parse_js (preamble ++ two_calls) = parse_js two_calls.
Proof.
  apply (preamble_is_passed_over (py "allowScriptTagRemoting is false.") two_calls).
  reflexivity.
Defined.

(** ** Statement by statement *)

Lemma decode_from_initial (code : str) : decode_from initial code = parse_js code.
Proof. done. Qed.

Lemma decode_match (st : state) (m rest : str) (k : key) (caps : gmap nat str) :
  match_pattern patterns (m ++ rest) = Some (k, rest, caps) → m ≠ [] →
  decode_from st (m ++ rest)
  = (st1 ← execute (at_head k m caps) st; decode_from st1 rest).
Proof.
  intros Hm Hne. unfold decode_from. rewrite (finditer_match _ _ _ _ Hm Hne).
  clear Hm. generalize (finditer rest). intros mos. cbn [loop].
  unfold step at 1. cbn [mo_start mo_end i set_i].
  assert (slice (m ++ rest) 0 0 = []) as -> by done.
  cbn [strip lstrip rev nonempty app]. fold (at_head k m caps).
  change (set_i (length m) (set_i 0 st)) with (set_i (length m) st).
  rewrite execute_set_i. destruct (execute (at_head k m caps) st) as [st1|e]; [|done].
  cbn [fmap result_fmap mbind result_bind].
  change (set_i (length m) st1) with (set_i (length m) (set_i 0 st1)).
  replace (length m) with (length m + i (set_i 0 st1))%nat at 2 by (cbn; lia).
  rewrite loop_shift. destruct (loop rest mos (set_i 0 st1)) as [st2|e]; [|done].
  cbn [fmap result_fmap mbind result_bind]. apply finish_shift.
Qed.

Lemma decode_space (st : state) (c : ascii) (rest : str) :
  isspace c = true → decode_from st (c :: rest) = decode_from st rest.
Proof.
  intros Hc. unfold decode_from.
  rewrite (finditer_skip _ _ (no_statement_at_space c rest Hc)).
  generalize (finditer rest). intros [|mo mos].
  - cbn. unfold finish. cbn [i set_i drop]. by rewrite (strip_space c rest Hc).
  - cbn [map loop]. unfold step. cbn [mo_start mo_end shift i set_i].
    assert (slice (c :: rest) 0 (1 + mo_start mo) = c :: slice rest 0 (mo_start mo)) as ->.
    { unfold slice. simpl. by rewrite Nat.sub_0_r. }
    rewrite (strip_space c _ Hc).
    destruct (nonempty (strip (slice rest 0 (mo_start mo)))); [done|].
    rewrite execute_shift.
    change (set_i (1 + mo_end mo) (set_i 0 st)) with (set_i (1 + mo_end mo) st).
    change (set_i (mo_end mo) (set_i 0 st)) with (set_i (mo_end mo) st).
    rewrite !execute_set_i.
    destruct (execute mo st) as [st1|e] eqn:He; [|done].
    cbn [fmap result_fmap mbind result_bind].
    change (set_i (1 + mo_end mo) st1)
      with (set_i (length [c] + i (set_i (mo_end mo) st1)) (set_i (mo_end mo) st1)).
    change (c :: rest) with ([c] ++ rest).
    change 1%nat with (length [c]).
    rewrite loop_shift.
    destruct (loop rest mos (set_i (mo_end mo) st1)) as [st2|e]; [|done].
    cbn [fmap result_fmap mbind result_bind]. apply (finish_shift [c]).
Qed.

Lemma decode_spaces (st : state) (ws rest : str) :
  forallb isspace ws = true → decode_from st (ws ++ rest) = decode_from st rest.
Proof.
  induction ws as [|c ws IH]; [done|]. simpl.
  intros [Hc Hws]%andb_true_iff. rewrite decode_space by done. by apply IH.
Qed.

Lemma decode_nil (st : state) :
  decode_from st []
  = if nonempty (exceptions st)
    then Raise (ValueError (DWRReturnedExceptions (exceptions st)))
    else Ok (mapping st).
Proof. done. Qed.

(** ** Giving characters back *)

Lemma star_class_cons {R} (p : ascii → bool) (c : ascii) (s : str)
    (caps : gmap nat str) (k : str → gmap nat str → option R) :
  p c = true →
  rmatch (Star (Any p)) (c :: s) caps k
  = match rmatch (Star (Any p)) s caps k with
    | Some x => Some x
    | None => k (c :: s) caps
    end.
Proof.
  intros Hc. rewrite rmatch_Star_unfold at 1. rewrite rmatch_Any, Hc.
  destruct (Nat.ltb_spec (length s) (length (c :: s))); [done|simpl in *; lia].
Qed.

Lemma star_class_none {R} (p : ascii → bool) (a rest : str) (caps : gmap nat str)
    (k : str → gmap nat str → option R) :
  forallb p a = true → starts_with p rest = false →
  (∀ j, (j ≤ length a)%nat → k (drop j a ++ rest) caps = None) →
  rmatch (Star (Any p)) (a ++ rest) caps k = None.
Proof.
  intros Ha Hr. induction a as [|c a IH]; intros Hk.
  - rewrite star_class_stop by done. apply (Hk 0%nat). simpl. lia.
  - simpl in Ha. apply andb_true_iff in Ha as [Hc Ha]. cbn [app].
    rewrite star_class_cons by done. rewrite IH; [|done|].
    + apply (Hk 0%nat). simpl. lia.
    + intros j Hj. apply (Hk (S j)). simpl. lia.
Qed.

Lemma obj_cons {R} (c : ascii) (s : str) (caps : gmap nat str)
    (k : str → gmap nat str → option R) :
  not_in [";"%char; sq; dq] c = true →
  rmatch obj (c :: s) caps k
  = match rmatch obj s caps k with
    | Some x => Some x
    | None => k (c :: s) caps
    end.
Proof.
  intros Hc. unfold obj at 1. rewrite rmatch_Star_unfold. fold obj.
  rewrite rmatch_Alt, rmatch_Any, Hc.
  destruct (Nat.ltb_spec (length s) (length (c :: s))) as [_|]; [|simpl in *; lia].
  destruct (rmatch obj s caps k) as [x|]; [done|].
  rewrite rmatch_Alt. unfold quoted. rewrite !rmatch_Cat.
  assert (c ≠ sq ∧ c ≠ dq) as [H1 H2].
  { unfold not_in in Hc. apply negb_true_iff, bool_decide_eq_false in Hc.
    split; intros ->; apply Hc; set_solver. }
  by rewrite !rmatch_Lit_cons by congruence.
Qed.

(** When what follows cannot match at any character of a run, [obj] goes
    on as if the run were not there. *)
Lemma obj_skip_failing {R} (a rest : str) (caps : gmap nat str)
    (k : str → gmap nat str → option R) :
  forallb (not_in [";"%char; sq; dq]) a = true →
  (∀ j, (j < length a)%nat → k (drop j a ++ rest) caps = None) →
  rmatch obj (a ++ rest) caps k = rmatch obj rest caps k.
Proof.
  intros Ha. induction a as [|c a IH]; intros Hk; [done|].
  simpl in Ha. apply andb_true_iff in Ha as [Hc Ha]. cbn [app].
  rewrite obj_cons by done. rewrite IH; [|done|].
  - pose proof (Hk 0%nat ltac:(simpl; lia)) as H0. cbn [drop app] in H0.
    rewrite H0. by destruct (rmatch obj rest caps k).
  - intros j Hj. apply (Hk (S j)). simpl. lia.
Qed.

(** ** Identifiers, numbers and strings *)

Lemma take_app_sub {A} (a r : list A) :
  take (length (a ++ r) - length r) (a ++ r) = a.
Proof.
  rewrite length_app. replace (length a + length r - length r)%nat with (length a) by lia.
  by rewrite take_app_length.
Qed.

Lemma id_run {R} (name rest : str) (caps : gmap nat str)
    (k : str → gmap nat str → option R) (x : R) :
  identifier name = true → starts_with is_alnum_ rest = false →
  k rest caps = Some x →
  rmatch id (name ++ rest) caps k = Some x.
Proof.
  intros Hn Hr Hk. destruct name as [|c name]; [done|]. simpl in Hn.
  apply andb_true_iff in Hn as [Hc Hn]. unfold id.
  cbn [app]. rewrite rmatch_Cat, rmatch_Any, Hc.
  apply star_class_run; [done|]. by rewrite star_class_stop.
Qed.

Lemma digits_run {R} (ds rest : str) (caps : gmap nat str)
    (k : str → gmap nat str → option R) (x : R) :
  forallb is_digit ds = true → ds ≠ [] → starts_with is_digit rest = false →
  k rest caps = Some x →
  rmatch digits (ds ++ rest) caps k = Some x.
Proof.
  intros Hd Hne Hr Hk. destruct ds as [|c ds]; [done|]. simpl in Hd.
  apply andb_true_iff in Hd as [Hc Hd]. unfold digits, Plus.
  cbn [app]. rewrite rmatch_Cat, rmatch_Any, Hc.
  apply star_class_run; [done|]. by rewrite star_class_stop.
Qed.

Lemma close_quote_run {R} (q : ascii) (n : nat) : ∀ (s r : str) (caps : gmap nat str)
    (k : str → gmap nat str → option R) (x : R),
  (length s ≤ n)%nat → q ≠ "\"%char → close_quote q s = Some r →
  k r caps = Some x →
  rmatch (Cat (Star (Alt (Any (not_in ["\"%char; q])) (Cat (Lit (py "\")) (Any dot))))
              (Lit [q])) s caps k = Some x.
Proof.
  induction n as [|n IH]; intros s r caps k x Hn Hq Hs Hk.
  { destruct s; [done|simpl in Hn; lia]. }
  destruct s as [|c s]; [done|]. simpl in Hs. rewrite rmatch_Cat.
  case_bool_decide as Hcq.
  - injection Hs as ->. subst c. rewrite quoted_body_stop by done.
    change (q :: r) with ([q] ++ r). by rewrite rmatch_Lit_app.
  - case_bool_decide as Hcb.
    + subst c. destruct s as [|e s]; [done|]. destruct (dot e) eqn:He; [|done].
      rewrite rmatch_Star_unfold, rmatch_Alt, rmatch_Any.
      assert (not_in ["\"%char; q] "\"%char = false) as ->.
      { unfold not_in. rewrite bool_decide_eq_true_2; [done|]. set_solver. }
      rewrite rmatch_Cat.
      change ("\"%char :: e :: s) with (py "\" ++ e :: s).
      rewrite rmatch_Lit_app, rmatch_Any, He.
      destruct (Nat.ltb_spec (length s) (length (py "\" ++ e :: s))) as [_|];
        [|simpl in *; lia].
      specialize (IH s r caps k x). rewrite rmatch_Cat in IH.
      rewrite IH; [done| |done|done|done]. simpl in Hn. lia.
    + rewrite rmatch_Star_unfold, rmatch_Alt, rmatch_Any.
      assert (not_in ["\"%char; q] c = true) as ->.
      { unfold not_in. apply negb_true_iff, bool_decide_eq_false. set_solver. }
      destruct (Nat.ltb_spec (length s) (length (c :: s))) as [_|];
        [|simpl in *; lia].
      specialize (IH s r caps k x). rewrite rmatch_Cat in IH.
      rewrite IH; [done| |done|done|done]. simpl in Hn. lia.
Qed.

Lemma close_quote_shorter (q : ascii) (n : nat) : ∀ s r,
  (length s ≤ n)%nat → close_quote q s = Some r → (length r < length s)%nat.
Proof.
  induction n as [|n IH]; intros s r Hn Hs.
  { destruct s; [done|simpl in Hn; lia]. }
  destruct s as [|c s]; [done|]. simpl in Hs, Hn.
  case_bool_decide.
  - injection Hs as ->. simpl. lia.
  - case_bool_decide.
    + destruct s as [|e s]; [done|]. destruct (dot e); [|done].
      apply IH in Hs; simpl in *; lia.
    + apply IH in Hs; simpl in *; lia.
Qed.

Lemma close_quote_app (q : ascii) (n : nat) : ∀ s r rest,
  (length s ≤ n)%nat → close_quote q s = Some r →
  close_quote q (s ++ rest) = Some (r ++ rest).
Proof.
  induction n as [|n IH]; intros s r rest Hn Hs.
  { destruct s; [done|simpl in Hn; lia]. }
  destruct s as [|c s]; [done|]. simpl in Hs, Hn |- *.
  case_bool_decide.
  - by injection Hs as ->.
  - case_bool_decide.
    + destruct s as [|e s]; [done|]. simpl. destruct (dot e); [|done].
      apply IH; [simpl in *; lia|done].
    + apply IH; [lia|done].
Qed.

(** The pattern [obj] takes a text of plain characters and quoted strings
    as a whole, when what follows matches after it. *)
Lemma obj_text_run {R} (fuel : nat) : ∀ (a rest : str) (caps : gmap nat str)
    (k : str → gmap nat str → option R) (x : R),
  obj_text fuel a = true →
  rmatch obj rest caps k = Some x →
  rmatch obj (a ++ rest) caps k = Some x.
Proof.
  induction fuel as [|fuel IH]; intros a rest caps k x Ha Hr; [done|].
  destruct a as [|c a]; [done|]. simpl in Ha.
  destruct (not_in [";"%char; sq; dq] c) eqn:Hc.
  - cbn [app]. rewrite obj_cons by done. by rewrite (IH _ _ _ _ _ Ha Hr).
  - destruct (is_quote c) eqn:Hq; [|done].
    destruct (close_quote c a) as [r|] eqn:Hcl; [|done].
    assert (Hcb : c ≠ "\"%char) by (by destruct (quote_cases c Hq) as [-> | ->]).
    pose proof (close_quote_app c _ a r rest (Nat.le_refl _) Hcl) as Hcl'.
    pose proof (close_quote_shorter c _ _ _ (Nat.le_refl _) Hcl') as Hlen.
    cbn [app]. unfold obj at 1. rewrite rmatch_Star_unfold. fold obj.
    rewrite rmatch_Alt, rmatch_Any, Hc, rmatch_Alt.
    assert (Hq' : ∀ K : str → gmap nat str → option R,
              K (r ++ rest) caps = Some x →
              rmatch (quoted c) (c :: a ++ rest) caps K = Some x).
    { intros K HK. unfold quoted. rewrite rmatch_Cat.
      change (c :: a ++ rest) with ([c] ++ a ++ rest). rewrite rmatch_Lit_app.
      by eapply close_quote_run. }
    assert (HK : (if (length (r ++ rest) <? length (c :: a ++ rest))%nat
                  then rmatch obj (r ++ rest) caps k else None) = Some x).
    { destruct (Nat.ltb_spec (length (r ++ rest)) (length (c :: a ++ rest)));
        [by apply IH | simpl in *; lia]. }
    destruct (quote_cases c Hq) as [-> | ->].
    + by rewrite (Hq' _ HK).
    + unfold quoted at 1. rewrite rmatch_Cat, rmatch_Lit_cons by done.
      by rewrite (Hq' _ HK).
Qed.

(** ** The statements the pattern recognizes *)

Lemma strip_prefix_name (p name : str) (c : ascii) (r : str) :
  forallb is_alnum_ name = true → c ∉ p → existsb (λ a, negb (is_alnum_ a)) p = true →
  strip_prefix p (name ++ c :: r) = None.
Proof.
  revert name. induction p as [|a p IH]; intros name Hn Hc Hp; [done|].
  destruct name as [|n name]; simpl.
  - rewrite bool_decide_eq_false_2; [done|]. intros ->. apply Hc. left.
  - case_bool_decide as Han; [|done]. subst n. simpl in Hn, Hp.
    apply andb_true_iff in Hn as [Ha Hn]. rewrite Ha in Hp. simpl in Hp.
    apply IH; [done| |done]. intros ?. apply Hc. by right.
Qed.

Lemma rmatch_Lit_name {R} (p name : str) (c : ascii) (r : str) (caps : gmap nat str)
    (k : str → gmap nat str → option R) :
  forallb is_alnum_ name = true → c ∉ p → existsb (λ a, negb (is_alnum_ a)) p = true →
  rmatch (Lit p) (name ++ c :: r) caps k = None.
Proof. intros. simpl. by rewrite strip_prefix_name. Qed.

Lemma identifier_alnum (name : str) :
  identifier name = true → forallb is_alnum_ name = true ∧ name ≠ [].
Proof.
  destruct name as [|c name]; [done|]. simpl. intros [Hc Hn]%andb_true_iff.
  destruct (alpha_classes c Hc) as (_ & _ & Ha). by rewrite Ha, Hn.
Qed.

Ltac not_among :=
  let H := fresh in
  intros H; repeat (apply elem_of_cons in H as [H|H]; [discriminate|]);
  by apply elem_of_nil in H.

(** No statement before [setattr] in the pattern begins with a name that a
    dot or a bracket follows. *)
Lemma before_setattr (name : str) (c : ascii) (r : str) :
  identifier name = true → c = "."%char ∨ c = "["%char →
  match_pattern patterns (name ++ c :: r)
  = match_pattern (drop 3 patterns) (name ++ c :: r).
Proof.
  intros Hn Hc. destruct (identifier_alnum name Hn) as [Ha _].
  assert (H : ∀ p, p ∈ [py "throw "; py "//"; py "var "] →
              ∀ K : str → gmap nat str → option (str * gmap nat str),
              rmatch (Lit p) (name ++ c :: r) ∅ K = None).
  { intros p Hp K. apply rmatch_Lit_name; [done| |].
    - repeat (apply elem_of_cons in Hp as [-> | Hp]);
        try (by apply elem_of_nil in Hp); destruct Hc as [-> | ->]; not_among.
    - repeat (apply elem_of_cons in Hp as [-> | Hp]);
        try (by apply elem_of_nil in Hp); done. }
  unfold patterns. cbn [drop].
  do 3 rewrite match_pattern_cons. unfold match_here. cbn [seq].
  rewrite !rmatch_Group, !rmatch_Cat.
  rewrite !H by (repeat constructor). done.
Qed.

Lemma recognize_throw (message rest : str) :
  obj_text (S (length message)) message = true →
  match_pattern patterns (matched_text (Throw message) ++ rest)
  = Some (throw, rest, <[0%nat := matched_text (Throw message)]> ∅).
Proof.
  intros Hm. set (m := matched_text (Throw message)).
  assert (E : m ++ rest = py "throw " ++ message ++ py ";" ++ rest).
  { unfold m. cbn [matched_text]. by rewrite <- !app_assoc. }
  unfold patterns. rewrite match_pattern_cons. unfold match_here. cbn [seq].
  assert (rmatch (Group 0 (Cat (Lit (py "throw ")) (Cat obj (Lit (py ";")))))
            (m ++ rest) ∅ (λ s' caps, Some (s', caps))
          = Some (rest, <[0%nat := m]> ∅)) as ->; [|done].
  rewrite rmatch_Group. rewrite E at 1.
  rewrite rmatch_Cat, rmatch_Lit_app, rmatch_Cat.
  eapply obj_text_run; [done|]. rewrite obj_stop by done.
  rewrite rmatch_Lit_app. by rewrite take_app_sub.
Qed.

Lemma recognize_comment (text rest : str) :
  forallb dot text = true → starts_with dot rest = false →
  match_pattern patterns (matched_text (Comment text) ++ rest)
  = Some (comment, rest, <[0%nat := matched_text (Comment text)]> (<[1%nat := text]> ∅)).
Proof.
  intros Ht Hr. set (m := matched_text (Comment text)).
  assert (E : m ++ rest = py "//" ++ text ++ rest).
  { unfold m. cbn [matched_text]. by rewrite <- !app_assoc. }
  unfold patterns. rewrite match_pattern_cons.
  assert (match_here (Group 0 (seq [Lit (py "throw "); obj; Lit (py ";")]))
            (m ++ rest) = None) as -> by (by rewrite E).
  rewrite match_pattern_cons. unfold match_here. cbn [seq].
  assert (rmatch (Group 0 (Cat (Lit (py "//")) (Group 1 (Star (Any dot)))))
            (m ++ rest) ∅ (λ s' caps, Some (s', caps))
          = Some (rest, <[0%nat := m]> (<[1%nat := text]> ∅))) as ->; [|done].
  rewrite rmatch_Group. rewrite E at 1.
  rewrite rmatch_Cat, rmatch_Lit_app, rmatch_Group.
  apply star_class_run; [done|]. rewrite star_class_stop by done.
  by rewrite !take_app_sub.
Qed.

Lemma recognize_var (name lit rest : str) :
  identifier name = true → obj_text (S (length lit)) lit = true →
  match_pattern patterns (matched_text (NewVar name lit) ++ rest)
  = Some (var, rest,
          <[0%nat := matched_text (NewVar name lit)]>
            (<[2%nat := lit]> (<[1%nat := name]> ∅))).
Proof.
  intros Hn Hl. set (m := matched_text (NewVar name lit)).
  assert (E : m ++ rest = py "var " ++ name ++ py "=" ++ lit ++ py ";" ++ rest).
  { unfold m. cbn [matched_text]. by rewrite <- !app_assoc. }
  unfold patterns. rewrite match_pattern_cons.
  assert (match_here (Group 0 (seq [Lit (py "throw "); obj; Lit (py ";")]))
            (m ++ rest) = None) as -> by (by rewrite E).
  rewrite match_pattern_cons.
  assert (match_here (Group 0 (seq [Lit (py "//"); Group 1 (Star (Any dot))]))
            (m ++ rest) = None) as -> by (by rewrite E).
  rewrite match_pattern_cons. unfold match_here. cbn [seq].
  assert (rmatch (Group 0 (Cat (Lit (py "var ")) (Cat (Group 1 id)
                    (Cat (Lit (py "=")) (Cat (Group 2 obj) (Lit (py ";")))))))
            (m ++ rest) ∅ (λ s' caps, Some (s', caps))
          = Some (rest, <[0%nat := m]> (<[2%nat := lit]> (<[1%nat := name]> ∅))))
    as ->; [|done].
  rewrite rmatch_Group. rewrite E at 1.
  rewrite rmatch_Cat, rmatch_Lit_app, rmatch_Cat, rmatch_Group.
  apply id_run; [done|done|]. cbv beta.
  rewrite rmatch_Cat, rmatch_Lit_app, rmatch_Cat, rmatch_Group.
  eapply obj_text_run; [done|]. rewrite obj_stop by done.
  rewrite rmatch_Lit_app. by rewrite !take_app_sub.
Qed.

Lemma recognize_setfield (name field lit rest : str) :
  identifier name = true → identifier field = true →
  obj_text (S (length lit)) lit = true →
  match_pattern patterns (matched_text (SetField name field lit) ++ rest)
  = Some (setattr, rest,
          <[0%nat := matched_text (SetField name field lit)]>
            (<[3%nat := lit]> (<[2%nat := field]> (<[1%nat := name]> ∅)))).
Proof.
  intros Hn Hf Hl. set (m := matched_text (SetField name field lit)).
  assert (E : m ++ rest = name ++ py "." ++ field ++ py "=" ++ lit ++ py ";" ++ rest).
  { unfold m. cbn [matched_text]. by rewrite <- !app_assoc. }
  assert (Hb : match_pattern patterns (m ++ rest)
               = match_pattern (drop 3 patterns) (m ++ rest)).
  { rewrite E. apply (before_setattr name "."); [done | by left]. }
  rewrite Hb. clear Hb.
  unfold patterns. cbn [drop]. rewrite match_pattern_cons. unfold match_here. cbn [seq].
  assert (rmatch (Group 0 (Cat (Group 1 id) (Cat (Lit (py ".")) (Cat (Group 2 id)
                    (Cat (Lit (py "=")) (Cat (Group 3 obj) (Lit (py ";"))))))))
            (m ++ rest) ∅ (λ s' caps, Some (s', caps))
          = Some (rest, <[0%nat := m]> (<[3%nat := lit]> (<[2%nat := field]>
                          (<[1%nat := name]> ∅)))))
    as ->; [|done].
  rewrite rmatch_Group. rewrite E at 1.
  rewrite rmatch_Cat, rmatch_Group.
  apply id_run; [done|done|]. cbv beta.
  rewrite rmatch_Cat, rmatch_Lit_app, rmatch_Cat, rmatch_Group.
  apply id_run; [done|done|]. cbv beta.
  rewrite rmatch_Cat, rmatch_Lit_app, rmatch_Cat, rmatch_Group.
  eapply obj_text_run; [done|]. rewrite obj_stop by done.
  rewrite rmatch_Lit_app. by rewrite !take_app_sub.
Qed.

Lemma forallb_drop {A} (p : A → bool) (l : list A) (j : nat) :
  forallb p l = true → forallb p (drop j l) = true.
Proof.
  revert j. induction l as [|x l IH]; intros [|j] H; try done.
  simpl in H. apply andb_true_iff in H as [_ H]. by apply IH.
Qed.

(** The [setattr] pattern does not match a name that a bracket follows. *)
Lemma setattr_fails_at_bracket (name r : str) :
  identifier name = true →
  match_here (Group 0 (seq [Group 1 id; Lit (py "."); Group 2 id; Lit (py "=");
                            Group 3 obj; Lit (py ";")]))
    (name ++ "["%char :: r) = None.
Proof.
  intros Hn. destruct name as [|c name]; [done|]. simpl in Hn.
  apply andb_true_iff in Hn as [Hc Hn].
  unfold match_here. cbn [seq]. rewrite rmatch_Group, rmatch_Cat, rmatch_Group.
  unfold id. cbn [app]. rewrite rmatch_Cat, rmatch_Any, Hc.
  apply star_class_none.
  { done. }
  { reflexivity. }
  intros j Hj. cbv beta.
  rewrite rmatch_Cat. apply rmatch_Lit_name; [by apply forallb_drop| |done].
  not_among.
Qed.

Lemma no_occurrence (p1 p2 : ascii) (lit t : str) :
  occurs [p1; p2] lit = false → starts_with (λ c, bool_decide (c = p2)) t = false →
  ∀ j, (j < length lit)%nat → strip_prefix [p1; p2] (drop j lit ++ t) = None.
Proof.
  intros Ho Ht. induction lit as [|c lit IH]; intros j Hj; [simpl in Hj; lia|].
  cbn [occurs] in Ho.
  destruct (strip_prefix [p1; p2] (c :: lit)) eqn:Hs; [done|].
  destruct j as [|j].
  - cbn [drop app]. simpl in Hs |- *. destruct (bool_decide (p1 = c)); [|done].
    destruct lit as [|d lit].
    + destruct t as [|d t]; [done|]. simpl in Ht |- *.
      apply bool_decide_eq_false in Ht. by rewrite bool_decide_eq_false_2 by congruence.
    + simpl in Hs |- *. by destruct (bool_decide (p2 = d)).
  - cbn [drop]. apply IH; [done|simpl in Hj; lia].
Qed.

Lemma rmatch_Lit_None {R} (p s : str) (caps : gmap nat str)
    (k : str → gmap nat str → option R) :
  strip_prefix p s = None → rmatch (Lit p) s caps k = None.
Proof. intros H. simpl. by rewrite H. Qed.

Lemma recognize_setindex (name idx lit rest : str) :
  identifier name = true → forallb plain_char idx = true →
  forallb plain_char lit = true → occurs (py "]=") lit = false →
  match_pattern patterns (matched_text (SetIndex name idx lit) ++ rest)
  = Some (setitem, rest,
          <[0%nat := matched_text (SetIndex name idx lit)]>
            (<[3%nat := lit]> (<[2%nat := idx]> (<[1%nat := name]> ∅)))).
Proof.
  intros Hn Hi Hl Ho. set (m := matched_text (SetIndex name idx lit)).
  assert (E : m ++ rest = name ++ py "[" ++ idx ++ py "]=" ++ lit ++ py ";" ++ rest).
  { unfold m. cbn [matched_text]. by rewrite <- !app_assoc. }
  assert (Hb : match_pattern patterns (m ++ rest)
               = match_pattern (drop 4 patterns) (m ++ rest)).
  { assert (E2 : m ++ rest
                 = name ++ "["%char :: idx ++ py "]=" ++ lit ++ py ";" ++ rest)
      by exact E.
    rewrite E2. rewrite (before_setattr name "["); [|done|by right].
    unfold patterns. cbn [drop]. rewrite match_pattern_cons.
    by rewrite (setattr_fails_at_bracket name). }
  rewrite Hb. clear Hb.
  unfold patterns. cbn [drop]. rewrite match_pattern_cons. unfold match_here. cbn [seq].
  assert (rmatch (Group 0 (Cat (Group 1 id) (Cat (Lit (py "[")) (Cat (Group 2 obj)
                    (Cat (Lit (py "]=")) (Cat (Group 3 obj) (Lit (py ";"))))))))
            (m ++ rest) ∅ (λ s' caps, Some (s', caps))
          = Some (rest, <[0%nat := m]> (<[3%nat := lit]> (<[2%nat := idx]>
                          (<[1%nat := name]> ∅)))))
    as ->; [|done].
  rewrite rmatch_Group. rewrite E at 1.
  rewrite rmatch_Cat, rmatch_Group.
  apply id_run; [done|reflexivity|]. cbv beta.
  rewrite rmatch_Cat, rmatch_Lit_app, rmatch_Cat, rmatch_Group.
  apply obj_plain_run; [done|].
  change (py "]=" ++ lit ++ py ";" ++ rest)
    with ("]"%char :: "="%char :: lit ++ py ";" ++ rest).
  rewrite obj_cons by done. rewrite obj_cons by done.
  rewrite obj_skip_failing; [|done|].
  2: { intros j Hj. cbv beta. rewrite rmatch_Cat. apply rmatch_Lit_None.
       by apply (no_occurrence "]" "=" lit (py ";" ++ rest) Ho eq_refl j Hj). }
  rewrite obj_stop by done. cbv beta.
  rewrite rmatch_Cat. rewrite rmatch_Lit_None by reflexivity.
  rewrite rmatch_Cat. rewrite rmatch_Lit_None by reflexivity.
  rewrite rmatch_Cat.
  change ("]"%char :: "="%char :: lit ++ py ";" ++ rest)
    with (py "]=" ++ lit ++ py ";" ++ rest).
  rewrite rmatch_Lit_app, rmatch_Cat, rmatch_Group.
  apply obj_plain_run; [done|]. rewrite obj_stop by done.
  rewrite rmatch_Lit_app. by rewrite !take_app_sub.
Qed.

(** No statement before [call] in the pattern matches at the name of the
    callback. *)
Lemma before_call (r : str) :
  match_pattern patterns (py "dwr.engine._remoteHandleCallback('" ++ r)
  = match_pattern (drop 5 patterns) (py "dwr.engine._remoteHandleCallback('" ++ r).
Proof.
  set (t := py "dwr.engine._remoteHandleCallback('" ++ r).
  unfold patterns. cbn [drop]. do 5 rewrite match_pattern_cons.
  assert (match_here (Group 0 (seq [Lit (py "throw "); obj; Lit (py ";")])) t = None)
    as -> by done.
  assert (match_here (Group 0 (seq [Lit (py "//"); Group 1 (Star (Any dot))])) t = None)
    as -> by done.
  assert (match_here (Group 0 (seq [Lit (py "var "); Group 1 id; Lit (py "=");
                                    Group 2 obj; Lit (py ";")])) t = None)
    as -> by done.
  assert (match_here (Group 0 (seq [Group 1 id; Lit (py "."); Group 2 id; Lit (py "=");
                                    Group 3 obj; Lit (py ";")])) t = None) as ->.
  { unfold match_here. cbn [seq]. rewrite rmatch_Group, rmatch_Cat, rmatch_Group.
    unfold id at 1. rewrite rmatch_Cat.
    change t with ("d"%char :: py "wr" ++ py ".engine._remoteHandleCallback('" ++ r).
    rewrite rmatch_Any. change (is_alpha_ "d") with true. cbv iota.
    apply star_class_none; [done|reflexivity|]. intros j Hj. cbv beta.
    destruct j as [|[|[|j]]]; [reflexivity|reflexivity| |simpl in Hj; lia].
    cbn [drop py list_ascii_of_string app]. rewrite rmatch_Cat.
    change ("."%char :: ?x) with (py "." ++ x). rewrite rmatch_Lit_app.
    rewrite rmatch_Cat, rmatch_Group. unfold id. rewrite rmatch_Cat.
    change (py "." ++ ?x) with ("."%char :: x).
    match goal with
    | |- rmatch (Any is_alpha_) ?s _ _ = None =>
        change s with ("e"%char :: py "ngine" ++ py "._remoteHandleCallback('" ++ r)
    end.
    rewrite rmatch_Any. change (is_alpha_ "e") with true. cbv iota.
    apply star_class_none; [done|reflexivity|]. intros j' Hj'. cbv beta.
    destruct j' as [|[|[|[|[|[|j']]]]]]; reflexivity. }
  assert (match_here (Group 0 (seq [Group 1 id; Lit (py "["); Group 2 obj; Lit (py "]=");
                                    Group 3 obj; Lit (py ";")])) t = None) as ->.
  { unfold match_here. cbn [seq]. rewrite rmatch_Group, rmatch_Cat, rmatch_Group.
    unfold id at 1. rewrite rmatch_Cat.
    change t with ("d"%char :: py "wr" ++ py ".engine._remoteHandleCallback('" ++ r).
    rewrite rmatch_Any. change (is_alpha_ "d") with true. cbv iota.
    apply star_class_none; [done|reflexivity|]. intros j Hj. cbv beta.
    destruct j as [|[|[|j]]]; reflexivity. }
  done.
Qed.

Lemma join_names (n : str) (ns : list str) :
  join (py ",") (n :: ns) = n ++ flat_map (λ m, py "," ++ m) ns.
Proof.
  revert n. induction ns as [|m ns IH]; intros n.
  - simpl. by rewrite app_nil_r.
  - rewrite join_cons2, IH. cbn [flat_map]. by rewrite <- !app_assoc.
Qed.

Lemma names_tail_run {R} (ns : list str) (r : str) (caps : gmap nat str)
    (k : str → gmap nat str → option R) (x : R) :
  forallb identifier ns = true → k ("]"%char :: r) caps = Some x →
  rmatch (Star (Cat (Lit (py ",")) id))
    (flat_map (λ m, py "," ++ m) ns ++ "]"%char :: r) caps k = Some x.
Proof.
  intros Hns Hk. induction ns as [|n ns IH].
  - cbn [flat_map app]. rewrite rmatch_Star_unfold, rmatch_Cat.
    by rewrite rmatch_Lit_None by reflexivity.
  - simpl in Hns. apply andb_true_iff in Hns as [Hn Hns].
    cbn [flat_map]. rewrite <- !app_assoc.
    rewrite rmatch_Star_unfold, rmatch_Cat, rmatch_Lit_app.
    assert (Hnext : starts_with is_alnum_
                      (flat_map (λ m, py "," ++ m) ns ++ "]"%char :: r) = false).
    { by destruct ns. }
    rewrite (id_run n _ caps _ x); [done|done|done|].
    destruct (Nat.ltb_spec
                (length (flat_map (λ m, py "," ++ m) ns ++ "]"%char :: r))
                (length (py "," ++ n ++ flat_map (λ m, py "," ++ m) ns ++ "]"%char :: r)))
      as [_|Hge].
    + by apply IH.
    + rewrite !length_app in Hge. simpl in Hge. lia.
Qed.

Lemma names_run {R} (names : list str) (r : str) (caps : gmap nat str)
    (k : str → gmap nat str → option R) (x : R) :
  forallb identifier names = true → k ("]"%char :: r) caps = Some x →
  rmatch (Opt (Cat id (Star (Cat (Lit (py ",")) id))))
    (join (py ",") names ++ "]"%char :: r) caps k = Some x.
Proof.
  intros Hns Hk. unfold Opt. rewrite rmatch_Alt. destruct names as [|n ns].
  - cbn [join app]. unfold id at 1. rewrite !rmatch_Cat, rmatch_Any.
    change (is_alpha_ "]") with false. cbv iota. unfold Eps.
    by change (rmatch (Lit []) ("]"%char :: r) caps k) with (k ("]"%char :: r) caps).
  - simpl in Hns. apply andb_true_iff in Hns as [Hn Hns].
    rewrite join_names, <- app_assoc, rmatch_Cat.
    rewrite (id_run n _ caps _ x); [done|done| |].
    + by destruct ns.
    + by apply names_tail_run.
Qed.

Lemma recognize_callback (batch_id call_id : str) (names : list str) (rest : str) :
  forallb is_digit batch_id = true → batch_id ≠ [] →
  forallb is_digit call_id = true → call_id ≠ [] →
  forallb identifier names = true →
  match_pattern patterns (matched_text (Callback batch_id call_id names) ++ rest)
  = Some (call, rest,
          <[0%nat := matched_text (Callback batch_id call_id names)]>
            (<[3%nat := join (py ",") names]> (<[2%nat := call_id]>
               (<[1%nat := batch_id]> ∅)))).
Proof.
  intros Hb Hbn Hc Hcn Hns. set (m := matched_text (Callback batch_id call_id names)).
  assert (E : m ++ rest
              = py "dwr.engine._remoteHandleCallback('" ++ batch_id ++ py "','"
                ++ call_id ++ py "',[" ++ join (py ",") names ++ py "]);" ++ rest).
  { unfold m. cbn [matched_text]. by rewrite <- !app_assoc. }
  assert (Hbc : match_pattern patterns (m ++ rest)
                = match_pattern (drop 5 patterns) (m ++ rest)).
  { rewrite E. apply before_call. }
  rewrite Hbc. clear Hbc.
  unfold patterns. cbn [drop]. rewrite match_pattern_cons. unfold match_here. cbn [seq].
  assert (rmatch (Group 0
            (Cat (Lit (py "dwr.engine._remoteHandleCallback('"))
               (Cat (Group 1 digits) (Cat (Lit (py "','")) (Cat (Group 2 digits)
                  (Cat (Lit (py "',["))
                     (Cat (Group 3 (Opt (Cat id (Star (Cat (Lit (py ",")) id)))))
                        (Lit (py "]);")))))))))
            (m ++ rest) ∅ (λ s' caps, Some (s', caps))
          = Some (rest, <[0%nat := m]> (<[3%nat := join (py ",") names]>
                          (<[2%nat := call_id]> (<[1%nat := batch_id]> ∅)))))
    as ->; [|done].
  rewrite rmatch_Group. rewrite E at 1.
  rewrite rmatch_Cat, rmatch_Lit_app, rmatch_Cat, rmatch_Group.
  apply digits_run; [done|done|reflexivity|]. cbv beta.
  rewrite rmatch_Cat, rmatch_Lit_app, rmatch_Cat, rmatch_Group.
  apply digits_run; [done|done|reflexivity|]. cbv beta.
  rewrite rmatch_Cat, rmatch_Lit_app, rmatch_Cat, rmatch_Group.
  change (py "]);" ++ rest) with ("]"%char :: py ");" ++ rest).
  apply names_run; [done|]. cbv beta.
  change ("]"%char :: py ");" ++ rest) with (py "]);" ++ rest).
  rewrite rmatch_Lit_app. by rewrite !take_app_sub.
Qed.

(** ** The statements of a response, one after the other *)

Lemma matched_text_nonempty (s : statement) (k : key) (caps : gmap nat str) :
  recognized s = Some (k, caps) → matched_text s ≠ [].
Proof.
  destruct s as [ws|text|message|name lit|name field lit|name idx lit|b c names];
    cbn [recognized matched_text]; intros H; try discriminate; try (intros E; discriminate E).
  - intros E. apply app_eq_nil in E as [_ E]. discriminate E.
  - intros E. apply app_eq_nil in E as [_ E]. discriminate E.
Qed.

Lemma newline_is_no_dot (rest : str) : starts_with dot (nl ++ rest) = false.
Proof. done. Qed.

(** Every well-formed statement is matched at the head of a text, by the
    pattern of its kind and with the groups of its parts, whatever follows
    its trailer. *)
Lemma recognize (s : statement) (rest : str) (k : key) (caps : gmap nat str) :
  well_formed s = true → recognized s = Some (k, caps) →
  match_pattern patterns (matched_text s ++ trailer s ++ rest)
  = Some (k, trailer s ++ rest, caps).
Proof.
  destruct s as [ws|text|message|name lit|name field lit|name idx lit|b c names];
    cbn [well_formed recognized trailer]; intros Hw Hr; try discriminate;
    injection Hr as <- <-; cbn [app].
  - apply recognize_comment; [done|apply newline_is_no_dot].
  - by apply recognize_throw.
  - apply andb_true_iff in Hw as [Hn Hl]. by apply recognize_var.
  - apply andb_true_iff in Hw as [Hw Hl]. apply andb_true_iff in Hw as [Hn Hf].
    by apply recognize_setfield.
  - apply andb_true_iff in Hw as [Hw Ho]. apply andb_true_iff in Hw as [Hw Hl].
    apply andb_true_iff in Hw as [Hn Hi]. apply negb_true_iff in Ho.
    by apply recognize_setindex.
  - apply andb_true_iff in Hw as [Hw Hns]. apply andb_true_iff in Hw as [Hw Hcn].
    apply andb_true_iff in Hw as [Hw Hc]. apply andb_true_iff in Hw as [Hb Hbn].
    apply recognize_callback; try done.
    + by destruct b.
    + by destruct c.
Qed.

Lemma decode_statement (s : statement) (st : state) (rest : str) :
  well_formed s = true →
  decode_from st (statement_text s ++ rest)
  = (st1 ← perform s st; decode_from st1 rest).
Proof.
  intros Hw. unfold statement_text, perform. rewrite <- app_assoc.
  destruct (recognized s) as [[k caps]|] eqn:Hr.
  - rewrite (decode_match st (matched_text s) (trailer s ++ rest) k caps);
      [|by apply recognize|by eapply matched_text_nonempty].
    destruct (execute (at_head k (matched_text s) caps) st) as [st1|e]; [|done].
    cbn [mbind result_bind]. apply decode_spaces.
    destruct s; try done.
  - destruct s; try discriminate. cbn [matched_text trailer app].
    cbn [mbind result_bind]. by apply decode_spaces.
Qed.

Lemma decode_statements (ss : list statement) (st : state) :
  forallb well_formed ss = true →
  decode_from st (flat_map statement_text ss)
  = (st1 ← perform_all ss st; decode_from st1 []).
Proof.
  revert st. induction ss as [|s ss IH]; intros st Hw; [done|].
  simpl in Hw. apply andb_true_iff in Hw as [Hs Hss].
  cbn [flat_map perform_all]. rewrite decode_statement by done.
  destruct (perform s st) as [st1|e]; [|done].
  cbn [mbind result_bind]. by apply IH.
Qed.

(** The scan of a text that begins with a well-formed statement yields
    the match of that statement first: it starts at the head of the text,
    covers the statement without its trailer and has the key and the
    groups of the statement; the other matches are those of the rest of
    the text, further on by the length of the statement. What makes a
    statement well-formed is said at [well_formed]: for an index assignment,
    an index and a value without semicolon or quote, and a value without a
    closing bracket followed by an equals sign. *)
Theorem statement_is_the_first_match (s : statement) (rest : str)
    (k : key) (caps : gmap nat str) :
  well_formed s = true → recognized s = Some (k, caps) →
  finditer (statement_text s ++ rest)
  = at_head k (matched_text s) caps
    :: map (shift (length (matched_text s))) (finditer (trailer s ++ rest)).
Proof.
  intros Hw Hr. unfold statement_text. rewrite <- app_assoc.
  apply finditer_match; [by apply recognize|by eapply matched_text_nonempty].
Qed.


Lemma statement_is_the_first_match_witness :
  let rest := py "s3[1]=2345;" in
  finditer (py "s3[0]=1234;" ++ rest)
  = at_head setitem (py "s3[0]=1234;")
      (<[0%nat := py "s3[0]=1234;"]> (<[3%nat := py "1234"]>
         (<[2%nat := py "0"]> (<[1%nat := py "s3"]> ∅))))
    :: map (shift 11) (finditer rest).
Proof.
  intros rest.
  apply (statement_is_the_first_match (SetIndex (py "s3") (py "0") (py "1234")) rest);
    reflexivity.
Defined.


Lemma execute_keeps_exceptions (mo : Match) (st st' : state) :
  lastgroup mo ≠ exception → execute mo st = Ok st' →
  exceptions st' = exceptions st.
Proof.
  intros Hk H. unfold execute in H.
  destruct (lastgroup mo); try done;
    repeat match goal with
           | H : Ok _ = Ok _ |- _ => injection H as <-
           | H : (_ ≫= _) = Ok _ |- _ => apply bind_Ok in H as (? & ? & H)
           | H : match ?x with _ => _ end = Ok _ |- _ => destruct x
           end; try done.
Qed.

Lemma perform_keeps_exceptions (s : statement) (st st' : state) :
  perform s st = Ok st' → exceptions st' = exceptions st.
Proof.
  unfold perform. destruct (recognized s) as [[k caps]|] eqn:Hr.
  - intros H. apply (execute_keeps_exceptions _ _ _) in H; [done|].
    destruct s; try discriminate; injection Hr as <- _; done.
  - by intros [= <-].
Qed.

Lemma perform_all_keeps_exceptions (ss : list statement) (st st' : state) :
  perform_all ss st = Ok st' → exceptions st' = exceptions st.
Proof.
  revert st. induction ss as [|s ss IH]; intros st H.
  - by injection H as <-.
  - cbn [perform_all] in H. apply bind_Ok in H as (st1 & H1 & H).
    rewrite (IH _ H). by eapply perform_keeps_exceptions.
Qed.

(** A text made of well-formed statements is decoded statement by
    statement: [parse_js] does to the empty state what the loop body does
    with each statement in turn, stops at the first one that raises and
    raises what it raised, and otherwise returns the results collected. *)
Theorem decoding_follows_statements (ss : list statement) :
  forallb well_formed ss = true →
  parse_js (flat_map statement_text ss) = mapping <$> perform_all ss initial.
Proof.
  intros Hw. rewrite <- decode_from_initial, decode_statements by done.
  destruct (perform_all ss initial) as [st|e] eqn:H; [|done].
  cbn [mbind result_bind fmap result_fmap]. rewrite decode_nil.
  by rewrite (perform_all_keeps_exceptions _ _ _ H).
Qed.

Lemma decoding_follows_statements_witness :
  parse_js (flat_map statement_text sample_statements)
  = mapping <$> perform_all sample_statements initial.
Proof. apply (decoding_follows_statements sample_statements). reflexivity. Defined.

Lemma perform_silent (s : statement) (st : state) :
  silent s = true → perform s st = Ok st.
Proof. by destruct s. Qed.

Lemma perform_all_loud (ss : list statement) (st : state) :
  perform_all (filter (λ s, negb (silent s)) ss) st = perform_all ss st.
Proof.
  revert st. induction ss as [|s ss IH]; intros st; [done|].
  rewrite filter_cons. destruct (silent s) eqn:Hs.
  - rewrite decide_False by (cbn; tauto). cbn [perform_all].
    rewrite perform_silent by done. apply IH.
  - rewrite decide_True by (cbn; tauto). cbn [perform_all].
    destruct (perform s st); [apply IH|done].
Qed.

Lemma well_formed_loud (ss : list statement) :
  forallb well_formed ss = true →
  forallb well_formed (filter (λ s, negb (silent s)) ss) = true.
Proof.
  induction ss as [|s ss IH]; [done|]. simpl.
  intros [Hs Hss]%andb_true_iff. rewrite filter_cons.
  destruct (decide (negb (silent s))); [|by apply IH].
  simpl. rewrite Hs. by apply IH.
Qed.

(** White space, comment lines and [throw] statements change nothing: a
    text of well-formed statements decodes as the text of its other
    statements does, with nothing between them. *)
Theorem silent_statements_change_nothing (ss : list statement) :
  forallb well_formed ss = true →
  parse_js (flat_map statement_text ss)
  = parse_js (flat_map statement_text (filter (λ s, negb (silent s)) ss)).
Proof.
  intros Hw.
  rewrite <- (decode_from_initial (flat_map statement_text ss)).
  rewrite <- (decode_from_initial (flat_map statement_text (filter _ ss))).
  rewrite (decode_statements ss) by done.
  rewrite (decode_statements (filter _ ss)) by (by apply well_formed_loud).
  by rewrite perform_all_loud.
Qed.

Lemma silent_statements_change_nothing_witness :
  parse_js (flat_map statement_text sample_statements)
  = parse_js (flat_map statement_text
                (filter (λ s, negb (silent s)) sample_statements)).
Proof. apply (silent_statements_change_nothing sample_statements). reflexivity. Defined.

(** ** The id read from [engine.js] *)

Lemma rmatch_Lit_Some {R} (p s : str) (caps : gmap nat str)
    (k : str → gmap nat str → option R) (x : R) :
  rmatch (Lit p) s caps k = Some x → ∃ s', s = p ++ s' ∧ k s' caps = Some x.
Proof.
  simpl. destruct (strip_prefix p s) as [s'|] eqn:Hp; [|done].
  apply strip_prefix_Some in Hp. eauto.
Qed.

Lemma rmatch_Any_Some {R} (p : ascii → bool) (s : str) (caps : gmap nat str)
    (k : str → gmap nat str → option R) (x : R) :
  rmatch (Any p) s caps k = Some x →
  ∃ c s', s = c :: s' ∧ p c = true ∧ k s' caps = Some x.
Proof.
  simpl. destruct s as [|c s']; [done|]. destruct (p c) eqn:Hc; [|done]. eauto.
Qed.

Lemma fixed_match_literal (p s : str) : fixed_match (map is_char p) (p ++ s) = true.
Proof.
  induction p as [|c p IH]; [done|]. simpl. unfold is_char at 1.
  by rewrite bool_decide_eq_true_2.
Qed.

Lemma fixed_match_app (ps qs : list (ascii → bool)) (a s : str) :
  length a = length ps →
  fixed_match (ps ++ qs) (a ++ s) = fixed_match ps a && fixed_match qs s.
Proof.
  revert a. induction ps as [|p ps IH]; intros [|c a] H; try done.
  simpl. rewrite IH by (simpl in H; lia). by rewrite andb_assoc.
Qed.

Lemma fixed_match_drop (ps : list (ascii → bool)) (a s : str) :
  fixed_match ps (a ++ s) = true → (length a ≤ length ps)%nat →
  fixed_match (drop (length a) ps) s = true.
Proof.
  revert ps. induction a as [|c a IH]; intros ps H Hl; [done|].
  destruct ps as [|p ps]; [simpl in Hl; lia|].
  simpl in H. apply andb_true_iff in H as [_ H]. simpl. apply IH; [done|].
  simpl in Hl. lia.
Qed.

Lemma fixed_match_take (ps : list (ascii → bool)) (a s : str) :
  fixed_match ps (a ++ s) = true → (length ps ≤ length a)%nat →
  fixed_match ps a = true.
Proof.
  revert a. induction ps as [|p ps IH]; intros a H Hl; [done|].
  destruct a as [|c a]; [simpl in Hl; lia|].
  simpl in H |- *. apply andb_true_iff in H as [-> H]. apply (IH a); [done|].
  simpl in Hl. lia.
Qed.

Lemma fixed_match_skip (ps qs : list (ascii → bool)) (s : str) :
  fixed_match (ps ++ qs) s = true → fixed_match qs (drop (length ps) s) = true.
Proof.
  revert s. induction ps as [|p ps IH]; intros s H; [done|].
  destruct s as [|c s]; [done|]. simpl in H.
  apply andb_true_iff in H as [_ H]. by apply IH.
Qed.

Lemma fixed_match_strip (p s : str) :
  fixed_match (map is_char p) s = true → ∃ s', strip_prefix p s = Some s'.
Proof.
  revert s. induction p as [|c p IH]; intros s H; [by eexists|].
  destruct s as [|d s]; [done|]. simpl in H. apply andb_true_iff in H as [Hc H].
  simpl. unfold is_char in Hc. rewrite Hc. by apply IH.
Qed.

(** A match of the pattern begins with the characters of the marker. *)
Lemma match_begins_with_marker (s s' : str) (caps : gmap nat str) :
  match_here origScriptSessionId s = Some (s', caps) →
  fixed_match marker_classes s = true.
Proof.
  unfold match_here, origScriptSessionId. cbn [seq]. intros H.
  rewrite rmatch_Cat in H. apply rmatch_Lit_Some in H as (s1 & -> & H).
  rewrite rmatch_Cat in H. apply rmatch_Any_Some in H as (c1 & s2 & -> & Hc1 & H).
  rewrite rmatch_Cat in H. apply rmatch_Lit_Some in H as (s3 & -> & H).
  rewrite rmatch_Cat in H. apply rmatch_Any_Some in H as (c2 & s4 & -> & Hc2 & H).
  rewrite rmatch_Cat in H. apply rmatch_Lit_Some in H as (s5 & -> & _).
  unfold marker_classes.
  rewrite (fixed_match_app (map is_char (py "dwr")) _ (py "dwr")) by done.
  change (fixed_match (map is_char (py "dwr")) (py "dwr")) with true.
  cbn [andb app fixed_match]. rewrite Hc1. cbn [andb].
  rewrite (fixed_match_app (map is_char (py "engine")) _ (py "engine")) by done.
  change (fixed_match (map is_char (py "engine")) (py "engine")) with true.
  cbn [andb app fixed_match]. rewrite Hc2. cbn [andb].
  apply fixed_match_literal.
Qed.

Lemma occurs_drop (p s : str) (j : nat) :
  occurs p s = false → strip_prefix p (drop j s) = None.
Proof.
  revert j. induction s as [|c s IH]; intros j H.
  - rewrite drop_nil. simpl in H. by destruct (strip_prefix p []).
  - cbn [occurs] in H. destruct (strip_prefix p (c :: s)) eqn:Hp; [done|].
    destruct j as [|j]; [done|]. by apply IH.
Qed.

(** A match of the pattern has the name of the variable eleven characters
    further on. *)
Lemma match_has_name (s s' : str) (caps : gmap nat str) :
  match_here origScriptSessionId s = Some (s', caps) →
  ∃ r, strip_prefix orig_id_name (drop 11 s) = Some r.
Proof.
  intros H. apply match_begins_with_marker in H. unfold marker_classes in H.
  rewrite !app_assoc in H. apply fixed_match_skip in H.
  by apply fixed_match_strip.
Qed.

Lemma search_None (r : regex) (s : str) :
  (∀ j, match_here r (drop j s) = None) → search r s = None.
Proof.
  induction s as [|c s IH]; intros H.
  - pose proof (H 0%nat) as H0. simpl in H0 |- *. by rewrite H0.
  - pose proof (H 0%nat) as H0. cbn [drop] in H0. cbn [search]. rewrite H0.
    apply IH. intros j. apply (H (S j)).
Qed.

Lemma search_skip (r : regex) (a s : str) :
  (∀ j, (j < length a)%nat → match_here r (drop j a ++ s) = None) →
  search r (a ++ s) = search r s.
Proof.
  induction a as [|c a IH]; intros H; [done|].
  pose proof (H 0%nat ltac:(simpl; lia)) as H0. cbn [drop] in H0.
  cbn [app search]. cbn [app] in H0. rewrite H0.
  apply IH. intros j Hj. apply (H (S j)). simpl. lia.
Qed.

(** The marker does not overlap itself. *)
Lemma marker_shifted (n : nat) (after : str) :
  (1 ≤ n)%nat → (n < 35)%nat →
  fixed_match (drop n marker_classes) (orig_id_marker ++ after) = false.
Proof.
  intros H1 H2. do 35 (destruct n as [|n]; [try lia; reflexivity|]). lia.
Qed.

(** Text without the name of the variable before the marker holds no
    earlier match. *)
Lemma no_match_before_marker (prefix after : str) (j : nat) :
  occurs orig_id_name prefix = false → (j < length prefix)%nat →
  match_here origScriptSessionId (drop j prefix ++ orig_id_marker ++ after) = None.
Proof.
  intros Ho Hj.
  destruct (match_here origScriptSessionId (drop j prefix ++ orig_id_marker ++ after))
    as [[s' caps]|] eqn:Hm; [exfalso|done].
  destruct (Nat.lt_ge_cases (length (drop j prefix)) 35) as [Hs|Hl].
  - apply match_begins_with_marker in Hm.
    apply fixed_match_drop in Hm; [|simpl; lia].
    rewrite marker_shifted in Hm; [done| |done].
    rewrite length_drop. lia.
  - apply match_begins_with_marker in Hm.
    apply fixed_match_take in Hm; [|simpl; lia].
    unfold marker_classes in Hm. rewrite !app_assoc in Hm.
    apply fixed_match_skip in Hm. apply fixed_match_strip in Hm as (r & Hr).
    change (length _) with 11%nat in Hr. rewrite drop_drop in Hr.
    by rewrite (occurs_drop _ _ _ Ho) in Hr.
Qed.

(** The greedy group takes the line up to its last double quote and
    semicolon. *)
Lemma group_takes_the_line (id tail rest : str) :
  forallb dot id = true → forallb dot tail = true →
  occurs [dq; ";"%char] tail = false → starts_with dot rest = false →
  match_here origScriptSessionId
    (orig_id_marker ++ id ++ dq :: ";"%char :: tail ++ rest)
  = Some (tail ++ rest, <[1%nat := id]> ∅).
Proof.
  intros Hid Htail Ho Hrest.
  unfold match_here, origScriptSessionId. cbn [seq].
  set (X := id ++ dq :: ";"%char :: tail ++ rest).
  change (orig_id_marker ++ X)
    with (py "dwr" ++ "."%char :: (py "engine" ++ "."%char :: (orig_id_name ++ X))).
  rewrite rmatch_Cat. rewrite (rmatch_Lit_app (py "dwr")).
  rewrite rmatch_Cat, rmatch_Any. change (dot ".") with true. cbv iota.
  rewrite rmatch_Cat. rewrite (rmatch_Lit_app (py "engine")).
  rewrite rmatch_Cat, rmatch_Any. change (dot ".") with true. cbv iota.
  rewrite rmatch_Cat. fold orig_id_name. rewrite (rmatch_Lit_app orig_id_name).
  rewrite rmatch_Cat, rmatch_Group. unfold X.
  set (k := λ (s' : str) (caps' : gmap nat str),
         rmatch (Lit (dq :: py ";")) s'
           (<[1%nat := take (length (id ++ dq :: ";"%char :: tail ++ rest) - length s')
                         (id ++ dq :: ";"%char :: tail ++ rest)]> caps')
           (λ s'0 caps'0, Some (s'0, caps'0))).
  assert (Hk : k (dq :: ";"%char :: tail ++ rest) ∅
               = Some (tail ++ rest, <[1%nat := id]> ∅)).
  { unfold k. rewrite take_app_sub.
    change (dq :: ";"%char :: tail ++ rest) with ((dq :: py ";") ++ tail ++ rest).
    by rewrite rmatch_Lit_app. }
  apply star_class_run; [done|].
  rewrite star_class_cons by done.
  assert (rmatch (Star (Any dot)) ((";"%char :: tail) ++ rest) ∅ k = None) as Hn.
  { apply star_class_none; [done|done|]. intros j Hj. unfold k.
    apply rmatch_Lit_None. destruct j as [|j]; [done|]. cbn [drop].
    simpl in Hj. destruct (decide (j < length tail)%nat) as [Hlt|Hge].
    - apply (no_occurrence dq ";" tail rest); [done| |done].
      destruct rest as [|c rest]; [done|]. simpl in Hrest |- *.
      apply bool_decide_eq_false. intros ->. done.
    - rewrite drop_ge by lia. destruct rest as [|c rest]; [done|].
      simpl in Hrest |- *. apply bool_decide_eq_false_2 in Hrest || idtac.
      destruct (bool_decide (dq = c)) eqn:Hc; [|done].
      apply bool_decide_eq_true in Hc. by subst c. }
  cbn [app] in Hn. by rewrite Hn.
Qed.

Lemma search_here (r : regex) (s s' : str) (caps : gmap nat str) :
  match_here r s = Some (s', caps) → search r s = Some caps.
Proof. intros H. destruct s; simpl; by rewrite H. Qed.

Lemma search_at_marker (prefix id tail rest : str) :
  occurs orig_id_name prefix = false →
  forallb dot id = true → forallb dot tail = true →
  occurs [dq; ";"%char] tail = false → starts_with dot rest = false →
  search origScriptSessionId
    (prefix ++ orig_id_marker ++ id ++ dq :: ";"%char :: tail ++ rest)
  = Some (<[1%nat := id]> ∅).
Proof.
  intros Hp Hid Htail Ho Hrest. rewrite search_skip.
  - apply (search_here _ _ (tail ++ rest)). by apply group_takes_the_line.
  - intros j Hj. by apply no_match_before_marker.
Qed.

Lemma search_without_name (text : str) :
  occurs orig_id_name text = false → search origScriptSessionId text = None.
Proof.
  intros Ho. apply search_None. intros j.
  destruct (match_here origScriptSessionId (drop j text)) as [[s' caps]|] eqn:Hm; [|done].
  apply match_has_name in Hm as (r & Hr). rewrite drop_drop in Hr.
  by rewrite (occurs_drop _ _ _ Ho) in Hr.
Qed.

(** The id comes from the first line of [engine.js] that assigns
    [dwr.engine._origScriptSessionId]: when the name of the variable does not
    occur before that line, the id is what stands between the double quote
    after the equals sign and the last double quote and semicolon of the
    line, followed by [42]. The id may itself hold double quotes and
    semicolons. *)
Theorem script_session_id_is_read_from_its_line
    (respond : list request → request → outcome str)
    (session : BlackboardSession) (prefix id tail rest : str) :
  _script_session_id session = None →
  respond (sent session) engine_js_request
  = Done (prefix ++ orig_id_marker ++ id ++ dq :: ";"%char :: tail ++ rest) →
  occurs orig_id_name prefix = false →
  forallb dot id = true → forallb dot tail = true →
  occurs [dq; ";"%char] tail = false → starts_with dot rest = false →
  (get_script_session_id respond session).1 = Done (id ++ py "42").
Proof.
  intros Hs Hr Hp Hid Htail Ho Hrest. unfold get_script_session_id. rewrite Hs.
  unfold mbind, io_bind, send. fold engine_js_request. rewrite Hr.
  by rewrite search_at_marker.
Qed.

(** When the text of [engine.js] does not hold the name of the variable
    followed by an equals sign and a double quote, the id is the fixed one
    of the source followed by [42]. *)
Theorem script_session_id_by_default
    (respond : list request → request → outcome str)
    (session : BlackboardSession) (text : str) :
  _script_session_id session = None →
  respond (sent session) engine_js_request = Done text →
  occurs orig_id_name text = false →
  (get_script_session_id respond session).1 = Done (default_orig_id ++ py "42").
Proof.
  intros Hs Hr Ho. unfold get_script_session_id. rewrite Hs.
  unfold mbind, io_bind, send. fold engine_js_request. rewrite Hr.
  by rewrite search_without_name.
Qed.

Lemma script_session_id_is_read_from_its_line_witness :
  (get_script_session_id two_assignments_respond sample_session).1
  = Done (two_assignments_id ++ py "42").
Proof.
  apply (script_session_id_is_read_from_its_line two_assignments_respond sample_session
           (py "// engine.js" ++ nl) two_assignments_id (py " // id") nl);
    reflexivity.
Defined.

Lemma script_session_id_by_default_witness :
  (get_script_session_id plain_respond sample_session).1
  = Done (default_orig_id ++ py "42").
Proof.
  apply (script_session_id_by_default plain_respond sample_session
           (py "// engine.js" ++ nl ++ py "dwr.engine._scriptSessionId = null;" ++ nl));
    reflexivity.
Defined.

(** ** The directory of an attempt *)

Lemma strip_prefix_rev_suffix (n p : str) :
  strip_prefix (rev p) (rev (n ++ p)) = Some (rev n).
Proof. rewrite rev_app_distr. apply strip_prefix_app. Qed.

Lemma forallb_rev_true {A} (p : A → bool) (l : list A) :
  forallb p l = true → forallb p (rev l) = true.
Proof.
  rewrite !forallb_forall. intros H x Hx. apply H. by apply in_rev.
Qed.

Lemma digits_after_underscore (x y n m : str) :
  forallb is_digit n = true → forallb is_digit m = true →
  x ++ "_"%char :: n = y ++ "_"%char :: m → x = y ∧ n = m.
Proof.
  intros Hn Hm H.
  assert (Hr : rev n ++ "_"%char :: rev x = rev m ++ "_"%char :: rev y).
  { apply (f_equal (@rev ascii)) in H. rewrite !rev_app_distr in H. simpl in H.
    by rewrite <- !app_assoc in H. }
  assert (G : ∀ a b u v : str, forallb is_digit a = true → forallb is_digit b = true →
              a ++ "_"%char :: u = b ++ "_"%char :: v → a = b ∧ u = v).
  { clear. induction a as [|c a IH]; intros [|d b] u v Ha Hb H; simpl in *.
    - by injection H as <-.
    - injection H as <- _. by apply andb_true_iff in Hb as [? _].
    - injection H as -> _. by apply andb_true_iff in Ha as [? _].
    - injection H as <- H'. apply andb_true_iff in Ha as [_ Ha].
      apply andb_true_iff in Hb as [_ Hb]. destruct (IH _ _ _ Ha Hb H') as [-> ->]. done. }
  apply G in Hr as [Hn' Hx].
  - apply (f_equal (@rev ascii)) in Hn', Hx. by rewrite !rev_involutive in Hn', Hx.
  - by apply forallb_rev_true.
  - by apply forallb_rev_true.
Qed.

Section grading_properties.
Variables Student Assignment : Type.
Variable student_name : Student → str.
Variable get_student_group_display : Student → str.
Variable get_assignment_name_display : Assignment → str.
Variable expanduser : str → str.

Notation directory :=
  (get_attempt_directory_name Student Assignment student_name
     get_student_group_display get_assignment_name_display expanduser).

Lemma directory_of_blackboard_id (a : Attempt Student Assignment) (n : str) :
  attempt_id _ _ a = blackboard_id n →
  directory a
  = expanduser (py "~/dProgSprog2017") ++ py "/"
    ++ get_student_group_display (student _ _ a) ++ py "/"
    ++ get_assignment_name_display (assignment _ _ a) ++ py "/"
    ++ student_name (student _ _ a) ++ py "_" ++ n.
Proof.
  intros Hid. unfold get_attempt_directory_name. rewrite Hid.
  unfold blackboard_id. change (startswith (py "_" ++ n ++ py "_1") (py "_")) with true.
  cbv iota. change (drop 1 (py "_" ++ n ++ py "_1")) with (n ++ py "_1").
  unfold endswith, startswith. rewrite strip_prefix_rev_suffix.
  by rewrite take_app_sub.
Qed.

(** Attempts with Blackboard ids are stored apart: two attempts whose ids
    are an underscore, digits and [_1], and whose students and assignments
    are displayed alike, have different directories as soon as their
    students differ in name or their ids differ. *)
Theorem attempts_are_stored_apart (a b : Attempt Student Assignment) (n m : str) :
  attempt_id _ _ a = blackboard_id n → attempt_id _ _ b = blackboard_id m →
  forallb is_digit n = true → forallb is_digit m = true →
  get_student_group_display (student _ _ a) = get_student_group_display (student _ _ b) →
  get_assignment_name_display (assignment _ _ a)
  = get_assignment_name_display (assignment _ _ b) →
  student_name (student _ _ a) ≠ student_name (student _ _ b)
  ∨ attempt_id _ _ a ≠ attempt_id _ _ b →
  directory a ≠ directory b.
Proof.
  intros Ha Hb Hn Hm Hc Has Hne H.
  rewrite (directory_of_blackboard_id a n Ha), (directory_of_blackboard_id b m Hb) in H.
  rewrite Hc, Has in H. do 6 apply app_inv_head in H.
  apply digits_after_underscore in H as [Hname ->]; [|done|done].
  destruct Hne as [Hne|Hne]; [done|]. apply Hne. by rewrite Ha, Hb.
Qed.

End grading_properties.

Lemma attempts_are_stored_apart_witness :
  sample_directory first_attempt ≠ sample_directory second_attempt.
Proof.
  apply (attempts_are_stored_apart str str (λ s, s) (λ _, py "DA4") (λ a, a)
           sample_expanduser first_attempt second_attempt (py "41021") (py "41507"));
    try reflexivity.
  right. discriminate.
Defined.

(** ** Dictionaries *)

Lemma get_item_map {A B} (f : str → A → B) (d : list (str * A)) (k : str) :
  get_item (map (λ '(k, v), (k, f k v)) d) k = f k <$> get_item d k.
Proof.
  induction d as [|[k' v] d IH]; [done|]. simpl.
  destruct (bool_decide (k' = k)) eqn:Hk; [|done].
  apply bool_decide_eq_true in Hk. by subst.
Qed.

Lemma get_item_update {A} (f : A → A) (d : list (str * A)) (k k' : str) :
  get_item (update f d k) k'
  = if bool_decide (k = k') then f <$> get_item d k' else get_item d k'.
Proof.
  induction d as [|[k0 v] d IH]; [by destruct (bool_decide (k = k'))|]. simpl.
  destruct (bool_decide (k0 = k)) eqn:Hk.
  - apply bool_decide_eq_true in Hk. subst k0. simpl.
    destruct (bool_decide (k = k')); done.
  - apply bool_decide_eq_false in Hk. simpl. rewrite IH.
    destruct (bool_decide (k0 = k')) eqn:Hk'; [|done].
    apply bool_decide_eq_true in Hk'. subst k0.
    by rewrite bool_decide_eq_false_2 by congruence.
Qed.

Lemma update_keys {A} (f : A → A) (d : list (str * A)) (k : str) :
  map fst (update f d k) = map fst d.
Proof.
  induction d as [|[k0 v] d IH]; [done|]. simpl.
  destruct (bool_decide (k0 = k)); simpl; by rewrite ?IH.
Qed.

Lemma get_item_elem {A} (d : list (str * A)) (k : str) (v : A) :
  get_item d k = Some v → (k, v) ∈ d.
Proof.
  induction d as [|[k0 v0] d IH]; [done|]. simpl.
  destruct (bool_decide (k0 = k)) eqn:Hk.
  - apply bool_decide_eq_true in Hk. intros [= <-]. subst. left.
  - intros H. right. by apply IH.
Qed.

Lemma elem_get_item {A} (d : list (str * A)) (k : str) (v : A) :
  NoDup (map fst d) → (k, v) ∈ d → get_item d k = Some v.
Proof.
  induction d as [|[k0 v0] d IH]; intros Hd Hin; [by apply elem_of_nil in Hin|].
  simpl in Hd. apply NoDup_cons in Hd as [Hk0 Hd].
  apply elem_of_cons in Hin as [[= <- <-]|Hin].
  - simpl. by rewrite bool_decide_eq_true_2.
  - simpl. rewrite bool_decide_eq_false_2; [by apply IH|].
    intros ->. apply Hk0. apply list_elem_of_In.
    apply (in_map fst d (k, v)). by apply list_elem_of_In.
Qed.

Lemma get_item_None {A} (d : list (str * A)) (k : str) :
  get_item d k = None ↔ k ∉ map fst d.
Proof.
  induction d as [|[k0 v0] d IH]; simpl.
  - split; [intros _; apply not_elem_of_nil|done].
  - destruct (bool_decide (k0 = k)) eqn:Hk.
    + apply bool_decide_eq_true in Hk. subst. split; [done|].
      intros H. exfalso. apply H. left.
    + apply bool_decide_eq_false in Hk. rewrite IH. rewrite not_elem_of_cons.
      split; [intros H; split; [congruence|done]|by intros [_ H]].
Qed.

(** ** [copy_student_data] *)

Lemma Forall2_map_same {A B} (R : A → B → Prop) (f : A → B) (l : list A) :
  (∀ x, x ∈ l → R x (f x)) → Forall2 R l (map f l).
Proof.
  induction l as [|x l IH]; intros H; [constructor|].
  simpl. constructor; [apply H; left|]. apply IH. intros y Hy. apply H. by right.
Qed.

Section gradebook_properties.
Context {Score Groups Attempts Details : Type}.
Variable score_ne : Score → Score → bool.

Notation student_data := (student_data Score Groups Attempts Details).
Notation assignment_data := (assignment_data Score Attempts).

Lemma copy_assignment_twice (prev_user : student_data) (aid : str)
    (a1 : assignment_data) :
  copy_assignment score_ne prev_user aid (copy_assignment score_ne prev_user aid a1)
  = copy_assignment score_ne prev_user aid a1.
Proof.
  unfold copy_assignment.
  destruct (get_item (assignments prev_user) aid) as [a2|]; [|done].
  destruct (needs_grading a1 && negb (needs_grading a2)) eqn:Hn.
  { by rewrite Hn. }
  destruct (score_ne (score a1) (score a2)) eqn:Hs.
  { by rewrite Hn, Hs. }
  destruct (attempts a1) as [x|] eqn:Ha.
  { by rewrite Hn, Hs, Ha. }
  cbn [set_attempts needs_grading score attempts]. rewrite Hn, Hs.
  by destruct (attempts a2).
Qed.

Lemma copy_student_twice (prev : list (str * student_data)) (uid : str)
    (user : student_data) :
  copy_student score_ne prev uid (copy_student score_ne prev uid user)
  = copy_student score_ne prev uid user.
Proof.
  unfold copy_student. destruct (get_item prev uid) as [p|]; [|done].
  assert (Hm : ∀ l : list (str * assignment_data),
    map (λ '(aid, a1), (aid, copy_assignment score_ne p aid a1))
      (map (λ '(aid, a1), (aid, copy_assignment score_ne p aid a1)) l)
    = map (λ '(aid, a1), (aid, copy_assignment score_ne p aid a1)) l).
  { intros l. rewrite map_map. apply map_ext. intros [aid a1].
    by rewrite copy_assignment_twice. }
  destruct (student_groups user) as [g|] eqn:Hg.
  - cbn [set_assignments student_groups assignments username details]. rewrite Hg.
    cbn [set_assignments student_groups assignments username details]. by rewrite Hm.
  - cbn [set_assignments set_groups student_groups assignments username details].
    destruct (student_groups p);
      cbn [set_assignments set_groups student_groups assignments username details];
      by rewrite Hm.
Qed.

Lemma copy_student_Some (prev : list (str * student_data)) (uid : str)
    (user p : student_data) :
  get_item prev uid = Some p →
  copy_student score_ne prev uid user
  = {| username := username user; details := details user;
       assignments := map (λ '(aid, a1), (aid, copy_assignment score_ne p aid a1))
                        (assignments user);
       student_groups := match student_groups user with
                         | None => student_groups p
                         | Some g => Some g
                         end |}.
Proof.
  intros Hp. unfold copy_student. rewrite Hp.
  destruct (student_groups user) eqn:Hg; unfold set_assignments, set_groups; cbn;
    by rewrite ?Hg.
Qed.

(** [copy_student_data] fills gaps only. The students and their assignments
    stay as they are and in their order, with their scores and their
    [needs_grading]; groups and attempts that are not [None] are kept; and
    attempts that change are those of the same assignment of the same
    student in [prev], whose score there is not different and which needed
    grading there if it needs grading now. *)
Theorem copy_student_data_fills_gaps_only (prev students : list (str * student_data)) :
  Forall2
    (λ '(user_id, user) '(user_id', user'),
       user_id' = user_id
       ∧ username user' = username user ∧ details user' = details user
       ∧ (student_groups user ≠ None → student_groups user' = student_groups user)
       ∧ (student_groups user' ≠ student_groups user →
          ∃ prev_user, get_item prev user_id = Some prev_user
                       ∧ student_groups user' = student_groups prev_user)
       ∧ Forall2
           (λ '(aid, a1) '(aid', a1'),
              aid' = aid ∧ score a1' = score a1
              ∧ needs_grading a1' = needs_grading a1
              ∧ (attempts a1 ≠ None → attempts a1' = attempts a1)
              ∧ (attempts a1' ≠ attempts a1 →
                 ∃ prev_user a2,
                   get_item prev user_id = Some prev_user
                   ∧ get_item (assignments prev_user) aid = Some a2
                   ∧ attempts a1' = attempts a2
                   ∧ score_ne (score a1) (score a2) = false
                   ∧ (needs_grading a1 = true → needs_grading a2 = true)))
           (assignments user) (assignments user'))
    students (copy_student_data score_ne prev students).
Proof.
  unfold copy_student_data. apply Forall2_map_same. intros [uid user] _.
  split; [done|].
  destruct (get_item prev uid) as [p|] eqn:Hp.
  - rewrite (copy_student_Some _ _ _ _ Hp).
    cbn [username details assignments student_groups].
    split; [done|]. split; [done|].
    split; [by destruct (student_groups user)|].
    split.
    { destruct (student_groups user) eqn:Hg; [done|]. intros _. by exists p. }
    apply Forall2_map_same. intros [aid a1] _. split; [done|].
    unfold copy_assignment. destruct (get_item (assignments p) aid) as [a2|] eqn:Ha2.
    + destruct (needs_grading a1 && negb (needs_grading a2)) eqn:Hn; [done|].
      destruct (score_ne (score a1) (score a2)) eqn:Hs; [done|].
      destruct (attempts a1) as [x|] eqn:Ha; [by rewrite Ha|].
      cbn [set_attempts score needs_grading attempts].
      split; [done|]. split; [done|]. split; [done|]. intros _.
      exists p, a2. split; [done|]. split; [done|]. split; [done|]. split; [done|].
      intros Hng. rewrite Hng in Hn. by destruct (needs_grading a2).
    + done.
  - unfold copy_student. rewrite Hp.
    split; [done|]. split; [done|]. split; [done|]. split; [done|].
    clear. induction (assignments user) as [|[aid a1] l IH]; constructor; [done|apply IH].
Qed.

(** Copying a second time from the same [prev] changes nothing. *)
Theorem copy_student_data_twice (prev students : list (str * student_data)) :
  copy_student_data score_ne prev (copy_student_data score_ne prev students)
  = copy_student_data score_ne prev students.
Proof.
  unfold copy_student_data. rewrite map_map. apply map_ext. intros [uid user].
  by rewrite copy_student_twice.
Qed.

End gradebook_properties.

(** ** [refresh_attempts] *)

Section refresh_properties.
Context {Score Groups Attempts Details : Type}.
Variable fetched : list (item value) → Attempts.
Variable get_cookie : list request → str → str → outcome value.
Variable respond : list request → request → outcome str.

Notation student_data := (student_data Score Groups Attempts Details).
Notation assignment_data := (assignment_data Score Attempts).

Lemma related_refl (P : str → str → assignment_data → assignment_data → Prop)
    (S : list (str * student_data)) :
  (∀ uid aid a, P uid aid a a) → related P S S.
Proof.
  intros HP. split; [done|]. intros uid u Hu. exists u. repeat (split; [done|]).
  intros aid a Ha. by exists a.
Qed.

Lemma related_trans (P Q R : str → str → assignment_data → assignment_data → Prop)
    (S1 S2 S3 : list (str * student_data)) :
  (∀ uid aid a b c, P uid aid a b → Q uid aid b c → R uid aid a c) →
  related P S1 S2 → related Q S2 S3 → related R S1 S3.
Proof.
  intros HR [Hk1 H1] [Hk2 H2]. split; [congruence|]. intros uid u Hu.
  destruct (H1 uid u Hu) as (u2 & Hu2 & Hn & Hd & Hg & Hka & Ha).
  destruct (H2 uid u2 Hu2) as (u3 & Hu3 & Hn' & Hd' & Hg' & Hka' & Ha').
  exists u3. split; [done|]. repeat (split; [congruence|]).
  intros aid a Haid. destruct (Ha aid a Haid) as (b & Hb & HP).
  destruct (Ha' aid b Hb) as (c & Hc & HQ). exists c. eauto.
Qed.

Lemma related_store (S S' : list (str * student_data)) (uid aid : str)
    (v : list (item value)) :
  store_attempts fetched S uid aid v = Done S' →
  related (λ uid' aid' a a',
             score a' = score a ∧ needs_grading a' = needs_grading a
             ∧ attempts a'
               = if bool_decide (uid = uid' ∧ aid = aid') then Some (fetched v)
                 else attempts a)
    S S'.
Proof.
  unfold store_attempts. destruct (get_item S uid) as [u0|] eqn:Hu0; [|done].
  destruct (get_item (assignments u0) aid) as [a0|] eqn:Ha0; [|done].
  intros [= <-]. split; [apply update_keys|].
  intros uid' u Hu. rewrite get_item_update.
  destruct (bool_decide (uid = uid')) eqn:Huid.
  - apply bool_decide_eq_true in Huid. subst uid'. rewrite Hu. cbn [fmap option_fmap option_map].
    eexists. split; [done|]. cbn [set_assignments username details student_groups assignments].
    repeat (split; [done|]). split; [apply update_keys|].
    intros aid' a Ha. rewrite get_item_update, Ha.
    destruct (bool_decide (aid = aid')) eqn:Haid.
    + apply bool_decide_eq_true in Haid. subst aid'. eexists. split; [done|].
      cbn [set_attempts score needs_grading attempts].
      by rewrite bool_decide_eq_true_2.
    + apply bool_decide_eq_false in Haid. exists a. split; [done|].
      rewrite bool_decide_eq_false_2 by (intros [_ ?]; done). done.
  - apply bool_decide_eq_false in Huid. exists u. repeat (split; [done|]).
    intros aid' a Ha. exists a. split; [done|].
    rewrite bool_decide_eq_false_2 by (intros [? _]; done). done.
Qed.

Lemma store_all_spec (pairs : list ((str * str) * list (item value))) :
  ∀ S : list (str * student_data),
  (∀ uid aid v, ((uid, aid), v) ∈ pairs →
     ∃ u a, get_item S uid = Some u ∧ get_item (assignments u) aid = Some a) →
  ∃ S', store_all fetched pairs S = Done S'
    ∧ related (λ uid aid a a',
                 score a' = score a ∧ needs_grading a' = needs_grading a
                 ∧ ((∃ i v, pairs !! i = Some ((uid, aid), v)
                            ∧ attempts a' = Some (fetched v))
                    ∨ ((∀ v, ((uid, aid), v) ∉ pairs) ∧ attempts a' = attempts a)))
        S S'.
Proof.
  induction pairs as [|[[uid0 aid0] v0] pairs IH]; intros S Hex.
  - exists S. split; [done|]. apply related_refl. intros uid aid a.
    split; [done|]. split; [done|]. right. split; [|done]. intros v. apply not_elem_of_nil.
  - destruct (Hex uid0 aid0 v0) as (u0 & a0 & Hu0 & Ha0); [left|].
    cbn [store_all].
    destruct (store_attempts fetched S uid0 aid0 v0) as [S1|e] eqn:Hs.
    2: { unfold store_attempts in Hs. by rewrite Hu0, Ha0 in Hs. }
    pose proof (related_store _ _ _ _ _ Hs) as Hrel.
    destruct (IH S1) as (S' & HS' & Hrel').
    { intros uid aid v Hin. destruct (Hex uid aid v) as (u & a & Hu & Ha); [by right|].
      destruct Hrel as [_ Hrel]. destruct (Hrel uid u Hu) as (u1 & Hu1 & _ & _ & _ & _ & Hc).
      destruct (Hc aid a Ha) as (a1 & Ha1 & _). eauto. }
    exists S'. split; [done|].
    eapply related_trans; [|exact Hrel|exact Hrel'].
    intros uid aid a b c (Hs1 & Hn1 & Hb) (Hs2 & Hn2 & Hc).
    split; [congruence|]. split; [congruence|].
    destruct Hc as [(i & v & Hi & Hc)|[Hnot Hc]].
    + left. exists (Datatypes.S i), v. done.
    + destruct (bool_decide (uid0 = uid ∧ aid0 = aid)) eqn:Hk.
      * apply bool_decide_eq_true in Hk as [-> ->]. left. exists 0%nat, v0.
        split; [done|]. congruence.
      * apply bool_decide_eq_false in Hk. right. split; [|congruence].
        intros v Hin. apply elem_of_cons in Hin as [[= -> -> ->]|Hin].
        -- by apply Hk.
        -- by apply (Hnot v).
Qed.

Lemma attempt_keys_exist (S : list (str * student_data)) (uid aid : str) :
  distinct_ids S → (uid, aid) ∈ attempt_keys S →
  ∃ u a, get_item S uid = Some u ∧ get_item (assignments u) aid = Some a
         ∧ attempts a = None.
Proof.
  intros [HS Ha] Hin. apply list_elem_of_In in Hin. unfold attempt_keys in Hin.
  apply in_flat_map in Hin as ([uid' u] & Hu & Hin).
  apply in_flat_map in Hin as ([aid' a] & Hau & Hin).
  destruct (attempts a) eqn:Hatt; [done|]. destruct Hin as [[= -> ->]|[]].
  apply list_elem_of_In in Hu, Hau. exists u, a.
  split; [by apply elem_get_item|]. split; [|done].
  apply elem_get_item; [by eapply Ha|done].
Qed.

Lemma attempt_keys_complete (S : list (str * student_data)) (uid aid : str)
    (u : student_data) (a : assignment_data) :
  get_item S uid = Some u → get_item (assignments u) aid = Some a →
  attempts a = None → (uid, aid) ∈ attempt_keys S.
Proof.
  intros Hu Ha Hatt. apply get_item_elem in Hu, Ha.
  apply list_elem_of_In. unfold attempt_keys. apply in_flat_map.
  exists (uid, u). split; [by apply list_elem_of_In|].
  apply in_flat_map. exists (aid, a). split; [by apply list_elem_of_In|].
  rewrite Hatt. by left.
Qed.

Lemma attempts_info_length (keys : list (str * str)) (batch_size : Z)
    (session session' : BlackboardSession) (data : list (list (item value))) :
  0 < batch_size →
  dwr_get_attempts_info get_cookie respond keys batch_size session
  = (Done data, session') →
  length data = length keys.
Proof.
  intros Hs. unfold dwr_get_attempts_info.
  rewrite range_batches by (unfold len; lia).
  unfold mbind at 1, io_bind, now.
  rewrite (batch_loop_batches get_cookie respond keys batch_size Hs (length keys)
             keys [] 0 []); [|done|done|done].
  destruct (batches_spec (Z.to_nat batch_size) (length keys) keys) as [Hc _];
    [lia|done|].
  intros H. apply io_bind_Done in H as (rest & s2 & H & H'). injection H' as <- <-.
  rewrite <- Hc at 1. clear Hc. cbn [app]. revert session rest H.
  induction (batches (Z.to_nat batch_size) keys) as [|b bs IH]; intros session rs H.
  - by injection H as <- <-.
  - cbn [requests_in_turn] in H.
    apply io_bind_Done in H as (rs1 & s1 & H1 & H).
    apply io_bind_Done in H as (rest & s3 & H2 & H). injection H as <- <-.
    apply single_request_length in H1.
    cbn [concat]. rewrite !length_app, H1. f_equal. by eapply IH.
Qed.

(** When the requests of [dwr_get_attempts_info] for the assignments
    without attempts are answered, [refresh_attempts] returns and raises no
    [KeyError]. The students and their assignments are the same, in the same
    order, with their names, details, groups, scores and [needs_grading]; an
    assignment that had attempts keeps them, and an assignment that had none
    has the answer for its key: no assignment is left without attempts. *)
Theorem refresh_attempts_fills_every_gap (students : list (str * student_data))
    (session session' : BlackboardSession) (data : list (list (item value))) :
  distinct_ids students →
  dwr_get_attempts_info get_cookie respond (attempt_keys students) 20 session
  = (Done data, session') →
  ∃ students',
    refresh_attempts fetched get_cookie respond students session
    = (Done students', session')
    ∧ attempt_keys students' = []
    ∧ related (λ user_id aid a a',
                 score a' = score a ∧ needs_grading a' = needs_grading a
                 ∧ match attempts a with
                   | Some x => attempts a' = Some x
                   | None =>
                       ∃ i v, attempt_keys students !! i = Some (user_id, aid)
                              ∧ data !! i = Some v
                              ∧ attempts a' = Some (fetched v)
                   end)
        students students'.
Proof.
  intros Hd Hdata.
  assert (Hlen : length data = length (attempt_keys students)).
  { by apply (attempts_info_length _ 20 session session'). }
  destruct (store_all_spec (zip (attempt_keys students) data) students)
    as (S' & HS' & Hrel).
  { intros uid aid v Hin. apply elem_of_zip_with in Hin as (k & v' & [= <- <-] & Hk & _).
    destruct (attempt_keys_exist _ _ _ Hd Hk) as (u & a & ? & ? & _). eauto. }
  exists S'. split.
  { unfold refresh_attempts. cbv zeta. unfold mbind, io_bind. rewrite Hdata.
    unfold now. by rewrite HS'. }
  assert (Hfinal : related (λ user_id aid a a',
                 score a' = score a ∧ needs_grading a' = needs_grading a
                 ∧ match attempts a with
                   | Some x => attempts a' = Some x
                   | None =>
                       ∃ i v, attempt_keys students !! i = Some (user_id, aid)
                              ∧ data !! i = Some v
                              ∧ attempts a' = Some (fetched v)
                   end)
        students S').
  { destruct Hrel as [Hkeys Hrel]. split; [done|]. intros uid u Hu.
    destruct (Hrel uid u Hu) as (u' & Hu' & Hn & Hdt & Hg & Hka & Hcells).
    exists u'. repeat (split; [done|]). intros aid a Ha.
    destruct (Hcells aid a Ha) as (a' & Ha' & Hs & Hng & Hatt).
    exists a'. split; [done|]. split; [done|]. split; [done|].
    destruct (attempts a) as [x|] eqn:Hx.
    - destruct Hatt as [(i & v & Hi & _)|[_ Hatt]]; [|done].
      apply lookup_zip_with_Some in Hi as (k & v' & [= <- <-] & Hk & _).
      apply list_elem_of_lookup_2 in Hk.
      destruct (attempt_keys_exist _ _ _ Hd Hk) as (u2 & a2 & Hu2 & Ha2 & Hnone).
      congruence.
    - destruct Hatt as [(i & v & Hi & Hatt)|[Hnot _]].
      + apply lookup_zip_with_Some in Hi as (k & v' & [= <- <-] & Hk & Hv). eauto.
      + exfalso. pose proof (attempt_keys_complete _ _ _ _ _ Hu Ha Hx) as Hin.
        apply list_elem_of_lookup_1 in Hin as (i & Hi).
        destruct (lookup_lt_is_Some_2 data i) as (v & Hv).
        { rewrite Hlen. by eapply lookup_lt_Some. }
        apply (Hnot v). apply (list_elem_of_lookup_2 _ i).
        apply lookup_zip_with_Some. eauto. }
  split; [|done].
  (* no key is left *)
  destruct (attempt_keys S') as [|[uid aid] ks] eqn:Hks; [done|]. exfalso.
  assert (Hin : (uid, aid) ∈ attempt_keys S') by (rewrite Hks; left).
  apply list_elem_of_In in Hin. unfold attempt_keys in Hin.
  apply in_flat_map in Hin as ([uid' u'] & Hu' & Hin).
  apply in_flat_map in Hin as ([aid' a'] & Hau' & Hin).
  destruct (attempts a') eqn:Hatt'; [done|]. destruct Hin as [[= -> ->]|[]].
  destruct Hd as [HdS Hda]. destruct Hfinal as [Hkeys Hfinal].
  apply list_elem_of_In in Hu', Hau'.
  assert (HuS' : get_item S' uid = Some u').
  { apply elem_get_item; [by rewrite Hkeys|done]. }
  destruct (get_item students uid) as [u|] eqn:Hu.
  2: { apply get_item_None in Hu. rewrite <- Hkeys in Hu.
       apply get_item_None in Hu. congruence. }
  destruct (Hfinal uid u Hu) as (u2 & Hu2 & _ & _ & _ & Hka & Hcells).
  assert (u2 = u') by congruence. subst u2.
  assert (Hau : get_item (assignments u') aid = Some a').
  { apply elem_get_item; [|done]. rewrite Hka. eapply Hda. by apply get_item_elem. }
  destruct (get_item (assignments u) aid) as [a|] eqn:Ha.
  2: { apply get_item_None in Ha. rewrite <- Hka in Ha.
       apply get_item_None in Ha. congruence. }
  destruct (Hcells aid a Ha) as (a2 & Ha2 & _ & _ & Hatt).
  assert (a2 = a') by congruence. subst a2.
  destruct (attempts a); [congruence|]. destruct Hatt as (? & ? & _ & _ & ?). congruence.
Qed.

End refresh_properties.

(** ** [fetch_groups] *)

Lemma get_item_set_item {A} (d : list (str * A)) (k k' : str) (v : A) :
  get_item (set_item d k v) k'
  = if bool_decide (k = k') then Some v else get_item d k'.
Proof.
  induction d as [|[k0 v0] d IH]; simpl.
  - by destruct (bool_decide (k = k')).
  - destruct (bool_decide (k0 = k)) eqn:Hk; simpl.
    + apply bool_decide_eq_true in Hk. subst k0. by destruct (bool_decide (k = k')).
    + apply bool_decide_eq_false in Hk. rewrite IH.
      destruct (bool_decide (k0 = k')) eqn:Hk'; [|done].
      apply bool_decide_eq_true in Hk'. subst k0.
      by rewrite bool_decide_eq_false_2 by congruence.
Qed.

Section groups_properties.
Context {Score Groups Attempts Details : Type}.

Notation student_data := (student_data Score Groups Attempts Details).

(** The dictionary of the usernames, built from any dictionary [d0]. *)
Notation names_from := (fold_left (λ (d : list (str * str)) '(user_id, u),
                                     set_item d (username u) user_id)).

Lemma names_from_Some (S : list (str * student_data)) :
  ∀ (d0 : list (str * str)) (n uid : str),
  get_item (names_from S d0) n = Some uid →
  (∃ u, (uid, u) ∈ S ∧ username u = n)
  ∨ ((∀ uid' u, (uid', u) ∈ S → username u ≠ n) ∧ get_item d0 n = Some uid).
Proof.
  induction S as [|[uid1 u1] S IH]; intros d0 n uid H.
  - right. split; [|done]. intros ? ? Hin. by apply elem_of_nil in Hin.
  - cbn [fold_left] in H. apply IH in H as [(u & Hin & Hn)|[Hnone H]].
    + left. exists u. split; [by right|done].
    + rewrite get_item_set_item in H.
      destruct (bool_decide (username u1 = n)) eqn:Hk.
      * apply bool_decide_eq_true in Hk. injection H as <-. left. exists u1.
        split; [left|done].
      * apply bool_decide_eq_false in Hk. right. split; [|done].
        intros uid' u Hin. apply elem_of_cons in Hin as [[= -> ->]|Hin]; [done|].
        by eapply Hnone.
Qed.

Lemma names_from_None (S : list (str * student_data)) :
  ∀ (d0 : list (str * str)) (n : str),
  get_item (names_from S d0) n = None →
  (∀ uid u, (uid, u) ∈ S → username u ≠ n) ∧ get_item d0 n = None.
Proof.
  induction S as [|[uid1 u1] S IH]; intros d0 n H.
  - split; [|done]. intros ? ? Hin. by apply elem_of_nil in Hin.
  - cbn [fold_left] in H. apply IH in H as [Hnone H].
    rewrite get_item_set_item in H.
    destruct (bool_decide (username u1 = n)) eqn:Hk; [done|].
    apply bool_decide_eq_false in Hk. split; [|done].
    intros uid u Hin. apply elem_of_cons in Hin as [[= -> ->]|Hin]; [done|].
    by eapply Hnone.
Qed.

Lemma usernames_of_students (S : list (str * student_data)) (n uid : str) :
  get_item (usernames S) n = Some uid → ∃ u, (uid, u) ∈ S ∧ username u = n.
Proof.
  intros H. apply names_from_Some in H as [H|[_ H]]; [done|discriminate].
Qed.

Lemma usernames_None (S : list (str * student_data)) (n : str) :
  get_item (usernames S) n = None ↔ n ∉ map (λ p, username p.2) S.
Proof.
  split.
  - intros H. apply names_from_None in H as [H _]. intros Hin.
    apply list_elem_of_In, in_map_iff in Hin as ([uid u] & Hn & Hin).
    apply list_elem_of_In in Hin. by apply (H uid u).
  - intros H. destruct (get_item (usernames S) n) as [uid|] eqn:Hg; [|done].
    apply usernames_of_students in Hg as (u & Hin & Hn). exfalso. apply H.
    apply list_elem_of_In, in_map_iff. exists (uid, u). split; [done|].
    by apply list_elem_of_In.
Qed.

(** The last student of a name is the one the dictionary has. *)
Lemma usernames_last (S1 S2 : list (str * student_data)) (uid : str)
    (u : student_data) :
  (∀ uid' u', (uid', u') ∈ S2 → username u' ≠ username u) →
  get_item (usernames (S1 ++ (uid, u) :: S2)) (username u) = Some uid.
Proof.
  intros Hlast. unfold usernames. rewrite fold_left_app. cbn [fold_left].
  destruct (get_item (names_from S2 _) (username u)) as [uid'|] eqn:Hg.
  - apply names_from_Some in Hg as [(u' & Hin & Hn)|[_ Hg]].
    + by apply Hlast in Hin.
    + rewrite get_item_set_item, bool_decide_eq_true_2 in Hg by done. done.
  - apply names_from_None in Hg as [_ Hg].
    rewrite get_item_set_item, bool_decide_eq_true_2 in Hg by done. done.
Qed.

Lemma usernames_later (S1 S2 : list (str * student_data)) (uid uid2 : str)
    (u u2 : student_data) (x : str) :
  (uid2, u2) ∈ S2 → username u2 = username u →
  get_item (usernames (S1 ++ (uid, u) :: S2)) (username u) = Some x →
  ∃ u', (x, u') ∈ S2.
Proof.
  intros Hin Hn. unfold usernames. rewrite fold_left_app. cbn [fold_left].
  intros Hg. apply names_from_Some in Hg as [(u' & Hin' & _)|[Hnone _]]; [eauto|].
  by apply Hnone in Hin.
Qed.

Lemma fetch_groups_loop_spec (names : list (str * str))
    (user_groups : list (str * option Groups)) :
  ∀ (S : list (str * student_data)) (warned : list str),
  (∀ n uid, get_item names n = Some uid → is_Some (get_item S uid)) →
  ∃ S',
    fetch_groups_loop names user_groups S warned
    = Done (S', warned ++ filter (λ n, get_item names n = None) (map fst user_groups))
    ∧ map fst S' = map fst S
    ∧ ∀ uid u, get_item S uid = Some u →
        ∃ u', get_item S' uid = Some u'
          ∧ username u' = username u ∧ details u' = details u
          ∧ assignments u' = assignments u
          ∧ student_groups u'
            = fold_left (λ g '(name, gs),
                           if bool_decide (get_item names name = Some uid) then gs else g)
                user_groups (student_groups u).
Proof.
  induction user_groups as [|[name gs] ugs IH]; intros S warned Hnames.
  - exists S. cbn [fetch_groups_loop map]. rewrite filter_nil, app_nil_r.
    split; [done|]. split; [done|]. intros uid u Hu. by exists u.
  - cbn [fetch_groups_loop map fst fold_left]. rewrite filter_cons.
    destruct (get_item names name) as [uid0|] eqn:Hn.
    + rewrite decide_False by done.
      destruct (Hnames name uid0 Hn) as [u0 Hu0]. rewrite Hu0.
      destruct (IH (update (set_groups gs) S uid0) warned) as (S' & HS' & Hk & Hall).
      { intros n uid Hg. rewrite get_item_update.
        destruct (Hnames n uid Hg) as [u Hu]. rewrite Hu.
        by destruct (bool_decide (uid0 = uid)). }
      exists S'. split; [done|]. split; [by rewrite Hk, update_keys|].
      intros uid u Hu.
      destruct (bool_decide (uid0 = uid)) eqn:Hid.
      * apply bool_decide_eq_true in Hid. subst uid0.
        destruct (Hall uid (set_groups gs u)) as (u' & Hu' & H1 & H2 & H3 & H4).
        { by rewrite get_item_update, bool_decide_eq_true_2, Hu. }
        exists u'. split; [done|]. repeat (split; [done|]).
        by rewrite bool_decide_eq_true_2.
      * apply bool_decide_eq_false in Hid.
        destruct (Hall uid u) as (u' & Hu' & H1 & H2 & H3 & H4).
        { by rewrite get_item_update, bool_decide_eq_false_2, Hu. }
        exists u'. split; [done|]. repeat (split; [done|]).
        by rewrite bool_decide_eq_false_2 by congruence.
    + rewrite decide_True by done.
      destruct (IH S (warned ++ [name])) as (S' & HS' & Hk & Hall); [done|].
      exists S'. split; [by rewrite HS', <- app_assoc|]. split; [done|].
      intros uid u Hu. destruct (Hall uid u Hu) as (u' & Hu' & H1 & H2 & H3 & H4).
      exists u'. repeat (split; [done|]). done.
Qed.

Lemma groups_kept (names : list (str * str)) (uid : str)
    (user_groups : list (str * option Groups)) (g : option Groups) :
  (∀ name gs, (name, gs) ∈ user_groups → get_item names name ≠ Some uid) →
  fold_left (λ g '(name, gs),
               if bool_decide (get_item names name = Some uid) then gs else g)
    user_groups g = g.
Proof.
  revert g. induction user_groups as [|[name gs] ugs IH]; intros g H; [done|].
  cbn [fold_left]. rewrite bool_decide_eq_false_2 by (apply (H name gs); left).
  apply IH. intros n' gs' Hin. apply (H n' gs'). by right.
Qed.

(** [fetch_groups] goes by username, and raises nothing. It warns of the
    usernames of the list that no student has, in the order of the list,
    and leaves the students, their order and all but their groups as they
    are. A student whose username is not on the list keeps its groups, and
    so does a student that a later student shares its username with; the
    last student of a username gets the groups of the last entry of the
    list with that username. *)
Theorem fetch_groups_goes_by_username (user_groups : list (str * option Groups))
    (students : list (str * student_data)) :
  NoDup (map fst students) →
  ∃ students',
    fetch_groups user_groups students
    = Done (students',
            filter (λ n, n ∉ map (λ p, username p.2) students) (map fst user_groups))
    ∧ map fst students' = map fst students
    ∧ ∀ before user_id user after,
        students = before ++ (user_id, user) :: after →
        ∃ user', get_item students' user_id = Some user'
          ∧ username user' = username user ∧ details user' = details user
          ∧ assignments user' = assignments user
          ∧ (username user ∉ map fst user_groups →
             student_groups user' = student_groups user)
          ∧ (username user ∈ map (λ p, username p.2) after →
             student_groups user' = student_groups user)
          ∧ (username user ∉ map (λ p, username p.2) after →
             ∀ entries gs later,
               user_groups = entries ++ (username user, gs) :: later →
               username user ∉ map fst later →
               student_groups user' = gs).
Proof.
  intros Hd. unfold fetch_groups.
  destruct (fetch_groups_loop_spec (usernames students) user_groups students [])
    as (S' & HS' & Hk & Hall).
  { intros n uid Hg. apply usernames_of_students in Hg as (u & Hin & _).
    exists u. by apply elem_get_item. }
  exists S'. split.
  { rewrite HS'. cbn [app]. do 2 f_equal. apply list_filter_iff.
    intros n. apply usernames_None. }
  split; [done|]. intros before uid u after ->.
  assert (Hu : get_item (before ++ (uid, u) :: after) uid = Some u).
  { apply elem_get_item; [done|]. apply elem_of_app. right. left. }
  destruct (Hall uid u Hu) as (u' & Hu' & H1 & H2 & H3 & H4).
  exists u'. repeat (split; [done|]).
  (* the usernames that stand for this student *)
  assert (Hname : ∀ n, get_item (usernames (before ++ (uid, u) :: after)) n = Some uid →
                       n = username u).
  { intros n Hg. apply usernames_of_students in Hg as (u2 & Hin & <-).
    apply (elem_get_item _ _ _ Hd) in Hin. congruence. }
  split; [|split].
  - intros Hnot. rewrite H4. apply groups_kept. intros name gs Hin Hg.
    apply Hname in Hg. subst name. apply Hnot.
    apply list_elem_of_In. apply (in_map fst _ (username u, gs)). by apply list_elem_of_In.
  - intros Hshared. rewrite H4. apply groups_kept. intros name gs _ Hg.
    pose proof (Hname _ Hg) as ->.
    apply list_elem_of_In, in_map_iff in Hshared as ([uid2 u2] & Hn2 & Hin2).
    apply list_elem_of_In in Hin2.
    destruct (usernames_later before after uid uid2 u u2 uid Hin2 Hn2 Hg) as (u3 & Hin3).
    rewrite map_app in Hd. cbn [map fst] in Hd.
    apply NoDup_app in Hd as (_ & _ & Hd). apply NoDup_cons in Hd as [Hd _].
    apply Hd. apply list_elem_of_In. apply (in_map fst _ (uid, u3)).
    by apply list_elem_of_In.
  - intros Hlast entries gs later -> Hnot. rewrite H4.
    rewrite fold_left_app. cbn [fold_left].
    rewrite usernames_last.
    2: { intros uid2 u2 Hin2 Hn2. apply Hlast. apply list_elem_of_In, in_map_iff.
         exists (uid2, u2). split; [done|]. by apply list_elem_of_In. }
    rewrite bool_decide_eq_true_2 by done.
    apply groups_kept. intros name gs' Hin Hg. apply Hname in Hg. subst name.
    apply Hnot. apply list_elem_of_In. apply (in_map fst _ (username u, gs')).
    by apply list_elem_of_In.
Qed.

End groups_properties.

(** ** Examples of gradebooks *)

Ltac distinct_strings :=
  repeat (apply NoDup_cons; split;
          [let H := fresh in
           intros H; repeat (apply elem_of_cons in H as [H|H]; [discriminate H|]);
           by apply elem_of_nil in H|]);
  apply NoDup_nil_2.

Lemma sample_students_distinct : distinct_ids sample_students.
Proof.
  split; [cbn; distinct_strings|]. intros uid u H.
  repeat (apply elem_of_cons in H as [[= -> ->]|H]; [cbn; distinct_strings|]).
  by apply elem_of_nil in H.
Defined.

Lemma refresh_attempts_fills_every_gap_witness :
  let out := refresh_attempts (λ v, v) sample_get_cookie sample_respond
               sample_students sample_session in
  ∃ students', out = (Done students', out.2) ∧ attempt_keys students' = [].
Proof.
  intros out.
  destruct (refresh_attempts_fills_every_gap (λ v, v) sample_get_cookie sample_respond
              sample_students sample_session out.2
              [ [Plain (VList [VInt 0])]; [Plain (VList [VInt 1])] ])
    as (students' & H1 & H2 & _).
  - exact sample_students_distinct.
  - vm_compute. reflexivity.
  - exists students'. split; [|exact H2].
    unfold out. rewrite H1. reflexivity.
Defined.

Lemma fetch_groups_goes_by_username_witness :
  ∃ students' warned,
    fetch_groups sample_user_groups sample_students = Done (students', warned)
    ∧ map fst students' = map fst sample_students.
Proof.
  destruct (fetch_groups_goes_by_username sample_user_groups sample_students)
    as (students' & H1 & H2 & _).
  - cbn. distinct_strings.
  - exists students'. eexists. split; [exact H1 | exact H2].
Defined.
